(** * Youtube-Faceless: the segment-and-render pipeline of [index.js]

    A shallow embedding of the text segmenter, the admission filter, the
    per-segment asset pipeline, the compositor and the splitter/rebalancer,
    with the properties of the specification stated over it. *)

From Stdlib Require Import ZArith QArith Qround String Ascii.
From Stdlib Require Import DecimalString DecimalNat Lia.
From stdpp Require Import gmap list sorting.

(** ** JavaScript strings

    A JS string is a sequence of UTF-16 code units; a code unit is kept as
    its number. *)

Abbreviation jsstring := (list N).

(** A literal of the source, written as a Rocq string of Basic Latin
    characters. *)
Definition js (s : string) : jsstring :=
  List.map N_of_ascii (list_ascii_of_string s).
Arguments js : simpl never.

(** The code units matched by the regular-expression class [\s]
    (WhiteSpace and LineTerminator of ECMAScript). *)
Definition is_ws (c : N) : bool :=
  ((9 <=? c) && (c <=? 13) || (c =? 32) || (c =? 160) || (c =? 5760)
   || (8192 <=? c) && (c <=? 8202) || (c =? 8232) || (c =? 8233)
   || (c =? 8239) || (c =? 8287) || (c =? 12288) || (c =? 65279))%N.

(** [s.split(/\s+/)]: the pieces of [s] between maximal runs of white space.
    A run at the start or at the end of [s] leaves an empty piece there, and
    the empty string gives one piece, itself empty. *)
Fixpoint split_ws (s : jsstring) : list jsstring :=
  match s with
  | [] => [[]]
  | c :: s' =>
      if is_ws c then
        match s' with
        | [] => [[]; []]
        | c' :: _ => if is_ws c' then split_ws s' else [] :: split_ws s'
        end
      else
        match split_ws s' with
        | t :: ts => (c :: t) :: ts
        | [] => [[c]]
        end
  end.

(** [s.split(sep)] for a one-unit separator string: every occurrence of the
    separator cuts, so adjacent separators give empty pieces. *)
Fixpoint split_unit (sep : N) (s : jsstring) : list jsstring :=
  match s with
  | [] => [[]]
  | c :: s' =>
      if (c =? sep)%N then [] :: split_unit sep s'
      else
        match split_unit sep s' with
        | t :: ts => (c :: t) :: ts
        | [] => [[c]]
        end
  end.

(** [arr.join(sep)]. *)
Fixpoint join (sep : jsstring) (l : list jsstring) : jsstring :=
  match l with
  | [] => []
  | x :: l' =>
      match l' with
      | [] => x
      | _ :: _ => x ++ sep ++ join sep l'
      end
  end.

Definition sp : jsstring := [32%N].

(** [/[.!?]$/.test(word)]. *)
Definition ends_sentence (word : jsstring) : bool :=
  match last word with
  | Some c => ((c =? 46) || (c =? 33) || (c =? 63))%N
  | None => false
  end.

(** ** TextSegmenter: [splitTextIntoSegments] *)

(** One turn of the [forEach] callback, on the pair
    [(segments, currentSegment)]. *)
Definition segment_step (minWords : Z)
    (st : list jsstring * list jsstring) (word : jsstring)
    : list jsstring * list jsstring :=
  let '(segments, currentSegment) := st in
  let currentSegment := currentSegment ++ [word] in
  if (minWords <=? Z.of_nat (length currentSegment))%Z && ends_sentence word
  then (segments ++ [join sp currentSegment], [])
  else (segments, currentSegment).

(** The state after the loop over all words. *)
Definition segment_scan (minWords : Z) (words : list jsstring)
    : list jsstring * list jsstring :=
  fold_left (segment_step minWords) words ([], []).

(** The statements after the loop: the remaining words are pushed as a
    segment, or appended to the last segment when they are fewer than
    [minWords] and a segment exists. *)
Definition segment_flush (minWords : Z)
    (st : list jsstring * list jsstring) : list jsstring :=
  let '(segments, currentSegment) := st in
  if bool_decide (length currentSegment ≠ 0) then
    if bool_decide (length segments ≠ 0)
       && (Z.of_nat (length currentSegment) <? minWords)%Z
    then alter (λ s, s ++ sp ++ join sp currentSegment)
               (length segments - 1) segments
    else segments ++ [join sp currentSegment]
  else segments.

Definition splitTextIntoSegments (text : jsstring) (minWords : Z)
    : list jsstring :=
  segment_flush minWords (segment_scan minWords (split_ws text)).

(** The number of words of a text, as [processPost] counts it:
    [text.split(/\s+/).length]. *)
Definition word_count (text : jsstring) : nat := length (split_ws text).


(** *** The segmenter on word lists

    The same loop on lists of words rather than on joined strings: what the
    proofs below relate [splitTextIntoSegments] to. *)

Definition chunk_step (minWords : Z)
    (st : list (list jsstring) * list jsstring) (word : jsstring)
    : list (list jsstring) * list jsstring :=
  let '(chunks, cur) := st in
  let cur := cur ++ [word] in
  if (minWords <=? Z.of_nat (length cur))%Z && ends_sentence word
  then (chunks ++ [cur], [])
  else (chunks, cur).

Definition chunk_flush (minWords : Z)
    (st : list (list jsstring) * list jsstring) : list (list jsstring) :=
  let '(chunks, cur) := st in
  if bool_decide (length cur ≠ 0) then
    if bool_decide (length chunks ≠ 0) && (Z.of_nat (length cur) <? minWords)%Z
    then alter (λ c, c ++ cur) (length chunks - 1) chunks
    else chunks ++ [cur]
  else chunks.

Definition chunks_of (minWords : Z) (words : list jsstring)
    : list (list jsstring) :=
  chunk_flush minWords (fold_left (chunk_step minWords) words ([], [])).

(** Words as [split_ws] produces them: free of white space, and empty only
    in the first or the last position. *)
Definition ws_free (t : jsstring) : Prop := Forall (λ c, is_ws c = false) t.

Fixpoint tail_ok (ts : list jsstring) : Prop :=
  match ts with
  | [] => True
  | t :: ts' => (ts' ≠ [] → t ≠ []) ∧ tail_ok ts'
  end.

Definition tokens_ok (ts : list jsstring) : Prop :=
  Forall ws_free ts ∧ tail_ok (tail ts).

(** Collapsing every run of white space to one space. *)
Definition normalize_ws (text : jsstring) : jsstring := join sp (split_ws text).

(** ** PostFilterAndRouter: the gate of [processPost] *)

(** [s.toLowerCase()] on the Basic Latin letters.  The other case mappings
    of Unicode yield no letter of ["update"] and no character that
    [sanitizeTitle] keeps, so both uses below are unaffected by them. *)
Definition lower_unit (c : N) : N :=
  if ((65 <=? c) && (c <=? 90))%N then (c + 32)%N else c.

Definition toLowerCase (s : jsstring) : jsstring := lower_unit <$> s.

Fixpoint starts_with (p s : jsstring) : bool :=
  match p, s with
  | [], _ => true
  | _ :: _, [] => false
  | a :: p', b :: s' => (a =? b)%N && starts_with p' s'
  end.

(** [s.includes(p)]. *)
Fixpoint includes (s p : jsstring) : bool :=
  starts_with p s
  || match s with
     | [] => false
     | _ :: s' => includes s' p
     end.

Record post := {
  title : jsstring;
  selftext : jsstring;
  author : jsstring;
  subreddit_name_prefixed : jsstring;
  ups : Z;
  num_comments : Z
}.

Inductive gate := SkipUpdate | SkipLong | Accept.

(** The two early returns of [processPost]; the length test is
    [postContent.split(" ").length > 600]. *)
Definition post_gate (p : post) : gate :=
  if includes (toLowerCase (title p)) (js "update")
     || includes (toLowerCase (selftext p)) (js "update")
  then SkipUpdate
  else if 600 <? length (split_unit 32 (selftext p)) then SkipLong
  else Accept.

(** ** Paths of the artifact store *)

Definition is_alnum (c : N) : bool :=
  ((48 <=? c) && (c <=? 57) || (65 <=? c) && (c <=? 90)
   || (97 <=? c) && (c <=? 122))%N.

Definition underscore : N := 95.

(** [.replace(/_+/g, "_")]. *)
Fixpoint squeeze (s : jsstring) : jsstring :=
  match s with
  | [] => []
  | c :: s' =>
      match s' with
      | c' :: _ =>
          if ((c =? underscore) && (c' =? underscore))%N then squeeze s'
          else c :: squeeze s'
      | [] => [c]
      end
  end.

Fixpoint drop_underscores (s : jsstring) : jsstring :=
  match s with
  | c :: s' => if (c =? underscore)%N then drop_underscores s' else s
  | [] => []
  end.

Definition sanitizeTitle (title : jsstring) : jsstring :=
  let masked := (λ c, if is_alnum c then c else underscore) <$> title in
  let lowered := toLowerCase (squeeze masked) in
  reverse (drop_underscores (reverse (drop_underscores lowered))).

(** A number inside a template literal. *)
Definition decimal (n : nat) : jsstring :=
  js (NilEmpty.string_of_uint (Nat.to_uint n)).

Definition artifact_dir (subredditFolder shortTitle : jsstring) : jsstring :=
  js "./" ++ subredditFolder ++ js "/" ++ sanitizeTitle shortTitle.

Definition audioPath (subredditFolder shortTitle : jsstring) (segmentIndex : nat)
    : jsstring :=
  artifact_dir subredditFolder shortTitle ++ js "/audio/audio_"
  ++ sanitizeTitle shortTitle ++ js "_part" ++ decimal segmentIndex ++ js ".mp3".

Definition screenshotPath (subredditFolder shortTitle : jsstring)
    (segmentIndex : option nat) : jsstring :=
  artifact_dir subredditFolder shortTitle ++ js "/screenshot/screenshot_"
  ++ sanitizeTitle shortTitle
  ++ match segmentIndex with
     | Some i => js "_part" ++ decimal i
     | None => []
     end
  ++ js ".png".

Definition videoPath (subredditFolder shortTitle : jsstring) (segmentIndex : nat)
    : jsstring :=
  artifact_dir subredditFolder shortTitle ++ js "/ogVid/video_"
  ++ sanitizeTitle shortTitle ++ js "_part" ++ decimal segmentIndex ++ js ".mp4".

Definition descriptionPath (subredditFolder shortTitle : jsstring) : jsstring :=
  artifact_dir subredditFolder shortTitle ++ js "/description/description.txt".

Definition backgroundVideoPath : jsstring := js "./videoplayback.mp4".

Fixpoint drop_to_slash (s : jsstring) : jsstring :=
  match s with
  | c :: s' => if (c =? 47)%N then s' else drop_to_slash s'
  | [] => []
  end.

(** [path.dirname(p)] for a path with a directory part: [p] without its last
    component and the slash before it. *)
Definition dirname (p : jsstring) : jsstring :=
  reverse (drop_to_slash (reverse p)).

(** [path.join(base, "description", "description.txt")].  The result names
    a file relative to the working directory; that [path.join] also drops a
    leading ["./"] changes the spelling, not the file, and is left out. *)
Definition description_of_video (videoPath : jsstring) : jsstring :=
  dirname (dirname videoPath) ++ js "/description/description.txt".

(** ** The encoder command built by [createVideo]

    The command is kept as data: inputs with their options, the filter
    graph, the output options.  An option string such as ["-ss 00:00:05"]
    is kept as its two words. *)

Inductive arg :=
| Str (s : string)
| Num (q : Q)                 (* a number printed by [toString()] *)
| Time (h m s : nat).         (* a time written HH:MM:SS *)

Record ffinput := { in_path : jsstring; in_options : list arg }.

Record ffilter := {
  filter : string;
  options : list (string * string);
  f_inputs : list string;
  outputs : string
}.

Record command := {
  cmd_inputs : list ffinput;
  complexFilter : list ffilter;
  outputOptions : list arg;
  cmd_output : jsstring
}.

Definition video_command
    (backgroundPath audioPath screenshotPath outputPath : jsstring)
    (audioDuration : Q) : command :=
  {| cmd_inputs :=
       [ {| in_path := backgroundPath; in_options := [Str "-ss"; Time 0 0 5] |};
         {| in_path := screenshotPath; in_options := [] |};
         {| in_path := audioPath; in_options := [] |} ];
     complexFilter :=
       [ {| filter := "scale"; options := [("w", "-2"); ("h", "1920")];
            f_inputs := ["0:v"]; outputs := "bgScaled" |};
         {| filter := "crop";
            options := [("w", "1080"); ("h", "1920");
                        ("x", "(in_w-1080)/2"); ("y", "0")];
            f_inputs := ["bgScaled"]; outputs := "bg" |};
         {| filter := "scale"; options := [("w", "900"); ("h", "-1")];
            f_inputs := ["1:v"]; outputs := "ssScaled" |};
         {| filter := "colorchannelmixer"; options := [("aa", "0.9")];
            f_inputs := ["ssScaled"]; outputs := "ss" |};
         {| filter := "overlay";
            options := [("x", "(W-w)/2"); ("y", "(H-h)/2")];
            f_inputs := ["bg"; "ss"]; outputs := "v" |} ]%string;
     outputOptions :=
       [ Str "-map"; Str "[v]"; Str "-map"; Str "2:a";
         Str "-t"; Num audioDuration;
         Str "-c:v"; Str "libx264"; Str "-pix_fmt"; Str "yuv420p";
         Str "-c:a"; Str "aac" ];
     cmd_output := outputPath |}.

(** ** Files

    A media file is kept as its play time, in seconds, as a probe of the
    file reports it. *)

Inductive file :=
| Media (duration : Q)
| Image
| Text (content : jsstring).

Definition Qltb (a b : Q) : bool :=
  match (a ?= b)%Q with Lt => true | _ => false end.

(** *** Reading a command

    What a command asks of the encoder, read from its output options: the
    streams it maps into the output, and the [-t] limit on the play time of
    the output. *)

(** A [-map] target: a filter output in brackets, or an input stream. *)
Definition unbracket (s : string) : string :=
  match s with
  | String "["%char r => String.substring 0 (String.length r - 1) r
  | _ => s
  end.

Fixpoint mapped (opts : list arg) : list string :=
  match opts with
  | Str "-map" :: Str target :: opts' => unbracket target :: mapped opts'
  | _ :: opts' => mapped opts'
  | [] => []
  end.

Fixpoint limit_of (opts : list arg) : option Q :=
  match opts with
  | Str "-t" :: Num t :: _ => Some t
  | _ :: opts' => limit_of opts'
  | [] => None
  end.

(** ** The world: artifact store, title cache, external calls

    The store maps the path of a file to the file.  Directories and the
    console are left out: [ensureDir] only creates directories and every
    presence test of the program is on a file.  A call that fails leaves no
    partial output behind, except the narration stream, whose chunks are
    appended as they arrive. *)

Inductive request :=
| Shorten (title : jsstring)
| Correct (text : jsstring)
| Describe (title postText : jsstring).

(** What the narration service does with a request: the call rejects, or it
    yields a stream whose chunks (each with its play time) arrive before the
    stream ends or reports an error. *)
Inductive speech :=
| SpeechRejects
| SpeechStream (chunks : list Q) (ends : bool).

Record card := {
  card_sub : jsstring;
  card_author : jsstring;
  card_title : jsstring;
  card_content : jsstring;
  card_ups : Z;
  card_comments : Z
}.

(** The calls to external collaborators, in the order they are made. *)
Inductive event :=
| Fetch (subreddit sort : jsstring)
| Completion (r : request)
| Speech (text : jsstring)
| Render (c : card) (path : jsstring)
| Probe (path : jsstring)
| Encode (c : command)
| Segmenter (input : jsstring) (segmentDuration : Q)
| Concat (list : jsstring)
| Upload (path : jsstring) (clip : option file)
         (title description : jsstring) (accepted : bool).

(** The collaborators' answers.  The first argument is the number of
    external calls made before, so an answer may change from call to call.
    For an encoder run, [ffmpeg] says whether it ends without an error and
    [encoded] how long the file it writes plays: the program fixes the
    command, not what the encoder makes of it. *)
Record env := {
  reddit : nat → jsstring → jsstring → option (list post);
  openai : nat → request → option jsstring;
  playht : nat → jsstring → speech;
  puppeteer : nat → card → bool;
  ffprobe : nat → jsstring → bool;
  ffmpeg : nat → command → bool;
  encoded : nat → command → Q;
  ffmpeg_segment : nat → jsstring → Q → option (list Q);
  ffmpeg_concat : nat → jsstring → bool;
  youtube : nat → jsstring → jsstring → bool
}.

Record world := {
  fs : gmap jsstring file;
  shortTitleCache : gmap jsstring jsstring;
  trace : list event
}.

Inductive error :=
| SpeechStreamError | RenderError | ProbeError | EncodeError | UploadError
| SegmenterError | ConcatError
| Unsettled.      (* the promise is never settled *)

(** An awaited computation: it returns, or it rejects. *)
Inductive outcome (A : Type) :=
| Returns (a : A)
| Rejects (e : error).
Arguments Returns {A} a.
Arguments Rejects {A} e.

Definition M (A : Type) : Type := world → outcome A * world.

Definition ret {A} (a : A) : M A := λ w, (Returns a, w).

Definition bind {A B} (m : M A) (k : A → M B) : M B :=
  λ w, match m w with
       | (Returns a, w') => k a w'
       | (Rejects e, w') => (Rejects e, w')
       end.

Definition throw {A} (e : error) : M A := λ w, (Rejects e, w).

(** [try { await m; return true } catch { return false }]. *)
Definition catch {A} (m : M A) : M (option A) :=
  λ w, match m w with
       | (Returns a, w') => (Returns (Some a), w')
       | (Rejects _, w') => (Returns None, w')
       end.

Declare Scope pipeline_scope.
Delimit Scope pipeline_scope with pipeline.
Notation "'let*' x ':=' m 'in' k" := (bind m (λ x, k))
  (at level 10, x pattern, m at level 100, k at level 200) : pipeline_scope.
Open Scope pipeline_scope.

Definition get {A} (f : world → A) : M A := λ w, (Returns (f w), w).

Definition clock (w : world) : nat := length (trace w).

Definition emit (e : event) : M unit :=
  λ w, (Returns (), {| fs := fs w; shortTitleCache := shortTitleCache w;
                       trace := trace w ++ [e] |}).

Definition existsSync (path : jsstring) : M bool :=
  get (λ w, bool_decide (is_Some (fs w !! path))).

Definition writeFile (path : jsstring) (f : file) : M unit :=
  λ w, (Returns (), {| fs := <[path := f]> (fs w);
                       shortTitleCache := shortTitleCache w;
                       trace := trace w |}).

(** [fs.appendFileSync(path, chunk)] on an audio file. *)
Definition appendFileSync (path : jsstring) (chunk : Q) : M unit :=
  λ w, match fs w !! path with
       | Some (Media d) => writeFile path (Media (d + chunk)%Q) w
       | _ => writeFile path (Media chunk) w
       end.

Fixpoint for_each {A} (f : A → M unit) (l : list A) : M unit :=
  match l with
  | [] => ret ()
  | a :: l' => let* _ := f a in for_each f l'
  end.

Definition unlinkSync (path : jsstring) : M unit :=
  λ w, (Returns (), {| fs := delete path (fs w);
                       shortTitleCache := shortTitleCache w;
                       trace := trace w |}).

Definition renameSync (old new : jsstring) : M unit :=
  λ w, match fs w !! old with
       | Some f =>
           (Returns (), {| fs := <[new := f]> (delete old (fs w));
                           shortTitleCache := shortTitleCache w;
                           trace := trace w |})
       | None => (Returns (), w)
       end.

(** ** The pipeline of [index.js] *)

Section Pipeline.

Variable E : env.

(** A text-completion request: the answer, or [None] when the call throws. *)
Definition complete (r : request) : M (option jsstring) :=
  let* t := get clock in
  let* _ := emit (Completion r) in
  ret (openai E t r).

Definition shortenTitle (title : jsstring) : M jsstring :=
  let* r := complete (Shorten title) in
  match r with
  | Some output_text => ret output_text
  | None => ret title
  end.

(** The cache is read as a map from titles to short titles, and an empty
    short title counts as none.  The source reads a plain object, which
    answers a title that names a member of [Object.prototype] with that
    member when it has no entry of its own; the map has no such members,
    so the statements that the difference matters to leave those titles
    out (they are listed as [prototype_keys] further down). *)
Definition getShortTitle (postTitle : jsstring) : M jsstring :=
  let* cached := get (λ w, shortTitleCache w !! postTitle) in
  match cached with
  | Some (c :: s) => ret (c :: s)
  | _ =>
      let* shortTitle := shortenTitle postTitle in
      let* _ :=
        (λ w, (Returns (),
               {| fs := fs w;
                  shortTitleCache := <[postTitle := shortTitle]> (shortTitleCache w);
                  trace := trace w |})) in
      ret shortTitle
  end.

Definition correctText (text : jsstring) : M jsstring :=
  let* r := complete (Correct text) in
  match r with
  | Some output_text => ret output_text
  | None => ret text
  end.

Definition generateSegmentSpeech
    (segmentText shortTitle subredditFolder : jsstring) (segmentIndex : nat)
    : M (option jsstring) :=
  let audioFilePath := audioPath subredditFolder shortTitle segmentIndex in
  let* present := existsSync audioFilePath in
  if present then ret (Some audioFilePath)
  else
    let* t := get clock in
    let* _ := emit (Speech segmentText) in
    match playht E t segmentText with
    | SpeechRejects => ret None
    | SpeechStream chunks ends =>
        let* _ := for_each (appendFileSync audioFilePath) chunks in
        if ends then ret (Some audioFilePath) else throw SpeechStreamError
    end.

Definition generateScreenshot (p : post)
    (shortTitle subredditFolder customContent : jsstring)
    (segmentIndex : option nat) : M jsstring :=
  let sub :=
    match subreddit_name_prefixed p with [] => js "unknown" | s => s end in
  let author := match author p with [] => js "unknown" | s => s end in
  let* content :=
    match customContent with
    | _ :: _ => ret customContent
    | [] =>
        let* corrected := correctText (selftext p) in
        ret (match corrected with [] => js "[No text content]" | s => s end)
    end in
  let htmlContent :=
    {| card_sub := sub; card_author := author; card_title := title p;
       card_content := content; card_ups := ups p;
       card_comments := num_comments p |} in
  let screenshotPath := screenshotPath subredditFolder shortTitle segmentIndex in
  let* present := existsSync screenshotPath in
  if present then ret screenshotPath
  else
    let* t := get clock in
    let* _ := emit (Render htmlContent screenshotPath) in
    if puppeteer E t htmlContent then
      let* _ := writeFile screenshotPath Image in
      ret screenshotPath
    else throw RenderError.

Definition generateDescription
    (title postText subredditFolder shortTitle : jsstring) : M jsstring :=
  let* r := complete (Describe title postText) in
  match r with
  | Some description =>
      let* _ := writeFile (descriptionPath subredditFolder shortTitle)
                          (Text description) in
      ret description
  | None => ret []
  end.

Definition getAudioDuration (filePath : jsstring) : M Q :=
  let* t := get clock in
  let* _ := emit (Probe filePath) in
  let* f := get (λ w, fs w !! filePath) in
  match f with
  | Some (Media d) => if ffprobe E t filePath then ret d else throw ProbeError
  | _ => throw ProbeError
  end.

Definition createVideo
    (backgroundPath audioPath screenshotPath outputPath : jsstring)
    : M jsstring :=
  let* audioDuration := getAudioDuration audioPath in
  let c := video_command backgroundPath audioPath screenshotPath outputPath
             audioDuration in
  let* t := get clock in
  let* _ := emit (Encode c) in
  let* files := get fs in
  if ffmpeg E t c
     && forallb (λ i, bool_decide (is_Some (files !! in_path i))) (cmd_inputs c)
  then
    let* _ := writeFile outputPath (Media (encoded E t c)) in
    ret outputPath
  else throw EncodeError.

Definition uploadToYouTube (videoPath title : jsstring) : M unit :=
  let* descriptionFile :=
    get (λ w, fs w !! description_of_video videoPath) in
  let description :=
    match descriptionFile with Some (Text d) => d | _ => [] end in
  let* clip := get (λ w, fs w !! videoPath) in
  let* t := get clock in
  let accepted := bool_decide (is_Some clip) && youtube E t title description in
  let* _ := emit (Upload videoPath clip title description accepted) in
  if accepted then ret () else throw UploadError.

Definition hashtags : jsstring :=
  js " #relationshipadvice #shorts #trending #viral".

(** One turn of the loop over the segments; a [continue] ends the turn. *)
Definition process_segment (p : post) (subredditFolder shortTitle : jsstring)
    (segments_length : nat) (segmentText : jsstring) (segmentIndex : nat)
    : M unit :=
  let* audio :=
    generateSegmentSpeech segmentText shortTitle subredditFolder segmentIndex in
  match audio with
  | None => ret ()
  | Some audioPath =>
      let* screenshotPath :=
        generateScreenshot p shortTitle subredditFolder segmentText
                           (Some segmentIndex) in
      let outputVideoPath := videoPath subredditFolder shortTitle segmentIndex in
      let* present := existsSync outputVideoPath in
      let* made :=
        if present then ret (Some outputVideoPath)
        else catch (createVideo backgroundVideoPath audioPath screenshotPath
                                outputVideoPath) in
      match made with
      | None => ret ()
      | Some _ =>
          let* _ :=
            catch (uploadToYouTube outputVideoPath
                     (shortTitle ++ js " "
                      ++ (if 1 <? segments_length
                          then js "- Part " ++ decimal segmentIndex else [])
                      ++ hashtags)) in
          ret ()
      end
  end.

(** [for (let i = 0; i < segments.length; i++)], the turn for [segments[i]]
    having [segmentIndex = i + 1]. *)
Fixpoint process_segments (p : post) (subredditFolder shortTitle : jsstring)
    (segments_length : nat) (i : nat) (rest : list jsstring) : M unit :=
  match rest with
  | [] => ret ()
  | segmentText :: rest' =>
      let* _ := process_segment p subredditFolder shortTitle segments_length
                                segmentText (i + 1) in
      process_segments p subredditFolder shortTitle segments_length (i + 1) rest'
  end.

(** The segments of a corrected text. *)
Definition segments_of (correctedText : jsstring) : list jsstring :=
  let totalWords := length (split_ws correctedText) in
  if 400 <? totalWords then splitTextIntoSegments correctedText 150
  else [correctedText].

(** The part of [processPost] before the loop, for an accepted post: the
    short title and the segments. *)
Definition prepare_post (p : post) (subredditFolder : jsstring)
    : M (jsstring * list jsstring) :=
  let combinedText := title p ++ js "

" ++ selftext p in
  let* correctedText := correctText combinedText in
  let* shortTitle := getShortTitle (title p) in
  let segments := segments_of correctedText in
  let* _ := generateDescription (title p) (selftext p) subredditFolder
                                shortTitle in
  ret (shortTitle, segments).

Definition processPost (p : post) (subredditFolder : jsstring) : M unit :=
  match post_gate p with
  | Accept =>
      let* prepared := prepare_post p subredditFolder in
      let '(shortTitle, segments) := prepared in
      process_segments p subredditFolder shortTitle (length segments) 0 segments
  | _ => ret ()
  end.

Definition fetchRedditPosts (subreddit sort : jsstring) : M (list post) :=
  let* t := get clock in
  let* _ := emit (Fetch subreddit sort) in
  match reddit E t subreddit sort with
  | Some posts => ret posts
  | None => ret []
  end.

Definition subreddits : list (jsstring * jsstring) :=
  [ (js "AmItheAsshole", js "top.json?t=all");
    (js "relationshipadvice", js "top.json?t=all");
    (js "relationship_advice", js "top.json?t=month") ].

Definition processSubreddits : M unit :=
  for_each
    (λ '(subredditFolder, sort),
       let* posts := fetchRedditPosts subredditFolder sort in
       for_each (λ p, processPost p subredditFolder) posts)
    subreddits.

End Pipeline.

(** ** SegmentSplitter/Rebalancer: [splitVideo] *)

Definition is_digit (c : N) : bool := ((48 <=? c) && (c <=? 57))%N.

Fixpoint digits_of (s : jsstring) : jsstring * jsstring :=
  match s with
  | c :: s' =>
      if is_digit c then let '(ds, r) := digits_of s' in (c :: ds, r)
      else ([], s)
  | [] => ([], [])
  end.

(** [parseInt] of a run of decimal digits, as the integer the run denotes.
    In JavaScript the result is the Number nearest to that integer, which
    is the integer itself up to [max_exact]; what is stated of the value
    read is stated for such runs. *)
Definition max_exact : Z := 2 ^ 53.

Definition parseInt (ds : jsstring) : nat :=
  fold_left (λ n c, 10 * n + N.to_nat (c - 48)) ds 0.

(** [/segment_(\d+)\.mp4/] tried at the start of [s]: the number captured. *)
Definition segment_number_here (s : jsstring) : option nat :=
  if starts_with (js "segment_") s then
    let '(ds, r) := digits_of (drop 8 s) in
    match ds with
    | _ :: _ => if starts_with (js ".mp4") r then Some (parseInt ds) else None
    | [] => None
    end
  else None.

(** [parseInt(name.match(/segment_(\d+)\.mp4/)[1])]; [None] when there is no
    match, where the source throws. *)
Fixpoint segment_number (name : jsstring) : option nat :=
  match segment_number_here name with
  | Some n => Some n
  | None =>
      match name with
      | [] => None
      | _ :: name' => segment_number name'
      end
  end.

(** A name whose number, if it has one, is read exactly. *)
Definition exact_number (name : jsstring) : Prop :=
  ∀ n, segment_number name = Some n → (Z.of_nat n ≤ max_exact)%Z.

Definition ends_with (s p : jsstring) : bool :=
  starts_with (reverse p) (reverse s).

(** The entries of the working directory that the filter keeps, in the
    order the store lists them ([readdirSync] promises no order). *)
Definition segment_files (files : gmap jsstring file) : list jsstring :=
  List.filter
    (λ name, negb (includes name (js "/"))
             && starts_with (js "segment_") name && ends_with name (js ".mp4"))
    (map_to_list files).*1.

Fixpoint insert_sorted (x : nat * jsstring) (l : list (nat * jsstring))
    : list (nat * jsstring) :=
  match l with
  | [] => [x]
  | y :: l' => if x.1 <=? y.1 then x :: l else y :: insert_sorted x l'
  end.

(** [segments.sort((a, b) => aNum - bNum)]: a stable sort on the numbers.
    The comparator throws on a name without a number; it runs as soon as
    there are two names. *)
Definition sort_segments (names : list jsstring) : option (list jsstring) :=
  match names with
  | [] | [_] => Some names
  | _ =>
      numbered ← mapM (λ name, n ← segment_number name; Some (n, name)) names;
      Some (foldr insert_sorted [] numbered).*2
  end.

Definition segment_name (n : nat) : jsstring :=
  js "segment_" ++ decimal n ++ js ".mp4".

Definition concat_list_of (prevSegment lastSegment : jsstring) : jsstring :=
  js "file '" ++ prevSegment ++ js "'
file '" ++ lastSegment ++ js "'
".

Section Splitter.

Variable E : env.

(** The segment muxer writes its chunks as segment_0.mp4, segment_1.mp4, ... *)
Fixpoint write_chunks (n : nat) (durations : list Q) : M unit :=
  match durations with
  | [] => ret ()
  | d :: durations' =>
      let* _ := writeFile (segment_name n) (Media d) in
      write_chunks (S n) durations'
  end.

(** [ffmpeg -f concat -safe 0 -i concat_list.txt -c copy merged_last.mp4]:
    on success the copy lasts as long as its two parts together. *)
Definition concat_last (prevSegment lastSegment : jsstring) : M unit :=
  let* t := get clock in
  let list := concat_list_of prevSegment lastSegment in
  let* _ := emit (Concat list) in
  let* files := get fs in
  match files !! prevSegment, files !! lastSegment with
  | Some (Media d1), Some (Media d2) =>
      if ffmpeg_concat E t list
      then writeFile (js "merged_last.mp4") (Media (d1 + d2)%Q)
      else throw ConcatError
  | _, _ => throw ConcatError
  end.

(** The body of the ["end"] handler after the sort. *)
Definition rebalance (segments : list jsstring) : M (list jsstring) :=
  if 1 <? length segments then
    match last segments, segments !! (length segments - 2) with
    | Some lastSegment, Some prevSegment =>
        let* probed := catch (getAudioDuration E lastSegment) in
        let lastDuration := match probed with Some d => d | None => 0%Q end in
        if Qltb lastDuration 30 then
          let* _ := writeFile (js "concat_list.txt")
                      (Text (concat_list_of prevSegment lastSegment)) in
          let* merged := catch (concat_last prevSegment lastSegment) in
          match merged with
          | Some _ =>
              let* _ := unlinkSync prevSegment in
              let* _ := unlinkSync lastSegment in
              let* _ := renameSync (js "merged_last.mp4") prevSegment in
              let* _ := unlinkSync (js "concat_list.txt") in
              ret (removelast segments)
          | None => ret segments
          end
        else ret segments
    | _, _ => ret segments
    end
  else ret segments.

Definition splitVideo (inputPath : jsstring) (segmentDuration : Q)
    : M (list jsstring) :=
  let* t := get clock in
  let* _ := emit (Segmenter inputPath segmentDuration) in
  let* input := get (λ w, fs w !! inputPath) in
  match input, ffmpeg_segment E t inputPath segmentDuration with
  | Some (Media _), Some durations =>
      let* _ := write_chunks 0 durations in
      let* files := get fs in
      match sort_segments (segment_files files) with
      | Some segments => rebalance segments
      | None => throw Unsettled
      end
  | _, _ => throw SegmenterError
  end.

End Splitter.

(** ** Inputs used in the examples *)

(** [n] copies of a word, separated by single spaces. *)
Definition words (n : nat) (w : jsstring) : jsstring := join sp (replicate n w).

(** A post of 452 words in all, 450 of them in the body; every body word
    ends a sentence. *)
Definition story : post :=
  {| title := js "My story"; selftext := words 450 (js "ok.");
     author := js "narrator"; subreddit_name_prefixed := js "r/AmItheAsshole";
     ups := 1200; num_comments := 85 |}.

Definition short_story : post :=
  {| title := js "A question"; selftext := js "Was I wrong? Tell me.";
     author := js "asker"; subreddit_name_prefixed := js "r/AmItheAsshole";
     ups := 7; num_comments := 3 |}.

(** A body of 601 words: a first line, then 600 words on the next line. *)
Definition long_body : jsstring := js "Hello
" ++ words 600 (js "w").

Definition long_post : post :=
  {| title := js "A long one"; selftext := long_body;
     author := js "writer"; subreddit_name_prefixed := js "r/AmItheAsshole";
     ups := 10; num_comments := 4 |}.

(** Collaborators: completions always throw (so texts and titles are used
    as they are), everything else succeeds, and the encoder writes a file
    that plays as long as the [-t] limit of its command; the narration
    service, the probe and the concat command are as given. *)
Definition studio (narration : speech) (probe_ok concat_ok : bool)
    (cut : option (list Q)) : env :=
  {| reddit := λ _ sub _,
       if bool_decide (sub = js "AmItheAsshole")
       then Some [story; short_story] else Some [];
     openai := λ _ _, None;
     playht := λ _ _, narration;
     puppeteer := λ _ _, true;
     ffprobe := λ _ _, probe_ok;
     ffmpeg := λ _ _, true;
     encoded := λ _ c, default 0%Q (limit_of (outputOptions c));
     ffmpeg_segment := λ _ _ _, cut;
     ffmpeg_concat := λ _ _, concat_ok;
     youtube := λ _ _ _, true |}.

(** The play time of a file of whole video frames, [fps] to the second,
    that covers [t] seconds. *)
Definition whole_frames (fps : positive) (t : Q) : Q :=
  Qceiling (t * inject_Z (Z.pos fps)) # fps.

(** The collaborators [E], with an encoder that writes whole frames, 25 to
    the second. *)
Definition framed (E : env) : env :=
  {| reddit := reddit E; openai := openai E; playht := playht E;
     puppeteer := puppeteer E; ffprobe := ffprobe E; ffmpeg := ffmpeg E;
     encoded := λ _ c, whole_frames 25 (default 0%Q (limit_of (outputOptions c)));
     ffmpeg_segment := ffmpeg_segment E; ffmpeg_concat := ffmpeg_concat E;
     youtube := youtube E |}.

(** A store that holds only the background video (ten minutes) and a
    rendered video of 205 seconds in the working directory. *)
Definition fresh : world :=
  {| fs := {[ backgroundVideoPath := Media 600; js "long.mp4" := Media 205 ]};
     shortTitleCache := ∅;
     trace := [] |}.

Definition is_upload (e : event) : bool :=
  match e with Upload _ _ _ _ _ => true | _ => false end.

(** Calls of the splitter/rebalancer. *)
Definition is_split (e : event) : bool :=
  match e with Segmenter _ _ | Concat _ => true | _ => false end.

(** A call that neither publishes nor splits. *)
Definition quiet (e : event) : Prop := is_upload e = false ∧ is_split e = false.

(** Calls that produce a per-segment artifact. *)
Definition is_generation (e : event) : bool :=
  match e with
  | Speech _ | Render _ _ | Probe _ | Encode _ => true
  | _ => false
  end.

(** The play times of the clips that the publisher accepted. *)
Definition published (events : list event) : list Q :=
  omap (λ e, match e with
             | Upload _ (Some (Media d)) _ _ true => Some d
             | _ => None
             end) events.

(** Whether every segment [1..n] has its three artifacts in the store. *)
Definition artifacts_present (files : gmap jsstring file)
    (subredditFolder shortTitle : jsstring) (n : nat) : bool :=
  forallb (λ i,
      bool_decide (is_Some (files !! audioPath subredditFolder shortTitle i))
      && bool_decide
           (is_Some (files !! screenshotPath subredditFolder shortTitle (Some i)))
      && bool_decide (is_Some (files !! videoPath subredditFolder shortTitle i)))
    (seq 1 n).

(** The files found under a list of names. *)
Definition files_of (w : world) (names : list jsstring) : list (option file) :=
  (λ name, fs w !! name) <$> names.

(** A name that the filter of [splitVideo] keeps begins so. *)
Definition chunk_name (name : jsstring) : Prop :=
  starts_with (js "segment_") name = true.

(** The store [fresh] after a cut into chunks of the given play times. *)
Definition chunked (durations : list Q) : world :=
  (write_chunks 0 durations fresh).2.

(** *** The specification's sentences, as written *)

(** "Re-running the pipeline over an unchanged post with every per-segment
    artifact already present makes zero new external calls for that post's
    completed segments; neither the description generator nor the publisher
    is invoked again." *)
Definition rerun_is_silent : Prop :=
  ∀ E p folder w st segs w1,
    post_gate p = Accept →
    prepare_post E p folder w = (Returns (st, segs), w1) →
    artifacts_present (fs w) folder st (length segs) = true →
    Forall (λ e, is_generation e = false ∧ is_upload e = false
                 ∧ ∀ t x, e ≠ Completion (Describe t x))
      (drop (length (trace w)) (trace (processPost E p folder w).2)).

(** "Every published clip's duration is at most the configured maximum." *)
Definition published_capped (maximum : Q) : Prop :=
  ∀ E p folder w,
    Forall (λ d, (d <= maximum)%Q)
      (published (drop (length (trace w)) (trace (processPost E p folder w).2))).

(** "Every published clip except possibly the first has duration at least
    the configured minimum." *)
Definition published_floored (minimum : Q) : Prop :=
  ∀ E p folder w,
    Forall (λ d, (minimum <= d)%Q)
      (tail (published (drop (length (trace w))
                          (trace (processPost E p folder w).2)))).

(** "For every composition, the output clip's duration equals the probed
    narration-audio duration exactly." *)
Definition output_lasts_as_narration : Prop :=
  ∀ E bg audio shot out w d w',
    fs w !! audio = Some (Media d) →
    createVideo E bg audio shot out w = (Returns out, w') →
    ∃ d', fs w' !! out = Some (Media d') ∧ (d' == d)%Q.

(** The store after a first, complete run over [short_story]. *)
Definition after_first_run : world :=
  (processPost (studio (SpeechStream [10; 20.5]%Q true) true true None)
     short_story (js "AmItheAsshole") fresh).2.

(** A store with a background of [b] seconds, a narration of [d] seconds
    and a caption image, for the first segment of a post. *)
Definition stage (b d : Q) : world :=
  {| fs := {[ backgroundVideoPath := Media b;
              audioPath (js "AmItheAsshole") (js "A question") 1 := Media d;
              screenshotPath (js "AmItheAsshole") (js "A question") (Some 1)
                := Image ]};
     shortTitleCache := ∅;
     trace := [] |}.

(** ** Predicates used in the statements *)

(** A closed chunk of the word-list segmenter. *)
Definition closed_chunk (m : Z) (k : list jsstring) : Prop :=
  k ≠ [] ∧ (m ≤ Z.of_nat (length k))%Z.

(** What a step may do to the world: add events, and change files only at
    one path. *)
Definition step (w w' : world) (touched : jsstring) (evs : list event) : Prop :=
  trace w' = trace w ++ evs
  ∧ ∀ q, q ≠ touched → fs w' !! q = fs w !! q.

Definition turn_paths (folder st : jsstring) (i : nat) : list jsstring :=
  [audioPath folder st i; screenshotPath folder st (Some i); videoPath folder st i].

(** An upload of a turn: the segment's video as the store holds it, which
    is the file found there, or the file the encoder wrote in the turn. *)
Definition uploads_render (folder st : jsstring) (i : nat)
    (before after : gmap jsstring file) (e : event) : Prop :=
  match e with
  | Upload path clip _ _ _ =>
      path = videoPath folder st i
      ∧ is_Some clip
      ∧ clip = after !! path
      ∧ (is_Some (before !! path) → clip = before !! path)
      ∧ (before !! path = None → ∃ dur, clip = Some (Media dur))
  | _ => True
  end.

Definition present_from (files : gmap jsstring file) (folder st : jsstring)
    (i0 k : nat) : Prop :=
  ∀ i, i0 < i ≤ i0 + k →
    is_Some (files !! audioPath folder st i)
    ∧ is_Some (files !! screenshotPath folder st (Some i))
    ∧ is_Some (files !! videoPath folder st i).


(** A chunk of words whose last word ends a sentence. *)
Definition sentence_chunk (k : list jsstring) : Prop :=
  ∃ word, last k = Some word ∧ ends_sentence word = true.

(** The characters of a sanitized title: lower-case letters, digits and the
    underscore. *)
Definition is_slug_unit (c : N) : bool :=
  ((48 <=? c) && (c <=? 57) || (97 <=? c) && (c <=? 122) || (c =? underscore))%N.

(** An underscore is never followed by another one. *)
Fixpoint single_underscores (s : jsstring) : Prop :=
  match s with
  | [] => True
  | c :: s' => (c = underscore → head s' ≠ Some underscore) ∧ single_underscores s'
  end.

(** The cache is a plain JS object: read with a key that names a member of
    [Object.prototype], it answers with that member when it has no entry
    of its own.  The map of the model has no such members, so the
    statements about the cache are for the other keys. *)
Definition prototype_keys : list jsstring :=
  js <$> [ "constructor"; "hasOwnProperty"; "isPrototypeOf";
           "propertyIsEnumerable"; "toLocaleString"; "toString"; "valueOf";
           "__defineGetter__"; "__defineSetter__"; "__lookupGetter__";
           "__lookupSetter__"; "__proto__" ]%string.

(** Collaborators as in [studio], but the caption renderer always fails. *)
Definition broken_renderer : env :=
  {| reddit := λ _ _ _, None; openai := λ _ _, None;
     playht := λ _ _, SpeechRejects; puppeteer := λ _ _, false;
     ffprobe := λ _ _, true; ffmpeg := λ _ _, true; 
     encoded := λ _ c, default 0%Q (limit_of (outputOptions c));
     ffmpeg_segment := λ _ _ _, None; ffmpeg_concat := λ _ _, true;
     youtube := λ _ _ _, true |}.

(** A store that holds only the narration of the first segment. *)
Definition narrated : world :=
  {| fs := {[ audioPath (js "AmItheAsshole") (js "A question") 1 := Media 42 ]};
     shortTitleCache := ∅; trace := [] |}.

(** The description that [uploadToYouTube] reads for a video of the post:
    the text of the post's description file, or the empty string. *)
Definition stored_description (files : gmap jsstring file)
    (folder st : jsstring) : jsstring :=
  match files !! descriptionPath folder st with Some (Text d) => d | _ => [] end.

(** The title [processPost] gives the upload of segment [i] of [n]. *)
Definition part_title (st : jsstring) (n i : nat) : jsstring :=
  st ++ js " " ++ (if 1 <? n then js "- Part " ++ decimal i else []) ++ hashtags.

(** The upload of segment [i] of [n]. *)
Definition upload_of (folder st : jsstring) (n : nat) (descr : jsstring)
    (i : nat) (e : event) : Prop :=
  ∃ clip ok, e = Upload (videoPath folder st i) clip (part_title st n i) descr ok.

Definition carries (descr : jsstring) (e : event) : Prop :=
  match e with Upload _ _ _ d _ => d = descr | _ => True end.


Definition cacheFilePath : jsstring := js "./shortTitleCache.json".

(** The files of the store that a run leaves alone: any file there is, but
    for the description files, which are written again on every run, and
    the file the title cache is saved to (the embedding keeps the cache in
    [shortTitleCache], not in the store). *)
Definition kept (w w' : world) : Prop :=
  ∀ q f, fs w !! q = Some f →
         q ≠ cacheFilePath →
         (∀ folder st, q ≠ descriptionPath folder st) →
         fs w' !! q = Some f.

(** ** The titles of [uploadAllVideos] *)

(** The code units that [.] of a regular expression does not match. *)
Definition is_line_terminator (c : N) : bool :=
  ((c =? 10) || (c =? 13) || (c =? 8232) || (c =? 8233))%N.

(** [/.*part/] tried at the start of [s]: what follows the match.  The
    star is greedy, so of the matches that start here the longest is
    taken. *)
Fixpoint after_dot_star_part (s : jsstring) : option jsstring :=
  match s with
  | [] => None
  | c :: s' =>
      match (if is_line_terminator c then None else after_dot_star_part s') with
      | Some r => Some r
      | None => if starts_with (js "part") s then Some (drop 4 s) else None
      end
  end.

(** [s.replace(/.*part/, "")]: the leftmost match is taken out. *)
Fixpoint remove_dot_star_part (s : jsstring) : jsstring :=
  match after_dot_star_part s with
  | Some r => r
  | None =>
      match s with
      | [] => []
      | c :: s' => c :: remove_dot_star_part s'
      end
  end.

(** The index of the last ["."] of [s]. *)
Fixpoint last_dot (s : jsstring) : option nat :=
  match s with
  | [] => None
  | c :: s' =>
      match last_dot s' with
      | Some i => Some (S i)
      | None => if (c =? 46)%N then Some 0 else None
      end
  end.

(** [path.parse(base).name] for a directory entry: the entry without its
    extension.  The extension starts at the last dot, unless that dot is
    the first character or the entry is [".."]. *)
Definition parse_name (base : jsstring) : jsstring :=
  match last_dot base with
  | Some (S i) => if bool_decide (base = js "..") then base else take (S i) base
  | _ => base
  end.

(** The title [uploadAllVideos] gives to the upload of [videoFile]. *)
Definition video_title (subredditFolder title videoFile : jsstring) : jsstring :=
  js "r/" ++ subredditFolder ++ js " - " ++ title ++ js " - Part "
  ++ List.filter (λ c, negb (c =? underscore)%N)
       (remove_dot_star_part (parse_name videoFile)).

(** The name of the video of segment [i], inside its directory. *)
Definition video_file (shortTitle : jsstring) (segmentIndex : nat) : jsstring :=
  js "video_" ++ sanitizeTitle shortTitle ++ js "_part" ++ decimal segmentIndex
  ++ js ".mp4".
(** * Properties *)

(** ** Splitting and joining *)

Lemma split_ws_nonempty s : split_ws s ≠ [].
Proof.
  induction s as [|c s IH]; simpl; [done|].
  destruct (is_ws c).
  - destruct s as [|c' s']; [done|]. destruct (is_ws c'); [exact IH | done].
  - destruct (split_ws s); done.
Qed.

Lemma split_ws_token t s :
  ws_free t →
  split_ws (t ++ s) =
    match split_ws s with hd :: tl => (t ++ hd) :: tl | [] => [t] end.
Proof.
  induction 1 as [|c t Hc _ IH]; simpl.
  - destruct (split_ws s) eqn:E; [by destruct (split_ws_nonempty s)|done].
  - rewrite Hc, IH. by destruct (split_ws s).
Qed.

Lemma split_ws_after_space s :
  split_ws (sp ++ s) =
    match s with
    | [] => [[]; []]
    | c :: _ => if is_ws c then split_ws s else [] :: split_ws s
    end.
Proof. reflexivity. Qed.

Lemma join_cons t t' ts : join sp (t :: t' :: ts) = t ++ sp ++ join sp (t' :: ts).
Proof. reflexivity. Qed.

Lemma join_sp_app l1 l2 :
  l1 ≠ [] → l2 ≠ [] → join sp (l1 ++ l2) = join sp l1 ++ sp ++ join sp l2.
Proof.
  intros H1 H2. induction l1 as [|t l1 IH]; [done|].
  destruct l1 as [|t' l1].
  - destruct l2; [done|]. reflexivity.
  - change ((t :: t' :: l1) ++ l2) with (t :: t' :: (l1 ++ l2)).
    rewrite !join_cons.
    change (t' :: l1 ++ l2) with ((t' :: l1) ++ l2).
    rewrite IH by done. by rewrite <- !app_assoc.
Qed.

Lemma tail_ok_app_l a b : tail_ok (a ++ b) → tail_ok a.
Proof.
  induction a as [|t a IH]; simpl; [done|].
  intros [H1 H2]. split; [|auto].
  intros Ha. apply H1. by destruct a.
Qed.

Lemma tail_ok_app_r a b : tail_ok (a ++ b) → tail_ok b.
Proof. induction a as [|t a IH]; simpl; [done|]. intros [_ H]. auto. Qed.

Lemma tail_ok_tail a : tail_ok a → tail_ok (tail a).
Proof. destruct a; simpl; [done|]. by intros [_ H]. Qed.

Lemma tokens_ok_app a b : tokens_ok (a ++ b) → tokens_ok a ∧ tokens_ok b.
Proof.
  intros [HF HT]. apply Forall_app in HF as [Ha Hb].
  destruct a as [|t a]; simpl in *.
  - repeat split; auto.
  - repeat split; auto.
    + eapply tail_ok_app_l; eauto.
    + apply tail_ok_tail. eapply tail_ok_app_r; eauto.
Qed.

Lemma tokens_ok_concat chunks :
  tokens_ok (concat chunks) → Forall tokens_ok chunks.
Proof.
  induction chunks as [|c chunks IH]; simpl; [constructor|].
  intros H. apply tokens_ok_app in H as [H1 H2]. constructor; auto.
Qed.

(** Splitting undoes joining on well-formed word lists. *)
Lemma split_ws_join ts : ts ≠ [] → tokens_ok ts → split_ws (join sp ts) = ts.
Proof.
  intros Hne [HF HT]. induction ts as [|t ts IH]; [done|].
  apply Forall_cons in HF as [Ht HF]. simpl in HT.
  destruct ts as [|t' ts].
  - simpl. rewrite <- (app_nil_r t) at 1. rewrite split_ws_token by done.
    simpl. by rewrite app_nil_r.
  - rewrite join_cons, split_ws_token, split_ws_after_space by done.
    destruct HT as [Hin HT].
    specialize (IH ltac:(done) HF HT).
    destruct t' as [|c t'].
    + destruct ts as [|t'' ts]; [|by destruct Hin].
      simpl. by rewrite app_nil_r.
    + apply Forall_cons in HF as [Ht' _]. apply Forall_cons in Ht' as [Hc _].
      assert (∃ r, join sp ((c :: t') :: ts) = c :: r) as [r Hj]
        by (destruct ts; simpl; eauto).
      rewrite Hj in IH |- *. rewrite Hc, IH. by rewrite app_nil_r.
Qed.

Lemma tail_ok_split_ws s :
  Forall ws_free (split_ws s) ∧ tail_ok (tail (split_ws s))
  ∧ (∀ c s', s = c :: s' → is_ws c = false → tail_ok (split_ws s)).
Proof.
  induction s as [|c s IH].
  - split; [|split]; [by repeat constructor | done | done].
  - destruct IH as (HF & HT & Hhd). simpl.
    destruct (is_ws c) eqn:Hc.
    + destruct s as [|c' s'].
      * split; [|split]; [by repeat constructor | by simpl |].
        intros ?? [= -> _]; congruence.
      * destruct (is_ws c') eqn:Hc'.
        -- split; [|split]; [done | done | intros ?? [= -> _]; congruence].
        -- split; [|split];
             [constructor; [constructor | done] | by eapply Hhd |].
           intros ?? [= -> _]; congruence.
    + destruct (split_ws s) as [|t ts] eqn:E; [by destruct (split_ws_nonempty s)|].
      apply Forall_cons in HF as [Ht HF]. simpl in HT.
      split; [|split]; [constructor; [by constructor | done] | done |].
      intros _ _ _ _. simpl. split; [done|].
      destruct ts; [done|]. apply HT.
Qed.

Lemma tokens_ok_split_ws s : tokens_ok (split_ws s).
Proof. split; apply tail_ok_split_ws. Qed.

(** ** The segmenter is the word-list segmenter, joined *)

Lemma scan_chunks m words chunks cur :
  fold_left (segment_step m) words (join sp <$> chunks, cur) =
    (let '(c, r) := fold_left (chunk_step m) words (chunks, cur) in
     (join sp <$> c, r)).
Proof.
  revert chunks cur. induction words as [|w words IH]; intros chunks cur; [done|].
  simpl. destruct (_ && _).
  - rewrite <- IH. by rewrite fmap_app.
  - by rewrite <- IH.
Qed.

Lemma chunk_fold_concat m words chunks cur :
  let '(c, r) := fold_left (chunk_step m) words (chunks, cur) in
  concat c ++ r = concat chunks ++ cur ++ words.
Proof.
  revert chunks cur. induction words as [|w words IH]; intros chunks cur; simpl.
  - by rewrite app_nil_r.
  - destruct (_ && _).
    + specialize (IH (chunks ++ [cur ++ [w]]) []).
      destruct (fold_left _ _ _) as [c r]. rewrite IH, concat_app. simpl.
      by rewrite !app_nil_r, <- !app_assoc.
    + specialize (IH chunks (cur ++ [w])).
      destruct (fold_left _ _ _) as [c r]. rewrite IH. by rewrite <- !app_assoc.
Qed.

Lemma chunk_fold_closed m words chunks cur :
  Forall (closed_chunk m) chunks →
  Forall (closed_chunk m) (fold_left (chunk_step m) words (chunks, cur)).1.
Proof.
  revert chunks cur. induction words as [|w words IH]; intros chunks cur H; [done|].
  simpl. destruct (_ && _) eqn:E; apply IH; [|done].
  apply andb_prop in E as [E _]. apply Z.leb_le in E.
  apply Forall_app. split; [done|]. constructor; [|done].
  split; [by destruct cur | done].
Qed.

Lemma chunk_fold_short m words chunks cur :
  (Z.of_nat (length cur + length words) < m)%Z →
  fold_left (chunk_step m) words (chunks, cur) = (chunks, cur ++ words).
Proof.
  revert cur. induction words as [|w words IH]; intros cur H; simpl.
  - by rewrite app_nil_r.
  - simpl in H. destruct (Z.leb_spec m (Z.of_nat (length (cur ++ [w])))) as [Hle|_].
    + rewrite length_app in Hle. simpl in Hle. lia.
    + simpl. rewrite IH, <- app_assoc; [done|].
      rewrite length_app. simpl. lia.
Qed.

Lemma alter_last {A} (f : A → A) init k :
  alter f (length (init ++ [k]) - 1) (init ++ [k]) = init ++ [f k].
Proof.
  rewrite length_app. simpl.
  replace (length init + 1 - 1) with (length init + 0) by lia.
  by rewrite alter_app_r.
Qed.

Lemma flush_chunks m chunks cur :
  Forall (λ k, k ≠ []) chunks →
  segment_flush m (join sp <$> chunks, cur) =
    join sp <$> chunk_flush m (chunks, cur).
Proof.
  intros Hne. unfold segment_flush, chunk_flush. rewrite length_fmap.
  case_bool_decide as Hcur; [|done].
  destruct (_ && _); [|by rewrite fmap_app].
  symmetry. apply list_fmap_alter.
  eapply Forall_impl; [exact Hne|]. intros k Hk. simpl.
  apply join_sp_app; [done|]. by destruct cur.
Qed.

Lemma segments_chunks text m :
  splitTextIntoSegments text m = join sp <$> chunks_of m (split_ws text).
Proof.
  unfold splitTextIntoSegments, segment_scan, chunks_of.
  pose proof (scan_chunks m (split_ws text) [] []) as H. simpl in H. rewrite H.
  pose proof (chunk_fold_closed m (split_ws text) [] [] ltac:(constructor)) as Hc.
  destruct (fold_left (chunk_step m) _ _) as [c r]. apply flush_chunks.
  eapply Forall_impl; [exact Hc|]. by intros k [? _].
Qed.

Lemma chunk_flush_cases m chunks cur :
  let out := chunk_flush m (chunks, cur) in
  (cur = [] ∧ out = chunks)
  ∨ (cur ≠ [] ∧ (chunks = [] ∨ (m ≤ Z.of_nat (length cur))%Z)
     ∧ out = chunks ++ [cur])
  ∨ (cur ≠ [] ∧ (Z.of_nat (length cur) < m)%Z
     ∧ ∃ init k, chunks = init ++ [k] ∧ out = init ++ [k ++ cur]).
Proof.
  unfold chunk_flush. case_bool_decide as Hcur.
  - assert (cur ≠ []) by (by destruct cur).
    case_bool_decide as Hch; simpl.
    + destruct (Z.ltb_spec (Z.of_nat (length cur)) m).
      * right; right. split; [done|]. split; [done|].
        destruct (exists_last (l:=chunks)) as (init & k & ->); [by destruct chunks|].
        exists init, k. split; [done|]. exact (alter_last (λ c, c ++ cur) init k).
      * right; left. auto.
    + right; left. split; [done|]. split; [|done].
      left. destruct chunks; [done|]. simpl in Hch. lia.
  - left. split; [|done]. destruct cur; [done|]. simpl in Hcur. lia.
Qed.

Lemma chunks_of_concat m words : concat (chunks_of m words) = words.
Proof.
  unfold chunks_of. pose proof (chunk_fold_concat m words [] []) as H.
  destruct (fold_left _ _ _) as [c r]. simpl in H.
  destruct (chunk_flush_cases m c r) as
    [[-> ->]|[(_ & _ & ->)|(_ & _ & init & k & -> & ->)]].
  - by rewrite app_nil_r in H.
  - rewrite concat_app. simpl. by rewrite app_nil_r.
  - rewrite concat_app in *. simpl in *. rewrite app_nil_r in *.
    by rewrite <- app_assoc in H.
Qed.

Lemma chunks_of_nonempty m words : Forall (λ k, k ≠ []) (chunks_of m words).
Proof.
  unfold chunks_of.
  pose proof (chunk_fold_closed m words [] [] ltac:(constructor)) as Hc.
  destruct (fold_left _ _ _) as [c r]. simpl in Hc.
  assert (Forall (λ k, k ≠ []) c) as Hne
    by (eapply Forall_impl; [exact Hc|]; by intros k [? _]).
  destruct (chunk_flush_cases m c r) as
    [[-> ->]|[(Hr & _ & ->)|(Hr & _ & init & k & -> & ->)]]; [done| |].
  - apply Forall_app. split; [done|]. by constructor.
  - apply Forall_app in Hne as [Hi Hk]. apply Forall_app. split; [done|].
    constructor; [|done]. by destruct k.
Qed.

Lemma chunks_of_min m words i k :
  chunks_of m words !! i = Some k →
  i + 1 < length (chunks_of m words) →
  (m ≤ Z.of_nat (length k))%Z.
Proof.
  unfold chunks_of.
  pose proof (chunk_fold_closed m words [] [] ltac:(constructor)) as Hc.
  destruct (fold_left _ _ _) as [c r]. simpl in Hc.
  destruct (chunk_flush_cases m c r) as
    [[-> ->]|[(Hr & _ & ->)|(Hr & _ & init & k' & -> & ->)]].
  - intros Hk _. by apply (Forall_lookup_1 _ _ _ _ Hc Hk).
  - rewrite length_app. simpl. intros Hk Hi.
    rewrite lookup_app_l in Hk by lia. by apply (Forall_lookup_1 _ _ _ _ Hc Hk).
  - rewrite length_app. simpl. intros Hk Hi.
    rewrite lookup_app_l in Hk by lia.
    apply Forall_app in Hc as [Hc _]. by apply (Forall_lookup_1 _ _ _ _ Hc Hk).
Qed.

Lemma word_count_join k : k ≠ [] → tokens_ok k → word_count (join sp k) = length k.
Proof. intros. unfold word_count. by rewrite split_ws_join. Qed.

Lemma sum_length_concat (chunks : list (list jsstring)) :
  sum_list_with length chunks = length (concat chunks).
Proof. induction chunks; simpl; [done|]. rewrite length_app. lia. Qed.

Lemma join_concat chunks :
  Forall (λ k, k ≠ []) chunks →
  join sp (join sp <$> chunks) = join sp (concat chunks).
Proof.
  induction 1 as [|k chunks Hk Hne IH]; [done|].
  destruct Hne as [|k' chunks Hk' Hne].
  - simpl. by rewrite app_nil_r.
  - change (join sp <$> k :: k' :: chunks)
      with (join sp k :: join sp k' :: (join sp <$> chunks)).
    rewrite join_cons. change (join sp k' :: _) with (join sp <$> k' :: chunks).
    rewrite IH. change (concat (k :: k' :: chunks)) with (k ++ concat (k' :: chunks)).
    rewrite (join_sp_app k); [done | done | by destruct k'].
Qed.

Lemma segments_join text m :
  join sp (splitTextIntoSegments text m) = normalize_ws text.
Proof.
  rewrite segments_chunks, join_concat by apply chunks_of_nonempty.
  by rewrite chunks_of_concat.
Qed.

Lemma segments_nonempty text m : splitTextIntoSegments text m ≠ [].
Proof.
  rewrite segments_chunks. intros H. apply fmap_nil_inv in H.
  pose proof (chunks_of_concat m (split_ws text)) as Hc. rewrite H in Hc.
  by apply (split_ws_nonempty text).
Qed.

(** C4. For every text and every minimum [m], the word counts of the
    segments returned by [splitTextIntoSegments text m] add up to the word
    count of the text, and every segment but the last has at least [m]
    words (words counted as the program counts them, by [split(/\s+/)]). *)
Theorem segments_word_count (text : jsstring) (m : Z) :
  let segs := splitTextIntoSegments text m in
  sum_list_with word_count segs = word_count text
  ∧ ∀ i s, segs !! i = Some s → i + 1 < length segs →
      (m ≤ Z.of_nat (word_count s))%Z.
Proof.
  simpl. rewrite segments_chunks.
  pose proof (chunks_of_nonempty m (split_ws text)) as Hne.
  pose proof (tokens_ok_concat (chunks_of m (split_ws text))) as Hok.
  rewrite chunks_of_concat in Hok. specialize (Hok (tokens_ok_split_ws text)).
  split.
  - unfold word_count at 2. rewrite <- (chunks_of_concat m (split_ws text)) at 2.
    rewrite <- sum_length_concat.
    induction Hne as [|k chunks Hk Hne IH]; [done|].
    apply Forall_cons in Hok as [Hok1 Hok2]. simpl.
    rewrite word_count_join by done. f_equal. by apply IH.
  - intros i s Hs Hi. rewrite length_fmap in Hi.
    rewrite list_lookup_fmap in Hs.
    destruct (chunks_of m (split_ws text) !! i) as [k|] eqn:Hk; [|done].
    injection Hs as <-.
    rewrite word_count_join.
    + by eapply chunks_of_min.
    + by apply (Forall_lookup_1 _ _ _ _ Hne Hk).
    + by apply (Forall_lookup_1 _ _ _ _ Hok Hk).
Qed.

Lemma normalize_ws_idem text : normalize_ws (normalize_ws text) = normalize_ws text.
Proof.
  unfold normalize_ws.
  by rewrite split_ws_join by (apply split_ws_nonempty || apply tokens_ok_split_ws).
Qed.

(** C5. For every nonempty text and every minimum [m], the segments joined
    with single spaces are the text up to white-space normalization, and
    there is at least one segment. *)
Theorem segments_reproduce_text (text : jsstring) (m : Z) :
  text ≠ [] →
  normalize_ws (join sp (splitTextIntoSegments text m)) = normalize_ws text
  ∧ 1 ≤ length (splitTextIntoSegments text m).
Proof.
  intros _. split.
  - by rewrite segments_join, normalize_ws_idem.
  - pose proof (segments_nonempty text m).
    destruct (splitTextIntoSegments text m); [done | simpl; lia].
Qed.

Lemma segments_reproduce_text_witness :
  js "It  was late.
We left. " ≠ []
  ∧ normalize_ws (join sp (splitTextIntoSegments (js "It  was late.
We left. ") 3))
    = normalize_ws (js "It  was late.
We left. ")
  ∧ 1 ≤ length (splitTextIntoSegments (js "It  was late.
We left. ") 3).
Proof.
  split; [done|]. apply (segments_reproduce_text (js "It  was late.
We left. ") 3). done.
Defined.

(** C6. After the loop of [splitTextIntoSegments], with [segments] the
    segments already emitted and [rest] the remaining buffer: an empty
    buffer adds nothing; a buffer of fewer than [m] words, when a segment
    was emitted, is appended to the last emitted segment; any other buffer
    becomes the final segment.  A text of fewer than [m] words gives exactly
    one segment, holding all its words. *)
Theorem segment_remainder (text : jsstring) (m : Z) :
  let out := splitTextIntoSegments text m in
  let st := segment_scan m (split_ws text) in
  (st.2 = [] → out = st.1)
  ∧ (st.2 ≠ [] → st.1 = [] ∨ (m ≤ Z.of_nat (length st.2))%Z →
     out = st.1 ++ [join sp st.2])
  ∧ (st.2 ≠ [] → (Z.of_nat (length st.2) < m)%Z →
     ∀ init lst, st.1 = init ++ [lst] →
     out = init ++ [lst ++ sp ++ join sp st.2])
  ∧ ((Z.of_nat (word_count text) < m)%Z → out = [normalize_ws text]).
Proof.
  simpl. unfold splitTextIntoSegments.
  split; [|split; [|split]].
  - destruct (segment_scan _ _) as [segs rest]. simpl. by intros ->.
  - destruct (segment_scan _ _) as [segs rest]. simpl. intros Hr Hc.
    unfold segment_flush. rewrite bool_decide_true by (by destruct rest).
    destruct Hc as [->|Hc]; [done|].
    destruct (Z.ltb_spec (Z.of_nat (length rest)) m); [lia|].
    by rewrite andb_false_r.
  - destruct (segment_scan _ _) as [segs rest]. simpl. intros Hr Hc init lst ->.
    unfold segment_flush. rewrite bool_decide_true by (by destruct rest).
    rewrite bool_decide_true by (rewrite length_app; simpl; lia).
    destruct (Z.ltb_spec (Z.of_nat (length rest)) m); [|lia]. simpl.
    exact (alter_last (λ s, s ++ sp ++ join sp rest) init lst).
  - intros Hm. unfold segment_scan.
    pose proof (scan_chunks m (split_ws text) [] []) as H. simpl in H. rewrite H.
    rewrite chunk_fold_short by (simpl; unfold word_count in Hm; lia).
    pose proof (split_ws_nonempty text).
    simpl. unfold segment_flush. rewrite bool_decide_true by (by destruct (split_ws text)).
    done.
Qed.

(** *** Words of a trimmed text

    For a text that neither starts nor ends with white space, the pieces of
    [split_ws] are its words in the usual sense: none of them is empty. *)

Lemma split_ws_cons c s :
  split_ws (c :: s) =
    if is_ws c then
      match s with
      | [] => [[]; []]
      | c' :: _ => if is_ws c' then split_ws s else [] :: split_ws s
      end
    else
      match split_ws s with
      | t :: ts => (c :: t) :: ts
      | [] => [[c]]
      end.
Proof. reflexivity. Qed.

Lemma split_ws_last_piece s c :
  last s = Some c → is_ws c = false →
  ∀ t, last (split_ws s) = Some t → t ≠ [].
Proof.
  revert c. induction s as [|a s IH]; intros c Hl Hc t Ht; [done|].
  destruct s as [|a' s'].
  - injection Hl as ->. simpl in Ht. rewrite Hc in Ht. by injection Ht as <-.
  - rewrite last_cons_cons in Hl. specialize (IH c Hl Hc).
    rewrite split_ws_cons in Ht.
    pose proof (split_ws_nonempty (a' :: s')) as Hne.
    destruct (is_ws a).
    + destruct (is_ws a'); [by apply IH|].
      destruct (split_ws (a' :: s')) as [|x xs]; [done|].
      rewrite last_cons_cons in Ht. by apply IH.
    + destruct (split_ws (a' :: s')) as [|x [|y ys]]; [done| |].
      * by injection Ht as <-.
      * rewrite last_cons_cons in Ht. apply IH. by rewrite last_cons_cons.
Qed.

Lemma tail_ok_all ts :
  tail_ok ts → (∀ t, last ts = Some t → t ≠ []) → Forall (λ t, t ≠ []) ts.
Proof.
  induction ts as [|t ts IH]; [constructor|].
  intros [Hin Hok] Hlast. destruct ts as [|t' ts].
  - constructor; [by apply Hlast | constructor].
  - constructor; [by apply Hin|]. apply IH; [done|].
    intros x Hx. apply Hlast. by rewrite last_cons_cons.
Qed.

Lemma split_ws_words c s :
  is_ws c = false →
  (∀ c', last (c :: s) = Some c' → is_ws c' = false) →
  Forall (λ t, t ≠ []) (split_ws (c :: s)).
Proof.
  intros Hc Hl.
  destruct (tail_ok_split_ws (c :: s)) as (_ & _ & Hok).
  apply tail_ok_all; [by eapply Hok|].
  destruct (last (c :: s)) as [c'|] eqn:E.
  - by apply (split_ws_last_piece _ c'); [|apply Hl].
  - by apply last_None in E.
Qed.

(** ** The gate of [processPost] *)

Lemma gate_precedes_assets E p folder w :
  post_gate p ≠ Accept → processPost E p folder w = (Returns (), w).
Proof. unfold processPost. by destruct (post_gate p). Qed.

Lemma update_is_skipped p :
  includes (toLowerCase (title p)) (js "update") = true
  ∨ includes (toLowerCase (selftext p)) (js "update") = true →
  post_gate p = SkipUpdate.
Proof. unfold post_gate. by intros [-> | ->]; rewrite ?orb_true_r. Qed.

(** C7. The length test of the gate counts the pieces between single
    spaces, not the words: [long_body] has 601 words, by the count
    [processPost] itself uses further down, yet only 600 pieces, so the
    post passes the gate and is processed. *)
Theorem long_body_passes_gate :
  word_count long_body = 601
  ∧ length (split_unit 32 long_body) = 600
  ∧ post_gate long_post = Accept
  ∧ (processPost (studio SpeechRejects true true None) long_post
       (js "AmItheAsshole") fresh).2.(trace) ≠ [].
Proof. vm_compute. repeat split; done. Qed.

(** Where the two counts agree: on a body whose only white space is single
    spaces, never two in a row, the pieces between spaces are the words. *)
Lemma single_spaced_pieces s :
  (∀ c, c ∈ s → is_ws c = true → c = 32%N) →
  (∀ i, s !! i = Some 32%N → s !! S i ≠ Some 32%N) →
  split_unit 32 s = split_ws s.
Proof.
  induction s as [|c s IH]; intros Hws Hdouble; [done|].
  assert (split_unit 32 s = split_ws s) as IH'.
  { apply IH.
    - intros c' Hc'. apply Hws. by right.
    - intros i Hi. by apply (Hdouble (S i)). }
  rewrite split_ws_cons. simpl. rewrite IH'.
  destruct (N.eqb_spec c 32) as [->|Hc].
  - change (is_ws 32) with true. cbv iota.
    destruct s as [|c' s']; [done|].
    destruct (is_ws c') eqn:Hc'; [|done].
    assert (c' = 32%N) as -> by (apply Hws; [right; left | done]).
    by destruct (Hdouble 0).
  - destruct (is_ws c) eqn:Hw; [|done].
    destruct Hc. apply Hws; [left | done].
Qed.

(** ** The compositor *)

Lemma getAudioDuration_ok E path w d :
  fs w !! path = Some (Media d) → ffprobe E (clock w) path = true →
  getAudioDuration E path w =
    (Returns d, {| fs := fs w; shortTitleCache := shortTitleCache w;
                   trace := trace w ++ [Probe path] |}).
Proof.
  intros Hf Hp. unfold getAudioDuration, bind, get, emit. simpl.
  by rewrite Hf, Hp.
Qed.

(** The run of [createVideo] once the narration is probed: one encoder
    call with the command for the probed play time, and on success the
    file the encoder wrote. *)
Lemma createVideo_run E bg audio shot out w d :
  fs w !! audio = Some (Media d) →
  ffprobe E (clock w) audio = true →
  let c := video_command bg audio shot out d in
  let called := {| fs := fs w; shortTitleCache := shortTitleCache w;
                   trace := trace w ++ [Probe audio; Encode c] |} in
  createVideo E bg audio shot out w =
    if ffmpeg E (S (clock w)) c
       && bool_decide (is_Some (fs w !! bg)) && bool_decide (is_Some (fs w !! shot))
    then (Returns out,
          {| fs := <[out := Media (encoded E (S (clock w)) c)]> (fs w);
             shortTitleCache := shortTitleCache w;
             trace := trace w ++ [Probe audio; Encode c] |})
    else (Rejects EncodeError, called).
Proof.
  intros Ha Hp. unfold createVideo, bind.
  rewrite (getAudioDuration_ok E audio w d Ha Hp).
  unfold get, emit, clock. simpl. rewrite length_app, Nat.add_1_r. simpl.
  rewrite Ha, (bool_decide_true (is_Some (Some _))) by done.
  rewrite !andb_true_r, <- !andb_assoc, <- app_assoc.
  by destruct (_ && _).
Qed.

(** C9, as the code has it.  [createVideo] probes the narration audio and
    then makes one encoder run, with a command that carries [-t] with
    exactly the probed play time and maps, besides the overlaid picture,
    the narration (its third input) as the only sound; the command is the
    same whatever the play time of the background.  When the run succeeds
    on inputs that are there, [createVideo] returns the output path, and
    the file under it is what the encoder wrote: nothing in [createVideo]
    looks at its play time. *)
Theorem createVideo_trims_to_narration E bg audio shot out w d :
  fs w !! audio = Some (Media d) →
  ffprobe E (clock w) audio = true →
  let c := video_command bg audio shot out d in
  limit_of (outputOptions c) = Some d
  ∧ mapped (outputOptions c) = ["v"; "2:a"]%string
  ∧ (in_path <$> cmd_inputs c) !! 2 = Some audio
  ∧ ∃ r w',
      createVideo E bg audio shot out w = (r, w')
      ∧ trace w' = trace w ++ [Probe audio; Encode c]
      ∧ (r = Returns out ∨ r = Rejects EncodeError)
      ∧ (ffmpeg E (S (clock w)) c = true →
         is_Some (fs w !! bg) → is_Some (fs w !! shot) →
         r = Returns out
         ∧ fs w' !! out = Some (Media (encoded E (S (clock w)) c))).
Proof.
  intros Ha Hp c. split; [done|]. split; [done|]. split; [done|].
  rewrite (createVideo_run E bg audio shot out w d Ha Hp). fold c.
  destruct (ffmpeg E (S (clock w)) c) eqn:He;
    [destruct (decide (is_Some (fs w !! bg))) as [Hb|Hb];
     [destruct (decide (is_Some (fs w !! shot))) as [Hs|Hs]|]|].
  - rewrite !bool_decide_true by done. do 2 eexists.
    split; [reflexivity|]. split; [done|]. split; [by left|].
    intros _ _ _. split; [done|]. simpl. by rewrite lookup_insert_eq.
  - rewrite (bool_decide_false (is_Some (fs w !! shot))), andb_false_r by done.
    do 2 eexists. split; [reflexivity|]. split; [done|]. split; [by right|].
    by intros _ _ ?.
  - rewrite (bool_decide_false (is_Some (fs w !! bg))) by done. simpl.
    do 2 eexists. split; [reflexivity|]. split; [done|]. split; [by right|].
    by intros _ ?.
  - simpl. do 2 eexists. split; [reflexivity|]. split; [done|].
    split; [by right | done].
Qed.

(** ** The splitter/rebalancer *)

Lemma last_two {A} (init : list A) (a b : A) :
  last (init ++ [a; b]) = Some b
  ∧ (init ++ [a; b]) !! (length (init ++ [a; b]) - 2) = Some a
  ∧ removelast (init ++ [a; b]) = init ++ [a]
  ∧ (1 <? length (init ++ [a; b])) = true.
Proof.
  change [a; b] with ([a] ++ [b]).
  split; [|split; [|split]].
  - by rewrite (assoc_L (++) init [a] [b]), last_snoc.
  - rewrite length_app. simpl.
    replace (length init + 2 - 2) with (length init + 0) by lia.
    by rewrite lookup_app_r, Nat.add_0_r, Nat.sub_diag by lia.
  - rewrite (assoc_L (++) init [a] [b]). apply removelast_last.
  - rewrite length_app. simpl. apply Nat.ltb_lt. lia.
Qed.

Lemma chunk_name_not_transient name :
  chunk_name name → name ≠ js "concat_list.txt" ∧ name ≠ js "merged_last.mp4".
Proof. unfold chunk_name. split; intros ->; vm_compute in H; discriminate. Qed.

(** The probe inside [rebalance] never rejects: a failure counts as 0. *)
Lemma probe_or_zero E path w :
  ∃ d, catch (getAudioDuration E path) w =
         (Returns d, {| fs := fs w; shortTitleCache := shortTitleCache w;
                        trace := trace w ++ [Probe path] |})
       ∧ match d with
         | Some d => fs w !! path = Some (Media d) ∧ ffprobe E (clock w) path = true
         | None => ffprobe E (clock w) path = false
                   ∨ ∀ d, fs w !! path ≠ Some (Media d)
         end.
Proof.
  unfold catch, getAudioDuration, bind, get, emit. simpl.
  destruct (fs w !! path) as [[d| |]|] eqn:Hf;
    try (exists None; split; [done | right; congruence]).
  destruct (ffprobe E (clock w) path) eqn:Hp.
  - by exists (Some d).
  - exists None. auto.
Qed.

Lemma rebalance_merge E w init prev lst dp dl :
  chunk_name prev → chunk_name lst → prev ≠ lst →
  fs w !! prev = Some (Media dp) → fs w !! lst = Some (Media dl) →
  (Qltb dl 30 = true ∨ ffprobe E (clock w) lst = false) →
  ffmpeg_concat E (S (clock w)) (concat_list_of prev lst) = true →
  ∃ w', rebalance E (init ++ [prev; lst]) w = (Returns (init ++ [prev]), w')
    ∧ trace w' = trace w ++ [Probe lst; Concat (concat_list_of prev lst)]
    ∧ fs w' !! prev = Some (Media (dp + dl)%Q)
    ∧ fs w' !! lst = None
    ∧ ∀ name, name ≠ prev → name ≠ lst → name ≠ js "concat_list.txt" →
        name ≠ js "merged_last.mp4" → fs w' !! name = fs w !! name.
Proof.
  intros Hcp Hcl Hne Hp Hl Hshort Hconcat.
  destruct (chunk_name_not_transient _ Hcp) as [Hp1 Hp2].
  destruct (chunk_name_not_transient _ Hcl) as [Hl1 Hl2].
  destruct (last_two init prev lst) as (Hlast & Hprev & Hpop & Hlen).
  unfold rebalance. rewrite Hlen, Hlast, Hprev. unfold bind at 1.
  destruct (probe_or_zero E lst w) as (d & -> & Hd).
  assert (Qltb (match d with Some d => d | None => 0%Q end) 30 = true) as ->.
  { destruct d as [d|]; [|done]. destruct Hd as [Hd Hok].
    rewrite Hl in Hd. injection Hd as <-. destruct Hshort; congruence. }
  unfold bind, catch, concat_last, bind, get, emit, writeFile, unlinkSync,
    renameSync, clock. simpl.
  rewrite length_app, Nat.add_1_r. simpl.
  rewrite !lookup_insert_ne by done. rewrite Hp, Hl.
  unfold clock in Hconcat. rewrite Hconcat. simpl.
  rewrite !lookup_delete_ne, lookup_insert_eq by done. simpl.
  eexists. split; [by rewrite Hpop|]. simpl.
  split; [by rewrite <- app_assoc|].
  split; [by rewrite lookup_delete_ne, lookup_insert_eq by done|].
  split.
  - by rewrite lookup_delete_ne, lookup_insert_ne, lookup_delete_ne,
      lookup_delete_eq by done.
  - intros name H1 H2 H3 H4.
    by rewrite lookup_delete_ne, lookup_insert_ne, !lookup_delete_ne,
      !lookup_insert_ne by done.
Qed.

Lemma rebalance_keep E w init prev lst dl :
  fs w !! lst = Some (Media dl) →
  ffprobe E (clock w) lst = true →
  Qltb dl 30 = false →
  rebalance E (init ++ [prev; lst]) w =
    (Returns (init ++ [prev; lst]),
     {| fs := fs w; shortTitleCache := shortTitleCache w;
        trace := trace w ++ [Probe lst] |}).
Proof.
  intros Hl Hok Hlong.
  destruct (last_two init prev lst) as (Hlast & Hprev & Hpop & Hlen).
  unfold rebalance. rewrite Hlen, Hlast, Hprev. unfold bind at 1.
  destruct (probe_or_zero E lst w) as (d & -> & Hd).
  destruct d as [d|].
  - destruct Hd as [Hd _]. rewrite Hl in Hd. injection Hd as <-.
    by rewrite Hlong.
  - destruct Hd as [Hd|Hd]; [congruence|]. by destruct (Hd dl).
Qed.

Lemma rebalance_single E w segments :
  length segments ≤ 1 → rebalance E segments w = (Returns segments, w).
Proof.
  intros H. unfold rebalance.
  by destruct (Nat.ltb_spec 1 (length segments)); [lia|].
Qed.

(** When the merge command fails, the list is returned as it was. *)
Lemma rebalance_merge_fails E w init prev lst :
  chunk_name prev → chunk_name lst →
  ffprobe E (clock w) lst = false →
  ffmpeg_concat E (S (clock w)) (concat_list_of prev lst) = false →
  ∃ w', rebalance E (init ++ [prev; lst]) w = (Returns (init ++ [prev; lst]), w')
    ∧ trace w' = trace w ++ [Probe lst; Concat (concat_list_of prev lst)].
Proof.
  intros Hcp Hcl Hprobe Hconcat.
  destruct (last_two init prev lst) as (Hlast & Hprev & Hpop & Hlen).
  unfold rebalance. rewrite Hlen, Hlast, Hprev. unfold bind at 1.
  destruct (probe_or_zero E lst w) as (d & -> & Hd).
  destruct d as [d|]; [destruct Hd; congruence|].
  change (Qltb 0 30) with true. cbv iota.
  unfold bind, catch, concat_last, bind, get, emit, writeFile, clock. simpl.
  rewrite length_app, Nat.add_1_r. simpl.
  unfold clock in Hconcat. rewrite Hconcat. clear Hd.
  destruct (chunk_name_not_transient _ Hcp) as [Hp1 _].
  destruct (chunk_name_not_transient _ Hcl) as [Hl1 _].
  rewrite !lookup_insert_ne by done.
  destruct (fs w !! prev) as [[]|]; destruct (fs w !! lst) as [[]|]; simpl;
    (eexists; split; [reflexivity | simpl; by rewrite <- app_assoc]).
Qed.

(** C8. With more than one chunk after the cut: a final chunk shorter than
    30 seconds is concatenated onto the one before it and dropped, so one
    chunk fewer is returned (given that the concat command succeeds); a
    final chunk probed at 30 seconds or more leaves the list as it is.  A
    single chunk is returned without probe or merge.  So chunks of
    [60,60,60,25] come out as [60,60,85], [60,60,60,45] stay four, and a lone
    chunk of 10 seconds is returned as it is. *)
Theorem rebalance_short_tail :
  (∀ E w init prev lst dp dl,
     chunk_name prev → chunk_name lst → prev ≠ lst →
     fs w !! prev = Some (Media dp) → fs w !! lst = Some (Media dl) →
     Qltb dl 30 = true →
     ffmpeg_concat E (S (clock w)) (concat_list_of prev lst) = true →
     ∃ w', rebalance E (init ++ [prev; lst]) w = (Returns (init ++ [prev]), w')
       ∧ length (init ++ [prev]) = length (init ++ [prev; lst]) - 1
       ∧ fs w' !! prev = Some (Media (dp + dl)%Q)
       ∧ fs w' !! lst = None
       ∧ ∀ name, name ∈ init → name ≠ prev → name ≠ lst →
           chunk_name name → fs w' !! name = fs w !! name)
  ∧ (∀ E w init prev lst dl,
       fs w !! lst = Some (Media dl) → ffprobe E (clock w) lst = true →
       Qltb dl 30 = false →
       ∃ w', rebalance E (init ++ [prev; lst]) w
             = (Returns (init ++ [prev; lst]), w')
         ∧ fs w' = fs w)
  ∧ (∀ E w segment, rebalance E [segment] w = (Returns [segment], w))
  ∧ (let run := splitVideo (studio SpeechRejects true true
                              (Some [60; 60; 60; 25]%Q)) (js "long.mp4") 60 fresh in
     run.1 = Returns (segment_name <$> [0; 1; 2])
     ∧ files_of run.2 (segment_name <$> [0; 1; 2; 3])
       = [Some (Media 60); Some (Media 60); Some (Media 85); None])
  ∧ (let run := splitVideo (studio SpeechRejects true true
                              (Some [60; 60; 60; 45]%Q)) (js "long.mp4") 60 fresh in
     run.1 = Returns (segment_name <$> [0; 1; 2; 3])
     ∧ files_of run.2 (segment_name <$> [0; 1; 2; 3])
       = [Some (Media 60); Some (Media 60); Some (Media 60); Some (Media 45)])
  ∧ (let run := splitVideo (studio SpeechRejects true true
                              (Some [10%Q])) (js "long.mp4") 60 fresh in
     run.1 = Returns [segment_name 0]
     ∧ files_of run.2 [segment_name 0] = [Some (Media 10)]
     ∧ trace run.2 = [Segmenter (js "long.mp4") 60]).
Proof.
  split; [|split; [|split; [|split; [|split]]]].
  - intros E w init prev lst dp dl Hcp Hcl Hne Hp Hl Hshort Hconcat.
    destruct (rebalance_merge E w init prev lst dp dl) as (w' & H1 & _ & H2 & H3 & H4);
      auto.
    exists w'. split; [done|]. split; [rewrite !length_app; simpl; lia|].
    split; [done|]. split; [done|].
    intros name _ Hn1 Hn2 Hc.
    destruct (chunk_name_not_transient _ Hc). by apply H4.
  - intros E w init prev lst dl Hl Hok Hlong. eexists.
    split; [by apply rebalance_keep with (dl := dl)|done].
  - intros E w segment. by apply rebalance_single.
  - vm_compute. split; reflexivity.
  - vm_compute. split; reflexivity.
  - vm_compute. repeat split; reflexivity.
Qed.

Lemma rebalance_short_tail_witness :
  ∃ w', rebalance (studio SpeechRejects true true None)
          ([segment_name 0; segment_name 1] ++ [segment_name 2; segment_name 3])
          (chunked [60; 60; 60; 25]%Q)
        = (Returns ([segment_name 0; segment_name 1] ++ [segment_name 2]), w')
    ∧ fs w' !! segment_name 2 = Some (Media (60 + 25)%Q)
    ∧ fs w' !! segment_name 3 = None.
Proof.
  destruct (proj1 rebalance_short_tail (studio SpeechRejects true true None)
              (chunked [60; 60; 60; 25]%Q) [segment_name 0; segment_name 1]
              (segment_name 2) (segment_name 3) 60%Q 25%Q)
    as (w' & H1 & _ & H2 & H3 & _);
    [reflexivity | reflexivity | by vm_compute | reflexivity | reflexivity
    | reflexivity | reflexivity |].
  exists w'. repeat split; assumption.
Defined.

(** C10. With more than one chunk after the cut, a failing probe of the
    final chunk does not make [splitVideo] reject: the duration counts as 0,
    which is below 30, and the merge into the chunk before is attempted
    whatever the chunk really lasts.  So chunks of [60,60,60,45] whose last
    probe fails come out as [60,60,105]. *)
Theorem failed_probe_still_merges :
  (∀ E w init prev lst,
     ffprobe E (clock w) lst = false →
     ∃ segments w',
       rebalance E (init ++ [prev; lst]) w = (Returns segments, w')
       ∧ trace w' = trace w ++ [Probe lst; Concat (concat_list_of prev lst)])
  ∧ (let run := splitVideo (studio SpeechRejects false true
                              (Some [60; 60; 60; 45]%Q)) (js "long.mp4") 60 fresh in
     run.1 = Returns (segment_name <$> [0; 1; 2])
     ∧ files_of run.2 (segment_name <$> [0; 1; 2; 3])
       = [Some (Media 60); Some (Media 60); Some (Media 105); None]
     ∧ trace run.2 =
         [ Segmenter (js "long.mp4") 60; Probe (segment_name 3);
           Concat (concat_list_of (segment_name 2) (segment_name 3)) ]).
Proof.
  split; [|vm_compute; repeat split; reflexivity].
  intros E w init prev lst Hprobe.
  destruct (last_two init prev lst) as (Hlast & Hprev & Hpop & Hlen).
  unfold rebalance. rewrite Hlen, Hlast, Hprev. unfold bind at 1.
  destruct (probe_or_zero E lst w) as (d & -> & Hd).
  destruct d as [d|]; [destruct Hd; congruence|]. clear Hd.
  change (Qltb 0 30) with true. cbv iota.
  unfold bind, catch, concat_last, bind, get, emit, writeFile, unlinkSync,
    renameSync, clock. simpl.
  set (files := <[js "concat_list.txt":=Text (concat_list_of prev lst)]> (fs w)).
  destruct (files !! prev) as [[]|]; destruct (files !! lst) as [[]|]; simpl;
    try (do 2 eexists; split; [reflexivity | simpl; by rewrite <- app_assoc]).
  destruct (ffmpeg_concat _ _ _); simpl;
    [|do 2 eexists; split; [reflexivity | simpl; by rewrite <- app_assoc]].
  match goal with |- context [match ?m !! js "merged_last.mp4" with _ => _ end] =>
    destruct (m !! js "merged_last.mp4") end; simpl;
    (do 2 eexists; split; [reflexivity | simpl; by rewrite <- app_assoc]).
Qed.

Lemma failed_probe_still_merges_witness :
  ∃ segments w',
    rebalance (studio SpeechRejects false true None)
      ([segment_name 0; segment_name 1] ++ [segment_name 2; segment_name 3])
      (chunked [60; 60; 60; 45]%Q) = (Returns segments, w')
    ∧ trace w' = trace (chunked [60; 60; 60; 45]%Q)
        ++ [Probe (segment_name 3);
            Concat (concat_list_of (segment_name 2) (segment_name 3))].
Proof.
  apply (proj1 failed_probe_still_merges (studio SpeechRejects false true None)
           (chunked [60; 60; 60; 45]%Q) [segment_name 0; segment_name 1]
           (segment_name 2) (segment_name 3)).
  reflexivity.
Defined.

(** ** The steps of a turn of the per-segment loop *)

Lemma step_refl w p : step w w p [].
Proof. split; [by rewrite app_nil_r | done]. Qed.

Lemma append_chunks path chunks w :
  ∃ w', for_each (appendFileSync path) chunks w = (Returns (), w')
    ∧ trace w' = trace w
    ∧ (∀ q, q ≠ path → fs w' !! q = fs w !! q)
    ∧ (fs w' !! path = fs w !! path ∨ ∃ d, fs w' !! path = Some (Media d)).
Proof.
  revert w. induction chunks as [|c chunks IH]; intros w.
  - exists w. repeat split; auto.
  - simpl. unfold bind.
    assert (∃ d, appendFileSync path c w =
              (Returns (), {| fs := <[path := Media d]> (fs w);
                              shortTitleCache := shortTitleCache w;
                              trace := trace w |})) as [d ->].
    { unfold appendFileSync, writeFile.
      destruct (fs w !! path) as [[]|]; eauto. }
    destruct (IH {| fs := <[path := Media d]> (fs w);
                    shortTitleCache := shortTitleCache w;
                    trace := trace w |}) as (w' & -> & Ht & Hf & Hd).
    exists w'. split; [done|]. split; [done|]. split.
    + intros q Hq. rewrite Hf by done. simpl. by rewrite lookup_insert_ne.
    + right. destruct Hd as [Hd|Hd]; [|done].
      simpl in Hd. rewrite lookup_insert_eq in Hd. eauto.
Qed.

Lemma speech_step E seg st folder i w :
  let path := audioPath folder st i in
  ∃ r w' evs,
    generateSegmentSpeech E seg st folder i w = (r, w')
    ∧ step w w' path evs
    ∧ Forall quiet evs
    ∧ (∀ a, r = Returns (Some a) → a = path)
    ∧ (is_Some (fs w !! path) → r = Returns (Some path) ∧ w' = w ∧ evs = [])
    ∧ (fs w' !! path = fs w !! path ∨ ∃ d, fs w' !! path = Some (Media d)).
Proof.
  simpl. unfold generateSegmentSpeech, bind, existsSync, get.
  case_bool_decide as Hpresent.
  - exists (Returns (Some (audioPath folder st i))), w, [].
    split; [done|]. split; [apply step_refl|].
    repeat split; auto. by intros a [= <-].
  - simpl. destruct (playht E (clock w) seg) as [|chunks ends].
    + do 3 eexists. split; [reflexivity|]. split; [by split|].
      split; [by repeat constructor|]. repeat split; try done; auto.
    + set (w1 := {| fs := fs w; shortTitleCache := shortTitleCache w;
                    trace := trace w ++ [Speech seg] |}).
      destruct (append_chunks (audioPath folder st i) chunks w1)
        as (w' & -> & Ht & Hf & Hd).
      exists (if ends then Returns (Some (audioPath folder st i))
              else Rejects SpeechStreamError), w', [Speech seg].
      split; [by destruct ends|]. split; [by split|].
      split; [by repeat constructor|].
      split; [destruct ends; [by intros a [= <-] | done]|].
      split; [done|]. done.
Qed.

Lemma complete_step E r w :
  complete E r w =
    (Returns (openai E (clock w) r),
     {| fs := fs w; shortTitleCache := shortTitleCache w;
        trace := trace w ++ [Completion r] |}).
Proof. reflexivity. Qed.

Lemma correctText_step E text w :
  ∃ t, correctText E text w =
         (Returns t, {| fs := fs w; shortTitleCache := shortTitleCache w;
                        trace := trace w ++ [Completion (Correct text)] |}).
Proof.
  unfold correctText, bind. rewrite complete_step.
  destruct (openai _ _ _); eauto.
Qed.

Lemma screenshot_step E p st folder content idx w :
  let path := screenshotPath folder st idx in
  ∃ r w' evs,
    generateScreenshot E p st folder content idx w = (r, w')
    ∧ step w w' path evs
    ∧ Forall quiet evs
    ∧ (∀ x, r = Returns x → x = path ∧ is_Some (fs w' !! path))
    ∧ (is_Some (fs w !! path) →
         r = Returns path ∧ fs w' = fs w
         ∧ Forall (λ e, is_generation e = false) evs).
Proof.
  simpl. unfold generateScreenshot.
  set (path := screenshotPath folder st idx).
  set (sub := match subreddit_name_prefixed p with [] => _ | _ => _ end).
  set (who := match author p with [] => _ | _ => _ end).
  unfold bind at 1.
  assert (∃ c w1 evs1,
            match content with
            | [] => let* corrected := correctText E (selftext p) in
                    ret match corrected with
                        | [] => js "[No text content]"
                        | _ => corrected
                        end
            | _ :: _ => ret content
            end w = (Returns c, w1)
            ∧ fs w1 = fs w ∧ trace w1 = trace w ++ evs1
            ∧ Forall (λ e, quiet e ∧ is_generation e = false) evs1)
    as (c & w1 & evs1 & -> & Hf1 & Ht1 & He1).
  { destruct content as [|c0 content].
    - unfold bind. destruct (correctText_step E (selftext p) w) as [t ->].
      do 3 eexists. split; [reflexivity|]. split; [done|]. split; [done|].
      by repeat constructor.
    - exists (c0 :: content), w, []. by rewrite app_nil_r. }
  unfold bind, existsSync, get. case_bool_decide as Hpresent.
  - exists (Returns path), w1, evs1. rewrite Hf1 in Hpresent.
    split; [done|]. split; [split; [done | by intros; rewrite Hf1]|].
    split; [eapply Forall_impl; [exact He1|]; by intros ? [? _]|].
    split; [intros x [= <-]; by rewrite Hf1|].
    intros _. split; [done|]. split; [done|].
    eapply Forall_impl; [exact He1|]. by intros ? [_ ?].
  - simpl. destruct (puppeteer E (clock w1) _).
    + do 3 eexists. split; [reflexivity|]. unfold step. simpl.
      split; [split; [by rewrite Ht1, <- app_assoc|]|].
      { intros q Hq. by rewrite lookup_insert_ne, Hf1. }
      split.
      { apply Forall_app. split; [|by repeat constructor].
        eapply Forall_impl; [exact He1|]. by intros ? [? _]. }
      split; [intros x [= <-]; by rewrite lookup_insert_eq|].
      intros Hp. rewrite Hf1 in Hpresent. done.
    + do 3 eexists. split; [reflexivity|]. unfold step. simpl.
      split; [split; [by rewrite Ht1, <- app_assoc | by intros; rewrite Hf1]|].
      split.
      { apply Forall_app. split; [|by repeat constructor].
        eapply Forall_impl; [exact He1|]. by intros ? [? _]. }
      split; [done|].
      intros Hp. rewrite Hf1 in Hpresent. done.
Qed.

(** A computation that has rejected after one quiet call. *)
Local Ltac rejected_here :=
  do 3 eexists; split; [reflexivity|]; simpl;
  split; [done|]; split; [by repeat constructor | done].

Lemma createVideo_step E bg audio shot out w :
  ∃ r w' evs,
    createVideo E bg audio shot out w = (r, w')
    ∧ trace w' = trace w ++ evs
    ∧ Forall quiet evs
    ∧ match r with
      | Returns x =>
          x = out ∧ ∃ d, fs w' = <[out := Media d]> (fs w)
      | Rejects _ => fs w' = fs w
      end.
Proof.
  unfold createVideo, bind at 1.
  unfold getAudioDuration, bind, get, emit. simpl.
  destruct (fs w !! audio) as [[d| |]|] eqn:Ha; try rejected_here.
  destruct (ffprobe E (clock w) audio); simpl; [|rejected_here].
  destruct (ffmpeg E _ _ && _) eqn:Hrun; simpl.
  - do 3 eexists. split; [reflexivity|]. simpl.
    split; [by rewrite <- app_assoc|]. split; [by repeat constructor|].
    split; [done|]. by eexists.
  - do 3 eexists. split; [reflexivity|]. simpl.
    split; [by rewrite <- app_assoc|]. split; [by repeat constructor|]. done.
Qed.

Lemma upload_step E path ttl w :
  ∃ r descr ok,
    uploadToYouTube E path ttl w =
      (r, {| fs := fs w; shortTitleCache := shortTitleCache w;
             trace := trace w ++ [Upload path (fs w !! path) ttl descr ok] |}).
Proof.
  unfold uploadToYouTube, bind, get, emit. simpl.
  destruct (_ && _); eauto.
Qed.

(** *** Paths of different artifacts differ *)

Lemma last_suffix (l : jsstring) (suffix : jsstring) c :
  last suffix = Some c → last (l ++ suffix) = Some c.
Proof. intros H. by rewrite last_app, H. Qed.

Lemma audioPath_last folder st i : last (audioPath folder st i) = Some 51%N.
Proof. unfold audioPath. by repeat apply last_suffix. Qed.

Lemma videoPath_last folder st i : last (videoPath folder st i) = Some 52%N.
Proof. unfold videoPath. by repeat apply last_suffix. Qed.

Lemma screenshotPath_last folder st i :
  last (screenshotPath folder st i) = Some 103%N.
Proof. unfold screenshotPath. by repeat apply last_suffix. Qed.

Lemma video_not_audio folder st i j : videoPath folder st i ≠ audioPath folder st j.
Proof.
  intros H. pose proof (videoPath_last folder st i) as Hv.
  rewrite H, audioPath_last in Hv. discriminate.
Qed.

Lemma video_not_screenshot folder st i j :
  videoPath folder st i ≠ screenshotPath folder st j.
Proof.
  intros H. pose proof (videoPath_last folder st i) as Hv.
  rewrite H, screenshotPath_last in Hv. discriminate.
Qed.

Lemma audio_not_screenshot folder st i j :
  audioPath folder st i ≠ screenshotPath folder st j.
Proof.
  intros H. pose proof (audioPath_last folder st i) as Hv.
  rewrite H, screenshotPath_last in Hv. discriminate.
Qed.

Lemma js_inj s1 s2 : js s1 = js s2 → s1 = s2.
Proof.
  unfold js. intros H.
  rewrite <- (string_of_list_ascii_of_string s1),
    <- (string_of_list_ascii_of_string s2). f_equal.
  revert H. generalize (list_ascii_of_string s1) (list_ascii_of_string s2).
  induction l as [|a l IH]; intros [|b l'] H; try done.
  simpl in H. injection H as Hab Hl. f_equal; [|by apply IH].
  by rewrite <- (ascii_N_embedding a), <- (ascii_N_embedding b), Hab.
Qed.

Lemma decimal_inj i j : decimal i = decimal j → i = j.
Proof.
  unfold decimal. intros H. apply js_inj in H.
  assert (Nat.to_uint i = Nat.to_uint j) as Hu.
  { pose proof (NilEmpty.usu (Nat.to_uint i)) as Hi.
    pose proof (NilEmpty.usu (Nat.to_uint j)) as Hj.
    rewrite H in Hi. congruence. }
  by apply DecimalNat.Unsigned.to_uint_inj.
Qed.

Lemma videoPath_inj folder st i j :
  videoPath folder st i = videoPath folder st j → i = j.
Proof.
  unfold videoPath. intros H.
  repeat apply app_inv_head in H. apply app_inv_tail in H.
  by apply decimal_inj.
Qed.

(** *** One turn of the loop *)

Lemma turn_spec E p folder st n seg i w :
  ∃ r w' evs,
    process_segment E p folder st n seg i w = (r, w')
    ∧ trace w' = trace w ++ evs
    ∧ fs w ⊆ fs w'
    ∧ (∀ q, q ∉ turn_paths folder st i → fs w' !! q = fs w !! q)
    ∧ Forall (λ e, is_split e = false) evs
    ∧ Forall (uploads_render folder st i (fs w) (fs w')) evs.
Proof.
  unfold process_segment, bind at 1.
  destruct (speech_step E seg st folder i w)
    as (r1 & w1 & evs1 & -> & [Ht1 Hf1] & Hq1 & Ha1 & Hp1 & _).
  assert (fs w ⊆ fs w1) as Hsub1.
  { apply map_subseteq_spec. intros q f Hq.
    destruct (decide (q = audioPath folder st i)) as [->|Hne].
    - destruct Hp1 as (_ & -> & _); [by eexists | done].
    - by rewrite Hf1. }
  assert (∀ evs, Forall quiet evs → Forall (λ e, is_split e = false) evs)
    as Hns.
  { intros evs H. eapply Forall_impl; [exact H|]. by intros ? [_ ?]. }
  assert (∀ evs a b, Forall quiet evs →
            Forall (uploads_render folder st i a b) evs) as Hur.
  { intros evs a b H. eapply Forall_impl; [exact H|]. intros [] [? _]; done. }
  assert (∀ w', fs w' = fs w1 → trace w' = trace w ++ evs1 →
            trace w' = trace w ++ evs1 ∧ fs w ⊆ fs w'
            ∧ (∀ q, q ∉ turn_paths folder st i → fs w' !! q = fs w !! q)
            ∧ Forall (λ e, is_split e = false) evs1
            ∧ Forall (uploads_render folder st i (fs w) (fs w')) evs1) as Hstop.
  { intros w' Hf Ht. rewrite Hf. split; [done|]. split; [done|].
    split; [|split; [by apply Hns | by apply Hur]].
    intros q Hq. apply Hf1. intros ->. apply Hq. unfold turn_paths. by repeat constructor. }
  destruct r1 as [[a|]|e]; [|by exists (Returns ()), w1, evs1; split; [|apply Hstop]
                            |by exists (Rejects e), w1, evs1; split; [|apply Hstop]].
  pose proof (Ha1 a eq_refl) as ->. clear Hstop Ha1.
  unfold bind at 1.
  destruct (screenshot_step E p st folder seg (Some i) w1)
    as (r2 & w2 & evs2 & -> & [Ht2 Hf2] & Hq2 & Ha2 & Hp2).
  assert (fs w1 ⊆ fs w2) as Hsub2.
  { apply map_subseteq_spec. intros q f Hq.
    destruct (decide (q = screenshotPath folder st (Some i))) as [->|Hne].
    - destruct Hp2 as (_ & -> & _); [by eexists | done].
    - by rewrite Hf2. }
  assert (∀ q, q ∉ turn_paths folder st i → fs w2 !! q = fs w !! q) as Hframe2.
  { intros q Hq. rewrite Hf2, Hf1; [done| |]; intros ->; apply Hq;
      unfold turn_paths; by repeat constructor. }
  assert (Forall quiet (evs1 ++ evs2)) as Hq12 by (by apply Forall_app).
  destruct r2 as [x|e].
  2:{ exists (Rejects e), w2, (evs1 ++ evs2). split; [done|].
      split; [by rewrite Ht2, Ht1, <- app_assoc|].
      split; [by (etrans; [exact Hsub1 | exact Hsub2])|]. split; [done|]. split; [by apply Hns | by apply Hur]. }
  destruct (Ha2 x eq_refl) as [-> Hshot]. clear Ha2.
  set (vp := videoPath folder st i).
  assert (fs w2 !! vp = fs w !! vp) as Hvp.
  { rewrite Hf2, Hf1; [done|apply video_not_audio|apply video_not_screenshot]. }
  unfold bind at 1, existsSync, get. fold vp.
  case_bool_decide as Hpresent.
  - (* the video is in the store *)
    unfold bind at 1, ret. unfold bind, catch.
    destruct (upload_step E vp
                (st ++ js " " ++ (if 1 <? n then js "- Part " ++ decimal i else [])
                 ++ hashtags) w2) as (r3 & descr & ok & ->).
    eexists (Returns ()), _, ((evs1 ++ evs2) ++ [_]).
    split; [by destruct r3|]. simpl.
    split; [by rewrite Ht2, Ht1, <- !app_assoc|].
    split; [by (etrans; [exact Hsub1 | exact Hsub2])|]. split; [done|].
    split; [apply Forall_app; split; [by apply Hns | by repeat constructor]|].
    apply Forall_app. split; [by apply Hur|]. constructor; [|done].
    simpl. fold vp.
    split; [done|]. split; [done|]. split; [done|].
    split; [by intros _|]. intros Hnone. rewrite <- Hvp in Hnone.
    rewrite Hnone in Hpresent. by destruct Hpresent.
  - (* the video is rendered now *)
    unfold bind at 1, catch at 1.
    destruct (createVideo_step E backgroundVideoPath (audioPath folder st i)
                (screenshotPath folder st (Some i)) vp w2)
      as (r3 & w3 & evs3 & -> & Ht3 & Hq3 & Hr3).
    assert (Forall quiet ((evs1 ++ evs2) ++ evs3)) as Hq123 by (by apply Forall_app).
    destruct r3 as [x|e].
    2:{ exists (Returns ()), w3, ((evs1 ++ evs2) ++ evs3). split; [done|].
        rewrite Hr3.
        split; [by rewrite Ht3, Ht2, Ht1, <- !app_assoc|].
        split; [by (etrans; [exact Hsub1 | exact Hsub2])|]. split; [done|]. split; [by apply Hns | by apply Hur]. }
    destruct Hr3 as (-> & d & Hfs3).
    assert (fs w2 !! vp = None) as Hvnone.
    { destruct (fs w2 !! vp) eqn:Hv; [|done]. destruct Hpresent. by eexists. }
    unfold bind, catch.
    destruct (upload_step E vp
                (st ++ js " " ++ (if 1 <? n then js "- Part " ++ decimal i else [])
                 ++ hashtags) w3) as (r4 & descr & ok & ->).
    eexists (Returns ()), _, (((evs1 ++ evs2) ++ evs3) ++ [_]).
    split; [by destruct r4|]. simpl.
    split; [by rewrite Ht3, Ht2, Ht1, <- !app_assoc|].
    assert (fs w3 !! vp = Some (Media d)) as Hv3
      by (by rewrite Hfs3, lookup_insert_eq).
    split.
    { etrans; [exact Hsub1|]. etrans; [exact Hsub2|].
      rewrite Hfs3. by apply insert_subseteq. }
    split.
    { intros q Hq. rewrite Hfs3, lookup_insert_ne; [by apply Hframe2|].
      intros <-. apply Hq. unfold vp, turn_paths. by repeat constructor. }
    split; [apply Forall_app; split; [by apply Hns | by repeat constructor]|].
    apply Forall_app. split; [by apply Hur|]. constructor; [|done].
    simpl. fold vp. rewrite Hv3, <- Hvp, Hvnone.
    split; [done|]. split; [done|]. split; [done|].
    split; [by intros [??]|]. intros _. by exists d.
Qed.

Lemma uploads_render_after folder st i before after after' e :
  after ⊆ after' →
  uploads_render folder st i before after e →
  uploads_render folder st i before after' e.
Proof.
  intros Hsub. destruct e; try done. simpl.
  intros (-> & [f ->] & Hclip & Hold & Hnew).
  assert (after' !! videoPath folder st i = Some f) as ->
    by (by apply (lookup_weaken after)).
  split; [done|]. split; [done|]. split; [done|]. split; [done|].
  exact Hnew.
Qed.

Lemma uploads_render_before folder st i before before' after e :
  before !! videoPath folder st i = before' !! videoPath folder st i →
  uploads_render folder st i before after e →
  uploads_render folder st i before' after e.
Proof.
  intros Heq. destruct e; try done. simpl.
  intros (-> & Hsome & Hclip & Hold & Hnew). rewrite <- Heq. done.
Qed.

(** *** The loop over the segments *)

Lemma video_not_in_turn folder st i j :
  i ≠ j → videoPath folder st i ∉ turn_paths folder st j.
Proof.
  intros Hne. unfold turn_paths. rewrite !elem_of_cons, elem_of_nil.
  intros [H|[H|[H|[]]]].
  - by apply video_not_audio in H.
  - by apply video_not_screenshot in H.
  - by apply videoPath_inj in H.
Qed.

Lemma loop_spec E p folder st n segs i0 w :
  ∃ r w' evs,
    process_segments E p folder st n i0 segs w = (r, w')
    ∧ trace w' = trace w ++ evs
    ∧ fs w ⊆ fs w'
    ∧ Forall (λ e, is_split e = false) evs
    ∧ Forall (λ e, ∃ i, i0 < i ≤ i0 + length segs
                        ∧ uploads_render folder st i (fs w) (fs w') e) evs.
Proof.
  revert i0 w. induction segs as [|seg rest IH]; intros i0 w.
  - exists (Returns ()), w, []. rewrite app_nil_r. by repeat split.
  - simpl. unfold bind.
    destruct (turn_spec E p folder st n seg (i0 + 1) w)
      as (r1 & w1 & evs1 & -> & Ht1 & Hsub1 & Hframe1 & Hns1 & Hur1).
    destruct r1 as [[]|e].
    2:{ exists (Rejects e), w1, evs1. repeat split; try done.
        eapply Forall_impl; [exact Hur1|]. intros ev Hev.
        exists (i0 + 1). split; [lia | done]. }
    destruct (IH (i0 + 1) w1) as (r & w' & evs2 & -> & Ht2 & Hsub2 & Hns2 & Hur2).
    exists r, w', (evs1 ++ evs2).
    split; [done|]. split; [by rewrite Ht2, Ht1, <- app_assoc|].
    split; [by etrans|]. split; [by apply Forall_app|].
    apply Forall_app. split.
    + eapply Forall_impl; [exact Hur1|]. intros e He. exists (i0 + 1).
      split; [lia|]. by eapply uploads_render_after.
    + eapply Forall_impl; [exact Hur2|]. intros e (i & Hi & He).
      exists i. split; [lia|].
      eapply uploads_render_before; [|exact He].
      apply Hframe1, video_not_in_turn. lia.
Qed.

Lemma getShortTitle_step E ttl w :
  ∃ st w' evs,
    getShortTitle E ttl w = (Returns st, w')
    ∧ fs w' = fs w ∧ trace w' = trace w ++ evs
    ∧ Forall (λ e, quiet e ∧ is_generation e = false) evs.
Proof.
  unfold getShortTitle, bind at 1, get.
  destruct (shortTitleCache w !! ttl) as [[|c s]|].
  2:{ exists (c :: s), w, []. by rewrite app_nil_r. }
  all: unfold bind, shortenTitle, bind; rewrite complete_step;
    destruct (openai _ _ _); simpl;
    (do 3 eexists; split; [reflexivity|]; simpl;
     split; [done|]; split; [done|]; by repeat constructor).
Qed.

Lemma description_last folder st : last (descriptionPath folder st) = Some 116%N.
Proof. unfold descriptionPath. by repeat apply last_suffix. Qed.

Lemma prepare_spec E p folder w :
  ∃ st segs w1 evs,
    prepare_post E p folder w = (Returns (st, segs), w1)
    ∧ trace w1 = trace w ++ evs
    ∧ Forall (λ e, quiet e ∧ is_generation e = false) evs
    ∧ (∀ q, q ≠ descriptionPath folder st → fs w1 !! q = fs w !! q).
Proof.
  unfold prepare_post, bind at 1.
  destruct (correctText_step E (title p ++ js "

" ++ selftext p) w) as [t ->].
  unfold bind at 1.
  set (w0 := {| fs := fs w; shortTitleCache := shortTitleCache w;
                trace := trace w ++ _ |}).
  destruct (getShortTitle_step E (title p) w0) as (st & w1 & evs1 & -> & Hf1 & Ht1 & Hq1).
  subst w0. simpl in Hf1, Ht1.
  unfold bind, generateDescription, bind. rewrite complete_step.
  destruct (openai _ _ _); simpl.
  - do 4 eexists. split; [reflexivity|]. simpl.
    split; [by rewrite Ht1, <- !app_assoc|].
    split.
    { apply Forall_app. split; [by repeat constructor|].
      apply Forall_app. split; [done | by repeat constructor]. }
    intros q Hq. by rewrite lookup_insert_ne, Hf1.
  - do 4 eexists. split; [reflexivity|]. simpl.
    split; [by rewrite Ht1, <- !app_assoc|].
    split.
    { apply Forall_app. split; [by repeat constructor|].
      apply Forall_app. split; [done | by repeat constructor]. }
    intros q Hq. by rewrite Hf1.
Qed.

(** C3, as the code has it.  Every clip that [processPost] publishes for a
    post is the video of one of the post's segments, segment [i] of its
    [n] under the post's short title, taken from the store as it is.  No
    call of the splitter/rebalancer is made in the run, so neither a
    maximum nor a minimum play time is enforced. *)
Theorem published_clips_are_segment_renders E p folder w :
  let run := processPost E p folder w in
  ∃ st segs evs,
    (post_gate p = Accept →
       (prepare_post E p folder w).1 = Returns (st, segs))
    ∧ trace run.2 = trace w ++ evs
    ∧ Forall (λ e, is_split e = false) evs
    ∧ ∀ path clip ttl descr ok,
        Upload path clip ttl descr ok ∈ evs →
        ∃ i, 1 ≤ i ≤ length segs
          ∧ path = videoPath folder st i
          ∧ is_Some clip
          ∧ clip = fs run.2 !! path.
Proof.
  simpl. unfold processPost.
  destruct (post_gate p);
    try (exists [], [], []; rewrite app_nil_r; split; [done|]; split; [done|];
         split; [done|]; intros ????? H; by apply elem_of_nil in H).
  unfold bind.
  destruct (prepare_spec E p folder w) as (st & segs & w1 & evs0 & -> & Ht0 & Hq0 & Hf0).
  destruct (loop_spec E p folder st (length segs) segs 0 w1)
    as (r & w2 & evs & -> & Ht & Hsub & Hns & Hur).
  exists st, segs, (evs0 ++ evs). simpl.
  split; [done|]. split; [by rewrite Ht, Ht0, <- app_assoc|].
  split.
  { apply Forall_app. split; [|done].
    eapply Forall_impl; [exact Hq0|]. by intros ? [[_ ?] _]. }
  intros path clip ttl descr ok Hin. apply elem_of_app in Hin as [Hin|Hin].
  - rewrite Forall_forall in Hq0. by destruct (Hq0 _ Hin) as [[? _] _].
  - rewrite Forall_forall in Hur. destruct (Hur _ Hin) as (i & Hi & He).
    simpl in He. destruct He as (-> & Hsome & Hclip & _).
    exists i. split; [lia|]. by repeat split.
Qed.

(** *** Re-running over a complete store *)

Lemma artifacts_present_from files folder st n :
  artifacts_present files folder st n = true → present_from files folder st 0 n.
Proof.
  unfold artifacts_present. rewrite forallb_forall. intros H i Hi.
  specialize (H i). rewrite in_seq in H. specialize (H ltac:(lia)).
  apply andb_prop in H as [H Hv]. apply andb_prop in H as [Ha Hs].
  apply bool_decide_eq_true in Ha, Hs, Hv. done.
Qed.

Lemma turn_present E p folder st n seg i w :
  is_Some (fs w !! audioPath folder st i) →
  is_Some (fs w !! screenshotPath folder st (Some i)) →
  is_Some (fs w !! videoPath folder st i) →
  ∃ w' evs,
    process_segment E p folder st n seg i w = (Returns (), w')
    ∧ fs w' = fs w
    ∧ trace w' = trace w ++ evs
    ∧ Forall (λ e, is_generation e = false) evs
    ∧ length (List.filter is_upload evs) = 1.
Proof.
  intros Ha Hs Hv. unfold process_segment, bind at 1.
  destruct (speech_step E seg st folder i w)
    as (r1 & w1 & evs1 & -> & _ & _ & _ & Hp1 & _).
  destruct (Hp1 Ha) as (-> & -> & ->). clear Hp1.
  unfold bind at 1.
  destruct (screenshot_step E p st folder seg (Some i) w)
    as (r2 & w2 & evs2 & -> & [Ht2 _] & Hq2 & _ & Hp2).
  destruct (Hp2 Hs) as (-> & Hf2 & Hg2). clear Hp2.
  unfold bind at 1, existsSync, get.
  rewrite Hf2, bool_decide_true by done.
  unfold bind at 1, ret. unfold bind, catch.
  destruct (upload_step E (videoPath folder st i)
              (st ++ js " " ++ (if 1 <? n then js "- Part " ++ decimal i else [])
               ++ hashtags) w2) as (r3 & descr & ok & ->).
  eexists _, (evs2 ++ [_]). split; [by destruct r3|]. simpl.
  split; [done|]. split; [by rewrite Ht2, <- app_assoc|].
  split; [apply Forall_app; split; [done | by repeat constructor]|].
  rewrite List.filter_app, length_app. simpl.
  assert (List.filter is_upload evs2 = []) as ->; [|done].
  clear -Hq2. induction Hq2 as [|e evs [He _] _ IH]; [done|].
  simpl. by rewrite He.
Qed.

Lemma loop_present E p folder st n segs i0 w :
  present_from (fs w) folder st i0 (length segs) →
  ∃ w' evs,
    process_segments E p folder st n i0 segs w = (Returns (), w')
    ∧ fs w' = fs w
    ∧ trace w' = trace w ++ evs
    ∧ Forall (λ e, is_generation e = false) evs
    ∧ length (List.filter is_upload evs) = length segs.
Proof.
  revert i0 w. induction segs as [|seg rest IH]; intros i0 w Hp.
  - exists w, []. by rewrite app_nil_r.
  - simpl. unfold bind.
    destruct (Hp (i0 + 1)) as (Ha & Hs & Hv); [simpl; lia|].
    destruct (turn_present E p folder st n seg (i0 + 1) w Ha Hs Hv)
      as (w1 & evs1 & -> & Hf1 & Ht1 & Hg1 & Hu1).
    destruct (IH (i0 + 1) w1) as (w' & evs2 & -> & Hf2 & Ht2 & Hg2 & Hu2).
    { rewrite Hf1. intros i Hi. apply Hp. simpl. lia. }
    exists w', (evs1 ++ evs2). split; [done|].
    split; [by rewrite Hf2|]. split; [by rewrite Ht2, Ht1, <- app_assoc|].
    split; [by apply Forall_app|].
    rewrite List.filter_app, length_app. simpl. lia.
Qed.

(** C2, as the code has it.  When every segment of an accepted post has its
    narration audio, caption image and rendered video in the store, a run
    over the post makes no narration, render, probe or encoder call, and
    returns; the publisher is still called, once for every segment. *)
Theorem rerun_skips_generation E p folder w st segs w1 :
  post_gate p = Accept →
  prepare_post E p folder w = (Returns (st, segs), w1) →
  artifacts_present (fs w) folder st (length segs) = true →
  ∃ w2 evs,
    processPost E p folder w = (Returns (), w2)
    ∧ trace w2 = trace w ++ evs
    ∧ Forall (λ e, is_generation e = false) evs
    ∧ length (List.filter is_upload evs) = length segs.
Proof.
  intros Hgate Hprep Hpresent. unfold processPost. rewrite Hgate. unfold bind.
  destruct (prepare_spec E p folder w)
    as (st' & segs' & w1' & evs0 & Hprep' & Ht0 & Hq0 & Hf0).
  rewrite Hprep in Hprep'. injection Hprep' as <- <- <-. rewrite Hprep.
  destruct (loop_present E p folder st (length segs) segs 0 w1)
    as (w2 & evs & -> & Hf & Ht & Hg & Hu).
  { intros i Hi.
    destruct (artifacts_present_from _ _ _ _ Hpresent i Hi) as (Ha & Hs & Hv).
    assert (∀ q c, last q = Some c → c ≠ 116%N →
              is_Some (fs w !! q) → is_Some (fs w1 !! q)) as Hkeep.
    { intros q c Hq Hc Hsome. rewrite Hf0; [done|]. intros ->.
      rewrite description_last in Hq. congruence. }
    split; [|split].
    - by eapply Hkeep; [apply audioPath_last | |].
    - by eapply Hkeep; [apply screenshotPath_last | |].
    - by eapply Hkeep; [apply videoPath_last | |]. }
  exists w2, (evs0 ++ evs). split; [done|].
  split; [by rewrite Ht, Ht0, <- app_assoc|].
  split.
  - apply Forall_app. split; [|done].
    eapply Forall_impl; [exact Hq0|]. by intros ? [_ ?].
  - rewrite List.filter_app, length_app.
    assert (List.filter is_upload evs0 = []) as ->; [|done].
    clear -Hq0. induction Hq0 as [|e evs [[He _] _] _ IH]; [done|].
    simpl. by rewrite He.
Qed.

(** ** Narration failures *)

(** When the narration call itself rejects, the turn for that segment ends
    there: one call made, the store as it was, and the loop goes on. *)
Lemma rejected_speech_call_is_local E p folder st n seg i w :
  fs w !! audioPath folder st i = None →
  playht E (clock w) seg = SpeechRejects →
  process_segment E p folder st n seg i w =
    (Returns (), {| fs := fs w; shortTitleCache := shortTitleCache w;
                    trace := trace w ++ [Speech seg] |}).
Proof.
  intros Hf Hp. unfold process_segment, generateSegmentSpeech, bind, existsSync, get.
  rewrite bool_decide_false by (rewrite Hf; by intros [??]).
  simpl. by rewrite Hp.
Qed.

(** A narration stream that reports an error makes the turn reject, in
    any world and with any collaborators. *)
Lemma stream_error_rejects_turn E p folder st n seg i w chunks :
  fs w !! audioPath folder st i = None →
  playht E (clock w) seg = SpeechStream chunks false →
  (process_segment E p folder st n seg i w).1 = Rejects SpeechStreamError.
Proof.
  intros Hf Hp. unfold process_segment, generateSegmentSpeech, bind, existsSync, get.
  rewrite bool_decide_false by (rewrite Hf; by intros [??]).
  simpl. rewrite Hp.
  set (w1 := {| fs := fs w; shortTitleCache := shortTitleCache w;
                trace := trace w ++ [Speech seg] |}).
  by destruct (append_chunks (audioPath folder st i) chunks w1) as (w' & -> & _).
Qed.

(** A rejected turn ends the loop: the segments after it are not processed. *)
Lemma rejected_turn_ends_loop E p folder st n seg rest i w e :
  (process_segment E p folder st n seg (i + 1) w).1 = Rejects e →
  process_segments E p folder st n i (seg :: rest) w
  = process_segment E p folder st n seg (i + 1) w.
Proof.
  intros H. simpl. unfold bind.
  destruct (process_segment E p folder st n seg (i + 1) w) as [[[]|e'] w']; done.
Qed.

(** C1. A narration stream that reports an error makes
    [generateSegmentSpeech] reject, not return [null]: the rejection leaves
    [processPost] and [processSubreddits].  Here the first of the three
    segments of [story] fails so; the other two segments, the second post
    and the other subreddits are never reached. *)
Theorem stream_error_aborts_run :
  let E := studio (SpeechStream [10%Q] false) true true None in
  let run := processSubreddits E fresh in
  length (segments_of (title story ++ js "

" ++ selftext story)) = 3
  ∧ run.1 = Rejects SpeechStreamError
  ∧ trace run.2 =
      [ Fetch (js "AmItheAsshole") (js "top.json?t=all");
        Completion (Correct (title story ++ js "

" ++ selftext story));
        Completion (Shorten (title story));
        Completion (Describe (title story) (selftext story));
        Speech (js "My story " ++ words 148 (js "ok.")) ].
Proof. vm_compute. repeat split; reflexivity. Qed.

(** ** Where the code departs from the specification's sentences *)

Lemma Forall_forallb {A} (P : A → Prop) (f : A → bool) (l : list A) :
  (∀ x, P x → f x = true) → Forall P l → forallb f l = true.
Proof.
  intros Hf. induction 1 as [|x l Hx _ IH]; [done|].
  simpl. by rewrite (Hf x Hx), IH.
Qed.

(** C2, as written, fails: over the store left by a complete first run,
    a second run calls the description generator and the publisher again. *)
Lemma rerun_calls_again : ¬ rerun_is_silent.
Proof.
  intros H.
  set (E := studio (SpeechStream [10; 20.5]%Q true) true true None).
  specialize (H E short_story (js "AmItheAsshole") after_first_run
                (js "A question")
                [title short_story ++ js "

" ++ selftext short_story]
                (prepare_post E short_story (js "AmItheAsshole")
                   after_first_run).2).
  specialize (H ltac:(by vm_compute) ltac:(by vm_compute) ltac:(by vm_compute)).
  apply (Forall_forallb _ (λ e, negb (is_upload e))) in H.
  - vm_compute in H. discriminate.
  - by intros e (_ & -> & _).
Qed.

Lemma rerun_skips_generation_witness :
  ∃ w2 evs,
    processPost (studio (SpeechStream [10; 20.5]%Q true) true true None)
      short_story (js "AmItheAsshole") after_first_run = (Returns (), w2)
    ∧ trace w2 = trace after_first_run ++ evs
    ∧ Forall (λ e, is_generation e = false) evs
    ∧ length (List.filter is_upload evs) = 1.
Proof.
  apply (rerun_skips_generation
           (studio (SpeechStream [10; 20.5]%Q true) true true None)
           short_story (js "AmItheAsshole") after_first_run
           (js "A question")
           [title short_story ++ js "

" ++ selftext short_story]
           (prepare_post (studio (SpeechStream [10; 20.5]%Q true) true true None)
              short_story (js "AmItheAsshole") after_first_run).2);
    vm_compute; reflexivity.
Defined.

(** C3, as written, fails on both bounds: the three clips of [story] are
    published with the play time of their narration, be it 65 seconds or
    10 seconds. *)
Lemma published_out_of_bounds :
  ¬ published_capped 60 ∧ ¬ published_floored 30.
Proof.
  split; intros H.
  - specialize (H (studio (SpeechStream [30; 35]%Q true) true true None)
                  story (js "AmItheAsshole") fresh).
    apply (Forall_forallb _ (λ d, negb (Qltb 60 d))) in H.
    + vm_compute in H. discriminate.
    + intros d Hd. unfold Qltb. pose proof (proj1 (Qle_alt _ _) Hd) as Hc.
      rewrite <- Qcompare_antisym.
      by destruct (d ?= 60)%Q.
  - specialize (H (studio (SpeechStream [10%Q] true) true true None)
                  story (js "AmItheAsshole") fresh).
    apply (Forall_forallb _ (λ d, negb (Qltb d 30))) in H.
    + vm_compute in H. discriminate.
    + intros d Hd. unfold Qltb. pose proof (proj1 (Qle_alt _ _) Hd) as Hc.
      rewrite <- Qcompare_antisym.
      by destruct (30 ?= d)%Q.
Qed.

(** C9, as written, fails: the encoder fixes the play time of its output.
    Told [-t 42.03102], an encoder that writes whole frames, 25 to the
    second, writes 1051 of them, which play 42.04 seconds. *)
Lemma output_differs_from_narration : ¬ output_lasts_as_narration.
Proof.
  intros H.
  destruct (H (framed (studio SpeechRejects true true None)) backgroundVideoPath
              (audioPath (js "AmItheAsshole") (js "A question") 1)
              (screenshotPath (js "AmItheAsshole") (js "A question") (Some 1))
              (videoPath (js "AmItheAsshole") (js "A question") 1)
              (stage 600 42.03102) 42.03102%Q _ eq_refl eq_refl)
    as (d' & Hd' & Heq).
  vm_compute in Hd'. injection Hd' as <-. vm_compute in Heq. discriminate.
Qed.

Lemma createVideo_trims_to_narration_witness :
  let E := framed (studio SpeechRejects true true None) in
  let audio := audioPath (js "AmItheAsshole") (js "A question") 1 in
  let shot := screenshotPath (js "AmItheAsshole") (js "A question") (Some 1) in
  let out := videoPath (js "AmItheAsshole") (js "A question") 1 in
  let c := video_command backgroundVideoPath audio shot out 42.03102 in
  limit_of (outputOptions c) = Some 42.03102%Q
  ∧ mapped (outputOptions c) = ["v"; "2:a"]%string
  ∧ (in_path <$> cmd_inputs c) !! 2 = Some audio
  ∧ ∃ r w',
      createVideo E backgroundVideoPath audio shot out (stage 8 42.03102) = (r, w')
      ∧ trace w' = trace (stage 8 42.03102) ++ [Probe audio; Encode c]
      ∧ (r = Returns out ∨ r = Rejects EncodeError)
      ∧ (ffmpeg E (S (clock (stage 8 42.03102))) c = true →
         is_Some (fs (stage 8 42.03102) !! backgroundVideoPath) →
         is_Some (fs (stage 8 42.03102) !! shot) →
         r = Returns out
         ∧ fs w' !! out = Some (Media (encoded E (S (clock (stage 8 42.03102))) c))).
Proof.
  apply (createVideo_trims_to_narration
           (framed (studio SpeechRejects true true None)) backgroundVideoPath
           (audioPath (js "AmItheAsshole") (js "A question") 1)
           (screenshotPath (js "AmItheAsshole") (js "A question") (Some 1))
           (videoPath (js "AmItheAsshole") (js "A question") 1)
           (stage 8 42.03102) 42.03102%Q); reflexivity.
Defined.

Lemma segments_word_count_witness :
  (3 ≤ Z.of_nat (word_count (js "a b c.")))%Z.
Proof.
  apply (proj2 (segments_word_count (js "a b c. d e f g h i.") 3) 0 (js "a b c."));
    [reflexivity | simpl; lia].
Defined.

Lemma segment_remainder_witness :
  splitTextIntoSegments (js "a b c. d e") 3 = [] ++ [js "a b c." ++ sp ++ js "d e"].
Proof.
  apply (proj1 (proj2 (proj2 (segment_remainder (js "a b c. d e") 3))));
    [discriminate | reflexivity | reflexivity].
Defined.

(** * Further properties *)

(** ** The segmenter *)

Lemma chunk_fold_sentence m words chunks cur :
  Forall sentence_chunk chunks →
  Forall sentence_chunk (fold_left (chunk_step m) words (chunks, cur)).1.
Proof.
  revert chunks cur. induction words as [|w words IH]; intros chunks cur H; [done|].
  simpl. destruct (_ && _) eqn:E; apply IH; [|done].
  apply andb_prop in E as [_ E].
  apply Forall_app. split; [done|]. constructor; [|done].
  exists w. by rewrite last_snoc.
Qed.

Lemma flush_but_last m chunks cur (P : list jsstring → Prop) :
  Forall P chunks →
  ∀ i k, chunk_flush m (chunks, cur) !! i = Some k →
         i + 1 < length (chunk_flush m (chunks, cur)) → P k.
Proof.
  intros HP i k.
  destruct (chunk_flush_cases m chunks cur) as
    [[-> ->]|[(Hr & _ & ->)|(Hr & _ & init & k' & -> & ->)]].
  - intros Hk _. by apply (Forall_lookup_1 _ _ _ _ HP Hk).
  - rewrite length_app. simpl. intros Hk Hi.
    rewrite lookup_app_l in Hk by lia. by apply (Forall_lookup_1 _ _ _ _ HP Hk).
  - rewrite length_app. simpl. intros Hk Hi.
    rewrite lookup_app_l in Hk by lia.
    apply Forall_app in HP as [HP _]. by apply (Forall_lookup_1 _ _ _ _ HP Hk).
Qed.

Lemma last_join k word :
  last k = Some word → word ≠ [] → last (join sp k) = last word.
Proof.
  induction k as [|t k IH]; [done|]. intros Hl Hw.
  destruct k as [|t' k].
  - by injection Hl as ->.
  - rewrite last_cons_cons in Hl. rewrite join_cons, !last_app, (IH Hl Hw).
    destruct word as [|c word]; [done|].
    by destruct (last (c :: word)) eqn:E; [|apply last_None in E].
Qed.

Lemma ends_sentence_join k :
  sentence_chunk k → ends_sentence (join sp k) = true.
Proof.
  intros (word & Hl & He). unfold ends_sentence in *.
  rewrite (last_join k word Hl); [done|]. by destruct word.
Qed.

(** X1.  Every segment but the last ends a sentence: its last character is a
    full stop, an exclamation mark or a question mark. *)
Theorem segments_end_sentences (text : jsstring) (m : Z) (i : nat) (s : jsstring) :
  splitTextIntoSegments text m !! i = Some s →
  i + 1 < length (splitTextIntoSegments text m) →
  ends_sentence s = true.
Proof.
  rewrite segments_chunks, length_fmap, list_lookup_fmap. unfold chunks_of.
  pose proof (chunk_fold_sentence m (split_ws text) [] [] ltac:(constructor)) as Hs.
  destruct (fold_left _ _ _) as [c r]. simpl in Hs.
  destruct (chunk_flush m (c, r) !! i) as [k|] eqn:Hk; [|done].
  intros [= <-] Hi. apply ends_sentence_join.
  by apply (flush_but_last m c r sentence_chunk Hs i k).
Qed.

Lemma segments_end_sentences_witness :
  ends_sentence (js "Stop! Who goes there?") = true.
Proof.
  apply (segments_end_sentences (js "Stop! Who goes there? A friend of the king.") 4 0);
    [reflexivity | simpl; lia].
Defined.

Lemma chunks_of_all_min m words :
  (m ≤ Z.of_nat (length words))%Z →
  Forall (λ k, (m ≤ Z.of_nat (length k))%Z) (chunks_of m words).
Proof.
  intros Hm. unfold chunks_of.
  pose proof (chunk_fold_closed m words [] [] ltac:(constructor)) as Hc.
  pose proof (chunk_fold_concat m words [] []) as Hcat.
  destruct (fold_left _ _ _) as [c r]. simpl in Hc, Hcat.
  assert (Forall (λ k, (m ≤ Z.of_nat (length k))%Z) c) as Hmin
    by (eapply Forall_impl; [exact Hc|]; by intros k [_ ?]).
  destruct (chunk_flush_cases m c r) as
    [[-> ->]|[(Hr & Hcase & ->)|(Hr & _ & init & k & -> & ->)]]; [done| |].
  - apply Forall_app. split; [done|]. constructor; [|done].
    destruct Hcase as [->|?]; [|done]. simpl in Hcat. by subst.
  - apply Forall_app in Hmin as [Hi Hk]. apply Forall_app. split; [done|].
    constructor; [|done]. apply Forall_inv in Hk. rewrite length_app. lia.
Qed.

Lemma segments_words text m :
  Forall2 (λ s k, word_count s = length k)
    (splitTextIntoSegments text m) (chunks_of m (split_ws text)).
Proof.
  rewrite segments_chunks.
  pose proof (chunks_of_nonempty m (split_ws text)) as Hne.
  pose proof (tokens_ok_concat (chunks_of m (split_ws text))) as Hok.
  rewrite chunks_of_concat in Hok. specialize (Hok (tokens_ok_split_ws text)).
  induction Hne as [|k chunks Hk Hne IH]; [constructor|].
  apply Forall_cons in Hok as [Hok1 Hok2].
  constructor; [by apply word_count_join | by apply IH].
Qed.

(** X2.  When the text has at least [m] words, every segment has at least [m]
    words, the last one too. *)
Theorem segments_all_reach_minimum (text : jsstring) (m : Z) :
  (m ≤ Z.of_nat (word_count text))%Z →
  Forall (λ s, (m ≤ Z.of_nat (word_count s))%Z) (splitTextIntoSegments text m).
Proof.
  intros Hm. pose proof (chunks_of_all_min m (split_ws text) Hm) as Hmin.
  pose proof (segments_words text m) as H2.
  induction H2 as [|s k segs chunks Hsk _ IH]; [constructor|].
  apply Forall_cons in Hmin as [Hk Hmin].
  constructor; [by rewrite Hsk | by apply IH].
Qed.

Lemma segments_all_reach_minimum_witness :
  Forall (λ s, (3 ≤ Z.of_nat (word_count s))%Z)
    (splitTextIntoSegments (js "a b c. d e") 3).
Proof.
  apply (segments_all_reach_minimum (js "a b c. d e") 3). by vm_compute.
Defined.

(** X3.  For a positive [m] there are at most [max 1 (n / m)] segments, [n] being
    the number of words of the text. *)
Theorem segments_count_bound (text : jsstring) (m : Z) :
  (0 < m)%Z →
  (Z.of_nat (length (splitTextIntoSegments text m))
   ≤ Z.max 1 (Z.of_nat (word_count text) / m))%Z.
Proof.
  intros Hpos. rewrite segments_chunks, length_fmap.
  destruct (Z.lt_ge_cases (Z.of_nat (word_count text)) m) as [Hlt|Hge].
  - unfold chunks_of.
    rewrite chunk_fold_short by (simpl; unfold word_count in Hlt; lia).
    pose proof (split_ws_nonempty text).
    unfold chunk_flush.
    rewrite bool_decide_true by (by destruct (split_ws text)). simpl. lia.
  - pose proof (chunks_of_all_min m (split_ws text) Hge) as Hmin.
    pose proof (sum_length_concat (chunks_of m (split_ws text))) as Hsum.
    rewrite chunks_of_concat in Hsum. fold (word_count text) in Hsum.
    assert (Z.of_nat (length (chunks_of m (split_ws text))) * m
            ≤ Z.of_nat (sum_list_with length (chunks_of m (split_ws text))))%Z as Hle.
    { clear Hsum. induction Hmin as [|k chunks Hk _ IH]; simpl; [lia|]. lia. }
    rewrite Hsum in Hle.
    apply Z.le_trans with (Z.of_nat (word_count text) / m)%Z; [|lia].
    apply Z.div_le_lower_bound; lia.
Qed.

Lemma segments_count_bound_witness :
  (Z.of_nat (length (splitTextIntoSegments (js "a b c. d e f g h i.") 3))
   ≤ Z.max 1 (Z.of_nat (word_count (js "a b c. d e f g h i.")) / 3))%Z.
Proof. apply (segments_count_bound (js "a b c. d e f g h i.") 3). lia. Defined.

(** ** [sanitizeTitle] *)

Lemma squeeze_cons c s :
  squeeze (c :: s) =
    match s with
    | c' :: _ =>
        if ((c =? underscore) && (c' =? underscore))%N then squeeze s
        else c :: squeeze s
    | [] => [c]
    end.
Proof. reflexivity. Qed.

Lemma squeeze_Forall (P : N → Prop) s : Forall P s → Forall P (squeeze s).
Proof.
  induction 1 as [|c s Hc Hs IH]; [done|].
  rewrite squeeze_cons. destruct s as [|c' s']; [by repeat constructor|].
  destruct (_ && _); [done | by constructor].
Qed.

Lemma drop_underscores_Forall (P : N → Prop) s :
  Forall P s → Forall P (drop_underscores s).
Proof.
  induction 1 as [|c s Hc Hs IH]; [done|]. simpl.
  destruct (c =? underscore)%N; [done | by constructor].
Qed.

Local Ltac units_to_prop :=
  unfold is_slug_unit, is_alnum, underscore in *;
  rewrite ?orb_true_iff, ?andb_true_iff, ?orb_false_iff, ?andb_false_iff,
    ?N.leb_le, ?N.leb_gt, ?N.eqb_eq, ?N.eqb_neq in *.

Lemma lower_unit_cases c :
  (65 ≤ c ≤ 90 ∧ lower_unit c = c + 32)%N
  ∨ (¬ (65 ≤ c ≤ 90)%N ∧ lower_unit c = c).
Proof.
  unfold lower_unit.
  destruct (N.leb_spec 65 c), (N.leb_spec c 90); simpl; [left | right..]; lia.
Qed.

Lemma lower_mask_slug c :
  is_slug_unit (lower_unit (if is_alnum c then c else underscore)) = true.
Proof.
  destruct (is_alnum c) eqn:Ha.
  - destruct (lower_unit_cases c) as [[? ->]|[? ->]]; units_to_prop; lia.
  - reflexivity.
Qed.

Lemma sanitizeTitle_slug (title : jsstring) :
  Forall (λ c, is_slug_unit c = true) (sanitizeTitle title).
Proof.
  unfold sanitizeTitle. rewrite Forall_reverse.
  apply drop_underscores_Forall. rewrite Forall_reverse.
  apply drop_underscores_Forall. unfold toLowerCase.
  rewrite Forall_fmap. apply squeeze_Forall with (P := λ c, is_slug_unit (lower_unit c) = true).
  rewrite Forall_fmap. apply Forall_forall. intros c _. apply lower_mask_slug.
Qed.

(** X4.  A sanitized title holds only lower-case letters, digits and
    underscores: no slash, no dot, no space. *)
Theorem sanitizeTitle_alphabet (title : jsstring) :
  Forall (λ c, is_slug_unit c = true) (sanitizeTitle title).
Proof. apply sanitizeTitle_slug. Qed.

Lemma squeeze_head s : head (squeeze s) = head s.
Proof.
  induction s as [|c s IH]; [done|]. rewrite squeeze_cons.
  destruct s as [|c' s']; [done|].
  destruct (N.eqb_spec c underscore) as [->|?], (N.eqb_spec c' underscore) as [->|?];
    simpl andb; cbv iota; by rewrite ?IH.
Qed.

Lemma squeeze_single s : single_underscores (squeeze s).
Proof.
  induction s as [|c s IH]; [done|]. rewrite squeeze_cons.
  destruct s as [|c' s']; [by split|].
  destruct (N.eqb_spec c underscore) as [->|?], (N.eqb_spec c' underscore) as [->|?];
    simpl andb; cbv iota; try done;
    (split; [|done]); rewrite squeeze_head; simpl; congruence.
Qed.

Lemma lower_unit_underscore c : lower_unit c = underscore ↔ c = underscore.
Proof.
  unfold underscore. destruct (lower_unit_cases c) as [[? ->]|[? ->]]; lia.
Qed.

Lemma lower_single s :
  single_underscores s → single_underscores (toLowerCase s).
Proof.
  induction s as [|c s IH]; [done|]. intros [Hc Hs]. split; [|by apply IH].
  rewrite lower_unit_underscore. intros ->. specialize (Hc eq_refl).
  destruct s as [|c' s']; [done|]. simpl in *.
  intros [= H]. apply (proj1 (lower_unit_underscore c')) in H.
  apply Hc. by rewrite H.
Qed.

Lemma drop_underscores_single s :
  single_underscores s → single_underscores (drop_underscores s).
Proof.
  induction s as [|c s IH]; [done|]. intros [Hc Hs]. simpl.
  destruct (c =? underscore)%N; [by apply IH | by split].
Qed.

Lemma drop_underscores_head s : head (drop_underscores s) ≠ Some underscore.
Proof.
  induction s as [|c s IH]; [done|]. simpl.
  destruct (N.eqb_spec c underscore); [done | simpl; congruence].
Qed.

Lemma drop_underscores_last s c :
  last (drop_underscores s) = Some c → last s = Some c.
Proof.
  induction s as [|a s IH]; [done|]. simpl.
  destruct (a =? underscore)%N; [|done].
  intros H. specialize (IH H). destruct s; [done|]. by rewrite last_cons_cons.
Qed.

Lemma single_snoc l c :
  single_underscores l → (c = underscore → last l ≠ Some underscore) →
  single_underscores (l ++ [c]).
Proof.
  induction l as [|a l IH]; intros Hs Hc; [by split|].
  destruct Hs as [Ha Hs]. split.
  - intros ->. destruct l as [|b l]; simpl.
    + intros [= ->]. by apply Hc.
    + by apply Ha.
  - apply IH; [done|]. intros ->. specialize (Hc eq_refl).
    destruct l as [|b l]; [done|]. by rewrite last_cons_cons in Hc.
Qed.

Lemma reverse_single s : single_underscores s → single_underscores (reverse s).
Proof.
  induction s as [|c s IH]; [done|]. intros [Hc Hs].
  rewrite reverse_cons. apply single_snoc; [by apply IH|].
  intros ->. rewrite last_reverse. by apply Hc.
Qed.

Lemma sanitizeTitle_shape_parts (title : jsstring) :
  head (sanitizeTitle title) ≠ Some underscore
  ∧ last (sanitizeTitle title) ≠ Some underscore
  ∧ single_underscores (sanitizeTitle title).
Proof.
  unfold sanitizeTitle.
  set (x := drop_underscores (toLowerCase (squeeze _))).
  assert (single_underscores x) as Hx
    by apply drop_underscores_single, lower_single, squeeze_single.
  split; [|split].
  - rewrite head_reverse. intros H. apply drop_underscores_last in H.
    rewrite last_reverse in H. by apply (drop_underscores_head _ H).
  - rewrite last_reverse. apply drop_underscores_head.
  - by apply reverse_single, drop_underscores_single, reverse_single.
Qed.

(** X5.  A sanitized title neither starts nor ends with an underscore, and
    has no two underscores in a row. *)
Theorem sanitizeTitle_shape (title : jsstring) :
  head (sanitizeTitle title) ≠ Some underscore
  ∧ last (sanitizeTitle title) ≠ Some underscore
  ∧ single_underscores (sanitizeTitle title).
Proof. apply sanitizeTitle_shape_parts. Qed.

Lemma squeeze_fixed s : single_underscores s → squeeze s = s.
Proof.
  induction s as [|c s IH]; [done|]. intros [Hc Hs]. rewrite squeeze_cons.
  destruct s as [|c' s']; [done|]. rewrite (IH Hs).
  destruct (N.eqb_spec c underscore) as [->|?]; [|done].
  destruct (N.eqb_spec c' underscore) as [->|?]; [|done].
  by destruct (Hc eq_refl).
Qed.

Lemma drop_underscores_fixed s :
  head s ≠ Some underscore → drop_underscores s = s.
Proof.
  destruct s as [|c s]; [done|]. simpl. intros H.
  destruct (N.eqb_spec c underscore) as [->|?]; done.
Qed.

Lemma slug_fixed s :
  Forall (λ c, is_slug_unit c = true) s →
  (λ c, if is_alnum c then c else underscore) <$> s = s ∧ toLowerCase s = s.
Proof.
  induction 1 as [|c s Hc _ [IH1 IH2]]; [done|]. unfold toLowerCase in *.
  rewrite !fmap_cons, IH1, IH2. split; f_equal.
  - destruct (is_alnum c) eqn:Ha; [done|]. units_to_prop. lia.
  - destruct (lower_unit_cases c) as [[? ->]|[? ->]]; [units_to_prop; lia | done].
Qed.

Lemma sanitizeTitle_fixed s :
  Forall (λ c, is_slug_unit c = true) s →
  head s ≠ Some underscore → last s ≠ Some underscore →
  single_underscores s →
  sanitizeTitle s = s.
Proof.
  intros Hslug Hh Hl Hs. unfold sanitizeTitle.
  destruct (slug_fixed s Hslug) as [-> _]. rewrite (squeeze_fixed s Hs).
  destruct (slug_fixed s Hslug) as [_ ->].
  rewrite (drop_underscores_fixed s Hh), drop_underscores_fixed.
  - apply reverse_involutive.
  - by rewrite head_reverse.
Qed.

(** X6.  Sanitizing twice is sanitizing once: the paths built from a sanitized
    title are those built from the title. *)
Theorem sanitizeTitle_idempotent (title : jsstring) :
  sanitizeTitle (sanitizeTitle title) = sanitizeTitle title.
Proof.
  destruct (sanitizeTitle_shape_parts title) as (Hh & Hl & Hs).
  by apply sanitizeTitle_fixed; [apply sanitizeTitle_slug|..].
Qed.

Lemma squeeze_lower s : squeeze (toLowerCase s) = toLowerCase (squeeze s).
Proof.
  unfold toLowerCase. induction s as [|c s IH]; [done|].
  rewrite fmap_cons, !squeeze_cons. destruct s as [|c' s']; [done|].
  rewrite IH. rewrite fmap_cons.
  assert (∀ a, (lower_unit a =? underscore)%N = (a =? underscore)%N) as Heq.
  { intros a. destruct (N.eqb_spec a underscore) as [->|Ha]; [done|].
    apply N.eqb_neq. by rewrite lower_unit_underscore. }
  rewrite !Heq. by destruct (_ && _).
Qed.

Lemma lower_unit_idem c : lower_unit (lower_unit c) = lower_unit c.
Proof.
  destruct (lower_unit_cases c) as [[? ->]|[? ->]];
    [|by destruct (lower_unit_cases c) as [[? ?]|[? ->]]].
  destruct (lower_unit_cases (c + 32)) as [[? ?]|[? ->]]; [lia | done].
Qed.

Lemma mask_lower c :
  lower_unit (if is_alnum (lower_unit c) then lower_unit c else underscore)
  = lower_unit (if is_alnum c then c else underscore).
Proof.
  assert (is_alnum (lower_unit c) = is_alnum c) as ->.
  { destruct (lower_unit_cases c) as [[? ->]|[? ->]]; [|done].
    unfold is_alnum.
    repeat match goal with
           | |- context [(?a <=? ?b)%N] => destruct (N.leb_spec a b)
           end; simpl; try done; lia. }
  destruct (is_alnum c); [apply lower_unit_idem | done].
Qed.

(** X7.  The case of the letters does not matter: titles that differ only in
    the case of their letters get the same artifact paths. *)
Theorem sanitizeTitle_ignores_case (title : jsstring) :
  sanitizeTitle (toLowerCase title) = sanitizeTitle title.
Proof.
  unfold sanitizeTitle. do 4 f_equal.
  set (mask := λ c, if is_alnum c then c else underscore).
  assert (toLowerCase (mask <$> toLowerCase title) = toLowerCase (mask <$> title))
    as Hmask.
  { unfold toLowerCase. rewrite <- !list_fmap_compose.
    apply list_fmap_ext. intros _ c _. apply mask_lower. }
  by rewrite <- !squeeze_lower, Hmask.
Qed.

(** ** The title cache: [getShortTitle] *)

Lemma getShortTitle_cases E ttl w :
  (∃ c s, shortTitleCache w !! ttl = Some (c :: s)
          ∧ getShortTitle E ttl w = (Returns (c :: s), w))
  ∨ ((shortTitleCache w !! ttl = None ∨ shortTitleCache w !! ttl = Some [])
     ∧ let st := match openai E (clock w) (Shorten ttl) with
                 | Some answer => answer
                 | None => ttl
                 end in
       getShortTitle E ttl w =
         (Returns st,
          {| fs := fs w;
             shortTitleCache := <[ttl := st]> (shortTitleCache w);
             trace := trace w ++ [Completion (Shorten ttl)] |})).
Proof.
  unfold getShortTitle, shortenTitle, complete, bind, get, emit, ret, clock.
  destruct (shortTitleCache w !! ttl) as [[|c s]|] eqn:Hc.
  - right. split; [by right|]. simpl. by destruct (openai _ _ _).
  - left. by exists c, s.
  - right. split; [by left|]. simpl. by destruct (openai _ _ _).
Qed.

Lemma getShortTitle_hit E ttl w st :
  shortTitleCache w !! ttl = Some st → st ≠ [] →
  getShortTitle E ttl w = (Returns st, w).
Proof.
  intros Hc Hne.
  destruct (getShortTitle_cases E ttl w) as [(c & s & Hc' & ->)|[[Hc'|Hc'] _]];
    congruence.
Qed.

(** X8.  Once [getShortTitle] has given a short title that is not empty, it
    gives the same one for that title ever after and asks the service no
    more, whatever the service would answer. *)
Theorem short_title_is_cached E E' ttl w w1 st w2 :
  ttl ∉ prototype_keys →
  getShortTitle E ttl w = (Returns st, w1) →
  st ≠ [] →
  shortTitleCache w2 !! ttl = shortTitleCache w1 !! ttl →
  getShortTitle E' ttl w2 = (Returns st, w2).
Proof.
  intros _ Hrun Hne Hsame. apply getShortTitle_hit; [|done]. rewrite Hsame.
  destruct (getShortTitle_cases E ttl w) as [(c & s & Hc & Heq)|[_ Heq]];
    simpl in Heq; rewrite Heq in Hrun; injection Hrun as <- <-; [done|].
  simpl. by rewrite lookup_insert_eq.
Qed.

Lemma short_title_is_cached_witness :
  let E := studio SpeechRejects true true None in
  getShortTitle E (js "A question") (getShortTitle E (js "A question") fresh).2
  = (Returns (js "A question"), (getShortTitle E (js "A question") fresh).2).
Proof.
  apply (short_title_is_cached (studio SpeechRejects true true None)
           (studio SpeechRejects true true None)
           (js "A question") fresh
           (getShortTitle (studio SpeechRejects true true None)
              (js "A question") fresh).2);
    [by apply (bool_decide_unpack _); vm_compute
    | reflexivity | discriminate | reflexivity].
Defined.

(** X9.  A shortening request that fails is not tried again: the title itself is
    stored as its short title and served from then on. *)
Theorem failed_shortening_is_cached E ttl w :
  ttl ∉ prototype_keys →
  ttl ≠ [] →
  shortTitleCache w !! ttl = None →
  openai E (clock w) (Shorten ttl) = None →
  ∃ w1, getShortTitle E ttl w = (Returns ttl, w1)
        ∧ shortTitleCache w1 !! ttl = Some ttl
        ∧ ∀ E', getShortTitle E' ttl w1 = (Returns ttl, w1).
Proof.
  intros _ Hne Hc Hfail.
  destruct (getShortTitle_cases E ttl w) as [(c & s & Hc' & _)|[_ Heq]];
    [congruence|].
  simpl in Heq. rewrite Hfail in Heq. eexists. split; [exact Heq|].
  simpl. rewrite lookup_insert_eq. split; [done|].
  intros E'. apply getShortTitle_hit; [|done]. simpl. by rewrite lookup_insert_eq.
Qed.

Lemma failed_shortening_is_cached_witness :
  ∃ w1, getShortTitle (studio SpeechRejects true true None) (js "A question") fresh
        = (Returns (js "A question"), w1)
        ∧ shortTitleCache w1 !! js "A question" = Some (js "A question")
        ∧ ∀ E', getShortTitle E' (js "A question") w1
                = (Returns (js "A question"), w1).
Proof.
  apply (failed_shortening_is_cached (studio SpeechRejects true true None)
           (js "A question") fresh);
    [by apply (bool_decide_unpack _); vm_compute
    | discriminate | reflexivity | reflexivity].
Defined.

(** X10.  An empty short title in the cache counts as no entry: the service is
    asked again. *)
Theorem empty_short_title_is_requested_again E ttl w :
  shortTitleCache w !! ttl = Some [] →
  trace (getShortTitle E ttl w).2 = trace w ++ [Completion (Shorten ttl)].
Proof.
  intros Hc.
  destruct (getShortTitle_cases E ttl w) as [(c & s & Hc' & _)|[_ Heq]];
    [congruence|].
  simpl in Heq. by rewrite Heq.
Qed.

Lemma empty_short_title_is_requested_again_witness :
  trace (getShortTitle (studio SpeechRejects true true None) (js "A question")
           {| fs := ∅; shortTitleCache := {[ js "A question" := [] ]};
              trace := [] |}).2
  = [] ++ [Completion (Shorten (js "A question"))].
Proof.
  apply (empty_short_title_is_requested_again
           (studio SpeechRejects true true None) (js "A question")
           {| fs := ∅; shortTitleCache := {[ js "A question" := [] ]};
              trace := [] |}).
  reflexivity.
Defined.


(** ** Which failures stay inside a turn, and which leave the run *)







Lemma createVideo_fails E bg audio shot out w :
  (∀ t q, ffprobe E t q = false) ∨ (∀ t c, ffmpeg E t c = false) →
  ∃ e w' evs,
    createVideo E bg audio shot out w = (Rejects e, w')
    ∧ fs w' = fs w ∧ trace w' = trace w ++ evs
    ∧ Forall (λ ev, is_upload ev = false) evs.
Proof.
  intros Hfail. unfold createVideo, bind at 1.
  unfold getAudioDuration, bind, get, emit. simpl.
  destruct (fs w !! audio) as [[d| |]|] eqn:Ha;
    try (do 3 eexists; split; [reflexivity|]; simpl;
         split; [done|]; split; [done | by repeat constructor]).
  destruct (ffprobe E (clock w) audio) eqn:Hp; simpl.
  - destruct Hfail as [Hfail|Hfail]; [by rewrite Hfail in Hp|].
    rewrite Hfail. simpl.
    do 3 eexists. split; [reflexivity|]. simpl.
    split; [done|]. split; [by rewrite <- app_assoc | by repeat constructor].
  - do 3 eexists. split; [reflexivity|]. simpl.
    split; [done|]. split; [done | by repeat constructor].
Qed.

Lemma quiet_no_upload evs :
  Forall quiet evs → Forall (λ ev, is_upload ev = false) evs.
Proof. intros H. eapply Forall_impl; [exact H|]. by intros ? [? _]. Qed.

(** X12.  A failed probe or encoder run costs only its segment: the turn returns
    without an upload, so the loop goes on with the next segment. *)
Theorem composite_failure_is_local E p folder st n seg i w :
  is_Some (fs w !! audioPath folder st i) →
  is_Some (fs w !! screenshotPath folder st (Some i)) →
  fs w !! videoPath folder st i = None →
  (∀ t q, ffprobe E t q = false) ∨ (∀ t c, ffmpeg E t c = false) →
  ∃ w' evs,
    process_segment E p folder st n seg i w = (Returns (), w')
    ∧ trace w' = trace w ++ evs
    ∧ Forall (λ ev, is_upload ev = false) evs.
Proof.
  intros Ha Hs Hv Hfail. unfold process_segment, bind at 1.
  destruct (speech_step E seg st folder i w)
    as (r1 & w1 & evs1 & -> & _ & _ & _ & Hp1 & _).
  destruct (Hp1 Ha) as (-> & -> & ->). clear Hp1.
  unfold bind at 1.
  destruct (screenshot_step E p st folder seg (Some i) w)
    as (r2 & w2 & evs2 & -> & [Ht2 _] & Hq2 & _ & Hp2).
  destruct (Hp2 Hs) as (-> & Hf2 & _). clear Hp2.
  unfold bind at 1, existsSync, get.
  rewrite Hf2, Hv, bool_decide_false by (by intros [??]).
  unfold bind at 1, catch at 1.
  destruct (createVideo_fails E backgroundVideoPath (audioPath folder st i)
              (screenshotPath folder st (Some i)) (videoPath folder st i) w2 Hfail)
    as (e & w3 & evs3 & -> & Hf3 & Ht3 & Hq3).
  exists w3, (evs2 ++ evs3). split; [done|].
  split; [by rewrite Ht3, Ht2, <- app_assoc|].
  apply Forall_app. split; [by apply quiet_no_upload | done].
Qed.

Lemma composite_failure_is_local_witness :
  ∃ w' evs,
    process_segment (studio SpeechRejects false true None) short_story
      (js "AmItheAsshole") (js "A question") 1 (js "Was I wrong?") 1 (stage 600 42)
    = (Returns (), w')
    ∧ trace w' = trace (stage 600 42) ++ evs
    ∧ Forall (λ ev, is_upload ev = false) evs.
Proof.
  apply (composite_failure_is_local (studio SpeechRejects false true None));
    [by eexists | by eexists | reflexivity | by left].
Defined.

(** X13.  A failed caption render is not caught anywhere: the turn rejects, and
    with it the loop, so the segments after it are not processed. *)
Theorem render_failure_ends_loop E p folder st n seg rest i w :
  is_Some (fs w !! audioPath folder st (i + 1)) →
  fs w !! screenshotPath folder st (Some (i + 1)) = None →
  (∀ t c, puppeteer E t c = false) →
  ∃ w' evs,
    process_segments E p folder st n i (seg :: rest) w = (Rejects RenderError, w')
    ∧ trace w' = trace w ++ evs
    ∧ Forall (λ ev, is_upload ev = false ∧ ∀ text, ev ≠ Speech text) evs.
Proof.
  intros Ha Hs Hfail.
  assert (∃ w' evs,
            process_segment E p folder st n seg (i + 1) w
            = (Rejects RenderError, w')
            ∧ fs w' = fs w ∧ trace w' = trace w ++ evs
            ∧ Forall (λ ev, is_upload ev = false ∧ ∀ text, ev ≠ Speech text) evs)
    as (w' & evs & Hturn & Hrest).
  { unfold process_segment, bind at 1.
    destruct (speech_step E seg st folder (i + 1) w)
      as (r1 & w1 & evs1 & -> & _ & _ & _ & Hp1 & _).
    destruct (Hp1 Ha) as (-> & -> & ->). clear Hp1.
    unfold bind at 1, generateScreenshot, bind at 1.
    destruct seg as [|c0 seg].
    - unfold bind at 1. destruct (correctText_step E (selftext p) w) as [t ->].
      unfold ret at 1. unfold bind, existsSync, get. simpl.
      rewrite Hs, bool_decide_false by (by intros [??]). rewrite Hfail.
      do 2 eexists. split; [reflexivity|]. simpl.
      split; [done|]. split; [by rewrite <- app_assoc|]. by repeat constructor.
    - unfold ret at 1. unfold bind, existsSync, get. simpl.
      rewrite Hs, bool_decide_false by (by intros [??]). rewrite Hfail.
      do 2 eexists. split; [reflexivity|]. simpl.
      split; [done|]. split; [done|]. by repeat constructor. }
  exists w', evs. split; [|by destruct Hrest as (_ & ? & ?)].
  rewrite rejected_turn_ends_loop with (e := RenderError); [done|].
  by rewrite Hturn.
Qed.

Lemma render_failure_ends_loop_witness :
  ∃ w' evs,
    process_segments broken_renderer short_story (js "AmItheAsshole")
      (js "A question") 2 0 [js "Was I wrong?"; js "Tell me."] narrated
    = (Rejects RenderError, w')
    ∧ trace w' = trace narrated ++ evs
    ∧ Forall (λ ev, is_upload ev = false ∧ ∀ text, ev ≠ Speech text) evs.
Proof.
  apply (render_failure_ends_loop broken_renderer short_story
           (js "AmItheAsshole") (js "A question") 2
           (js "Was I wrong?") [js "Tell me."] 0 narrated);
    [by eexists | reflexivity | reflexivity].
Defined.

(** ** Chunk names and their numbers *)

Lemma decimal_digits n : Forall (λ c, is_digit c = true) (decimal n).
Proof.
  unfold decimal, js. generalize (Nat.to_uint n).
  induction u; simpl; constructor; done.
Qed.

Lemma decimal_nonempty n : decimal n ≠ [].
Proof.
  unfold decimal, js. destruct (Nat.to_uint n) eqn:Hu; try done.
  pose proof (DecimalNat.Unsigned.of_to n) as Hn. rewrite Hu in Hn.
  simpl in Hn. subst n. discriminate.
Qed.

Lemma parseInt_acc u acc :
  fold_left (λ n c, 10 * n + N.to_nat (c - 48)) (js (NilEmpty.string_of_uint u)) acc
  = Nat.of_uint_acc u acc.
Proof.
  unfold js. revert acc.
  induction u; intros acc; simpl; [done|..];
    rewrite IHu, Nat.tail_mul_spec; f_equal; simpl; lia.
Qed.

Lemma parseInt_decimal n : parseInt (decimal n) = n.
Proof.
  unfold parseInt, decimal. rewrite parseInt_acc.
  apply DecimalNat.Unsigned.of_to.
Qed.

Lemma digits_of_run ds r :
  Forall (λ c, is_digit c = true) ds →
  (∀ c, head r = Some c → is_digit c = false) →
  digits_of (ds ++ r) = (ds, r).
Proof.
  intros Hds Hr. induction Hds as [|c ds Hc _ IH]; cbn [app digits_of].
  - destruct r as [|c r]; [done|]. cbn [digits_of]. by rewrite (Hr c).
  - by rewrite Hc, IH.
Qed.

Lemma segment_number_name n : segment_number (segment_name n) = Some n.
Proof.
  unfold segment_name. destruct (decimal n ++ js ".mp4") as [|c s] eqn:Hs.
  { by destruct (decimal n) eqn:Hd; [destruct (decimal_nonempty n)|]. }
  rewrite <- Hs. clear Hs.
  assert (segment_number_here (js "segment_" ++ decimal n ++ js ".mp4") = Some n)
    as Hhere.
  { unfold segment_number_here.
    change (starts_with (js "segment_") (js "segment_" ++ decimal n ++ js ".mp4"))
      with (starts_with [] (decimal n ++ js ".mp4")).
    change (drop 8 (js "segment_" ++ decimal n ++ js ".mp4"))
      with (decimal n ++ js ".mp4").
    rewrite (digits_of_run (decimal n) (js ".mp4") (decimal_digits n))
      by (by intros ? [= <-]).
    simpl. destruct (decimal n) eqn:Hd; [by destruct (decimal_nonempty n)|].
    rewrite <- Hd. by rewrite parseInt_decimal. }
  change (js "segment_" ++ decimal n ++ js ".mp4")
    with (115%N :: (js "egment_" ++ decimal n ++ js ".mp4")) at 1.
  unfold segment_number; fold segment_number.
  change (115%N :: (js "egment_" ++ decimal n ++ js ".mp4"))
    with (js "segment_" ++ decimal n ++ js ".mp4").
  by rewrite Hhere.
Qed.

(** X14.  The number that the sort of [splitVideo] reads from a chunk's name is
    the number the segment muxer wrote into it, for the numbers that a
    Number holds exactly. *)
Theorem segment_number_of_name (n : nat) :
  (Z.of_nat n ≤ max_exact)%Z →
  segment_number (segment_name n) = Some n.
Proof. intros _. apply segment_number_name. Qed.

Lemma segment_number_of_name_witness :
  segment_number (segment_name 10) = Some 10.
Proof. apply (segment_number_of_name 10). by vm_compute. Defined.

Lemma insert_sorted_perm x l : insert_sorted x l ≡ₚ x :: l.
Proof.
  induction l as [|y l IH]; [done|]. simpl.
  destruct (x.1 <=? y.1); [done|]. by rewrite IH, Permutation_swap.
Qed.

Lemma insert_sorted_sorted x l :
  StronglySorted (λ a b : nat * jsstring, a.1 ≤ b.1) l →
  StronglySorted (λ a b : nat * jsstring, a.1 ≤ b.1) (insert_sorted x l).
Proof.
  induction 1 as [|y l Hl IH Hy]; simpl; [by repeat constructor|].
  destruct (Nat.leb_spec x.1 y.1) as [Hle|Hlt].
  - constructor; [by constructor|]. constructor; [done|].
    eapply Forall_impl; [exact Hy|]. simpl. lia.
  - constructor; [done|]. rewrite insert_sorted_perm.
    constructor; [lia | done].
Qed.

Lemma sort_pairs (l : list (nat * jsstring)) :
  foldr insert_sorted [] l ≡ₚ l
  ∧ StronglySorted (λ a b : nat * jsstring, a.1 ≤ b.1) (foldr insert_sorted [] l).
Proof.
  induction l as [|x l [IHp IHs]]; simpl; [by split; [|constructor]|].
  split; [by rewrite insert_sorted_perm, IHp | by apply insert_sorted_sorted].
Qed.

Lemma sorted_by_fmap {A B} (R : A → A → Prop) (S : B → B → Prop)
    (f : A → B) l :
  Forall (λ a, ∀ b, b ∈ l → R a b → S (f a) (f b)) l →
  StronglySorted R l → StronglySorted S (f <$> l).
Proof.
  intros HRS Hs. induction Hs as [|a l Hl IH Ha]; [constructor|].
  apply Forall_cons in HRS as [Ha' HRS]. rewrite fmap_cons. constructor.
  - apply IH. eapply Forall_impl; [exact HRS|]. simpl.
    intros b Hb c Hc. apply Hb. by right.
  - rewrite Forall_fmap. apply Forall_forall. intros b Hb. simpl.
    apply Ha'; [by right|]. by eapply Forall_forall in Ha.
Qed.

Lemma sort_segments_sorted (names sorted : list jsstring) :
  sort_segments names = Some sorted →
  sorted ≡ₚ names
  ∧ StronglySorted
      (λ a b, ∃ m n, segment_number a = Some m ∧ segment_number b = Some n ∧ m ≤ n)
      sorted.
Proof.
  unfold sort_segments. intros H.
  destruct names as [|a [|b names]].
  - injection H as <-. split; [done | constructor].
  - injection H as <-. split; [done | by repeat constructor].
  - set (l := a :: b :: names) in *. clearbody l.
    destruct (mapM _ l) as [numbered|] eqn:Hm; [|done].
    simpl in H. injection H as <-.
    apply mapM_Some in Hm.
    assert (numbered.*2 = l ∧ Forall (λ x, segment_number x.2 = Some x.1) numbered)
      as [Hnames Hnum].
    { clear -Hm. induction Hm as [|name x l numbered Hx _ [IH1 IH2]]; [done|].
      destruct (segment_number name) as [n|] eqn:Hn; [|done].
      simpl in Hx. injection Hx as <-. rewrite fmap_cons, IH1.
      split; [done | by constructor]. }
    destruct (sort_pairs numbered) as [Hp Hs].
    split; [by rewrite Hp, Hnames|].
    eapply sorted_by_fmap; [|exact Hs].
    apply Forall_forall. intros x Hx y Hy Hxy.
    rewrite Hp in Hx, Hy.
    exists x.1, y.1. split; [|split; [|done]].
    + by eapply Forall_forall in Hnum.
    + by eapply (proj1 (Forall_forall _ _) Hnum).
Qed.

(** X15.  The sort of [splitVideo] rearranges the names it is given and leaves
    them in the order of their numbers, not of their spelling, when the
    numbers are ones that a Number holds exactly. *)
Theorem sort_segments_numeric (names sorted : list jsstring) :
  Forall exact_number names →
  sort_segments names = Some sorted →
  sorted ≡ₚ names
  ∧ StronglySorted
      (λ a b, ∃ m n, segment_number a = Some m ∧ segment_number b = Some n ∧ m ≤ n)
      sorted.
Proof. intros _. apply sort_segments_sorted. Qed.

Lemma sort_segments_numeric_witness :
  [segment_name 2; segment_name 10] ≡ₚ [segment_name 10; segment_name 2]
  ∧ StronglySorted
      (λ a b, ∃ m n, segment_number a = Some m ∧ segment_number b = Some n ∧ m ≤ n)
      [segment_name 2; segment_name 10].
Proof.
  apply (sort_segments_numeric [segment_name 10; segment_name 2]);
    [|reflexivity].
  repeat constructor; intros n Hn; vm_compute in Hn; injection Hn as <-;
    by vm_compute.
Defined.

(** ** What is uploaded, and with which description *)

Lemma drop_to_slash_app b a :
  Forall (λ c, c ≠ 47%N) b → drop_to_slash (b ++ 47%N :: a) = a.
Proof.
  induction 1 as [|c b Hc _ IH]; simpl; [done|].
  by destruct (N.eqb_spec c 47).
Qed.

Lemma dirname_app a b :
  Forall (λ c, c ≠ 47%N) b → dirname (a ++ js "/" ++ b) = a.
Proof.
  intros Hb. unfold dirname. change (js "/") with [47%N].
  rewrite !reverse_app, <- app_assoc. change (reverse [47%N]) with [47%N]. simpl.
  rewrite drop_to_slash_app by (by apply Forall_reverse).
  apply reverse_involutive.
Qed.

Lemma literal_no_slash (s : jsstring) :
  forallb (λ c, negb (c =? 47)%N) s = true → Forall (λ c, c ≠ 47%N) s.
Proof.
  intros H. apply Forall_forall. intros c Hc Heq.
  rewrite forallb_forall in H. apply list_elem_of_In, H in Hc.
  subst c. done.
Qed.

Lemma slug_no_slash (s : jsstring) :
  Forall (λ c, is_slug_unit c = true) s → Forall (λ c, c ≠ 47%N) s.
Proof. intros H. eapply Forall_impl; [exact H|]. by intros c Hc ->. Qed.

Lemma digits_no_slash (s : jsstring) :
  Forall (λ c, is_digit c = true) s → Forall (λ c, c ≠ 47%N) s.
Proof. intros H. eapply Forall_impl; [exact H|]. by intros c Hc ->. Qed.

Lemma description_path_of_video (folder st : jsstring) (i : nat) :
  description_of_video (videoPath folder st i) = descriptionPath folder st.
Proof.
  set (name := js "video_" ++ sanitizeTitle st ++ js "_part" ++ decimal i
               ++ js ".mp4").
  assert (videoPath folder st i
          = (artifact_dir folder st ++ js "/" ++ js "ogVid") ++ js "/" ++ name)
    as ->.
  { unfold videoPath, name. by rewrite <- !app_assoc. }
  unfold description_of_video, descriptionPath. f_equal.
  rewrite dirname_app.
  - by apply dirname_app, literal_no_slash.
  - unfold name. repeat apply Forall_app_2.
    + by apply literal_no_slash.
    + apply slug_no_slash, sanitizeTitle_slug.
    + by apply literal_no_slash.
    + apply digits_no_slash, decimal_digits.
    + by apply literal_no_slash.
Qed.

(** X16.  The description file that [uploadToYouTube] works out from the path of
    a segment's video is the one [generateDescription] writes for the
    post. *)
Theorem description_of_video_path (folder st : jsstring) (i : nat) :
  description_of_video (videoPath folder st i) = descriptionPath folder st.
Proof. apply description_path_of_video. Qed.

Lemma upload_exact E path ttl w :
  ∃ r ok,
    uploadToYouTube E path ttl w =
      (r, {| fs := fs w; shortTitleCache := shortTitleCache w;
             trace := trace w
               ++ [Upload path (fs w !! path) ttl
                     (match fs w !! description_of_video path with
                      | Some (Text d) => d
                      | _ => []
                      end) ok] |}).
Proof.
  unfold uploadToYouTube, bind, get, emit. simpl.
  destruct (bool_decide _ && youtube E _ _ _); by do 2 eexists.
Qed.

Lemma quiet_filter evs : Forall quiet evs → List.filter is_upload evs = [].
Proof.
  induction 1 as [|e evs [He _] _ IH]; [done|]. simpl. by rewrite He.
Qed.

Lemma description_not_audio folder st i :
  descriptionPath folder st ≠ audioPath folder st i.
Proof.
  intros H. pose proof (description_last folder st) as Hd.
  rewrite H, audioPath_last in Hd. discriminate.
Qed.

Lemma description_not_screenshot folder st i :
  descriptionPath folder st ≠ screenshotPath folder st i.
Proof.
  intros H. pose proof (description_last folder st) as Hd.
  rewrite H, screenshotPath_last in Hd. discriminate.
Qed.

Lemma description_not_video folder st i :
  descriptionPath folder st ≠ videoPath folder st i.
Proof.
  intros H. pose proof (description_last folder st) as Hd.
  rewrite H, videoPath_last in Hd. discriminate.
Qed.

(** One turn uploads at most once: the segment's video, under the title of
    its part, with the description the store holds for the post. *)
Lemma turn_uploads E p folder st n seg i w :
  ∃ r w' evs,
    process_segment E p folder st n seg i w = (r, w')
    ∧ trace w' = trace w ++ evs
    ∧ fs w' !! descriptionPath folder st = fs w !! descriptionPath folder st
    ∧ (List.filter is_upload evs = []
       ∨ ∃ e, List.filter is_upload evs = [e]
              ∧ upload_of folder st n (stored_description (fs w) folder st) i e).
Proof.
  unfold process_segment, bind at 1.
  destruct (speech_step E seg st folder i w)
    as (r1 & w1 & evs1 & -> & [Ht1 Hf1] & Hq1 & Ha1 & _).
  pose proof (Hf1 _ (description_not_audio folder st i)) as Hd1.
  destruct r1 as [[a|]|e];
    [|by exists (Returns ()), w1, evs1; repeat split; [..|left; apply quiet_filter]
     |by exists (Rejects e), w1, evs1; repeat split; [..|left; apply quiet_filter]].
  pose proof (Ha1 a eq_refl) as ->. clear Ha1.
  unfold bind at 1.
  destruct (screenshot_step E p st folder seg (Some i) w1)
    as (r2 & w2 & evs2 & -> & [Ht2 Hf2] & Hq2 & Ha2 & _).
  pose proof (Hf2 _ (description_not_screenshot folder st (Some i))) as Hd2.
  assert (Forall quiet (evs1 ++ evs2)) as Hq12 by (by apply Forall_app).
  destruct r2 as [x|e].
  2:{ exists (Rejects e), w2, (evs1 ++ evs2). split; [done|].
      split; [by rewrite Ht2, Ht1, <- app_assoc|].
      split; [by rewrite Hd2|]. left. by apply quiet_filter. }
  destruct (Ha2 x eq_refl) as [-> _]. clear Ha2.
  set (vp := videoPath folder st i).
  unfold bind at 1, existsSync, get. fold vp.
  case_bool_decide as Hpresent.
  - unfold bind at 1, ret. unfold bind, catch.
    destruct (upload_exact E vp (part_title st n i) w2) as (r3 & ok & Hup).
    unfold part_title in Hup. rewrite Hup. clear Hup.
    eexists (Returns ()), _, ((evs1 ++ evs2) ++ [_]).
    split; [by destruct r3|]. simpl.
    split; [by rewrite Ht2, Ht1, <- !app_assoc|].
    split; [by rewrite Hd2|]. right. eexists.
    rewrite List.filter_app, (quiet_filter _ Hq12). simpl.
    split; [done|]. do 2 eexists. unfold vp, stored_description.
    by rewrite description_path_of_video, Hd2, Hd1.
  - unfold bind at 1, catch at 1.
    destruct (createVideo_step E backgroundVideoPath (audioPath folder st i)
                (screenshotPath folder st (Some i)) vp w2)
      as (r3 & w3 & evs3 & -> & Ht3 & Hq3 & Hr3).
    assert (Forall quiet ((evs1 ++ evs2) ++ evs3)) as Hq123 by (by apply Forall_app).
    destruct r3 as [x|e].
    2:{ exists (Returns ()), w3, ((evs1 ++ evs2) ++ evs3). split; [done|].
        rewrite Hr3.
        split; [by rewrite Ht3, Ht2, Ht1, <- !app_assoc|].
        split; [by rewrite Hd2|]. left. by apply quiet_filter. }
    destruct Hr3 as (-> & d & Hfs3).
    assert (fs w3 !! descriptionPath folder st = fs w !! descriptionPath folder st)
      as Hd3.
    { rewrite Hfs3, lookup_insert_ne; [by rewrite Hd2|].
      intros H. by apply (description_not_video folder st i). }
    unfold bind, catch.
    destruct (upload_exact E vp (part_title st n i) w3) as (r4 & ok & Hup).
    unfold part_title in Hup. rewrite Hup. clear Hup.
    eexists (Returns ()), _, (((evs1 ++ evs2) ++ evs3) ++ [_]).
    split; [by destruct r4|]. simpl.
    split; [by rewrite Ht3, Ht2, Ht1, <- !app_assoc|].
    split; [done|]. right. eexists.
    rewrite List.filter_app, (quiet_filter _ Hq123). simpl.
    split; [done|]. do 2 eexists. unfold vp, stored_description.
    by rewrite description_path_of_video, Hd3.
Qed.

Lemma loop_uploads E p folder st n segs i0 w :
  ∃ r w' evs idxs,
    process_segments E p folder st n i0 segs w = (r, w')
    ∧ trace w' = trace w ++ evs
    ∧ fs w' !! descriptionPath folder st = fs w !! descriptionPath folder st
    ∧ sublist idxs (seq (i0 + 1) (length segs))
    ∧ Forall2 (upload_of folder st n (stored_description (fs w) folder st))
        idxs (List.filter is_upload evs).
Proof.
  revert i0 w. induction segs as [|seg rest IH]; intros i0 w.
  - exists (Returns ()), w, [], []. rewrite app_nil_r. by repeat split.
  - cbn [process_segments length]. unfold bind.
    destruct (turn_uploads E p folder st n seg (i0 + 1) w)
      as (r1 & w1 & evs1 & -> & Ht1 & Hd1 & Hup1).
    assert (∃ idxs, sublist idxs [i0 + 1]
              ∧ Forall2 (upload_of folder st n (stored_description (fs w) folder st))
                  idxs (List.filter is_upload evs1)) as (idxs1 & Hs1 & Hu1).
    { destruct Hup1 as [->|(e & -> & He)].
      - exists []. split; [apply sublist_nil_l | constructor].
      - exists [i0 + 1]. split; [done | by repeat constructor]. }
    cbn [seq]. change (i0 + 1 :: seq (S (i0 + 1)) (length rest))
      with ([i0 + 1] ++ seq (S (i0 + 1)) (length rest)).
    destruct r1 as [[]|e].
    2:{ exists (Rejects e), w1, evs1, idxs1. repeat split; try done.
        by apply sublist_inserts_r. }
    destruct (IH (i0 + 1) w1) as (r & w' & evs2 & idxs2 & -> & Ht2 & Hd2 & Hs2 & Hu2).
    exists r, w', (evs1 ++ evs2), (idxs1 ++ idxs2).
    split; [done|]. split; [by rewrite Ht2, Ht1, <- app_assoc|].
    split; [by rewrite Hd2|].
    split; [apply sublist_app; [done | by rewrite Nat.add_1_r in Hs2]|].
    rewrite List.filter_app. apply Forall2_app; [done|].
    unfold stored_description in *. by rewrite <- Hd1.
Qed.


Lemma post_uploads E p folder w :
  post_gate p = Accept →
  ∃ st segs w1 r w2 evs0 evs idxs,
    prepare_post E p folder w = (Returns (st, segs), w1)
    ∧ processPost E p folder w = (r, w2)
    ∧ trace w1 = trace w ++ evs0
    ∧ List.filter is_upload evs0 = []
    ∧ trace w2 = trace w1 ++ evs
    ∧ fs w2 !! descriptionPath folder st = fs w1 !! descriptionPath folder st
    ∧ sublist idxs (seq 1 (length segs))
    ∧ Forall2 (upload_of folder st (length segs)
                 (stored_description (fs w1) folder st))
        idxs (List.filter is_upload evs).
Proof.
  intros Hgate. unfold processPost. rewrite Hgate. unfold bind.
  destruct (prepare_spec E p folder w)
    as (st & segs & w1 & evs0 & Hprep & Ht0 & Hq0 & _).
  rewrite Hprep.
  destruct (loop_uploads E p folder st (length segs) segs 0 w1)
    as (r & w2 & evs & idxs & Hloop & Ht & Hd & Hs & Hu).
  exists st, segs, w1, r, w2, evs0, evs, idxs.
  repeat split; try done.
  apply quiet_filter. eapply Forall_impl; [exact Hq0|]. by intros ? [? _].
Qed.

(** X17.  The uploads of a post follow its segments: in the order of the
    segments, at most one for each, the segment's own video under the title
    of its part, all with the description the store holds for the post. *)
Theorem uploads_follow_segments E p folder w :
  ∃ st segs idxs evs,
    (post_gate p = Accept →
       (prepare_post E p folder w).1 = Returns (st, segs))
    ∧ trace (processPost E p folder w).2 = trace w ++ evs
    ∧ sublist idxs (seq 1 (length segs))
    ∧ Forall2 (upload_of folder st (length segs)
                 (stored_description (fs (processPost E p folder w).2) folder st))
        idxs (List.filter is_upload evs).
Proof.
  destruct (post_gate p) eqn:Hgate.
  1,2: exists [], [], [], []; rewrite gate_precedes_assets, app_nil_r
         by (by rewrite Hgate); by repeat split; try constructor.
  destruct (post_uploads E p folder w Hgate)
    as (st & segs & w1 & r & w2 & evs0 & evs & idxs
        & -> & -> & Ht0 & Hq0 & Ht & Hd & Hs & Hu).
  exists st, segs, idxs, (evs0 ++ evs). simpl.
  split; [done|]. split; [by rewrite Ht, Ht0, <- app_assoc|]. split; [done|].
  rewrite List.filter_app, Hq0. simpl.
  unfold stored_description in *. by rewrite Hd.
Qed.



Lemma carries_quiet d l : List.filter is_upload l = [] → Forall (carries d) l.
Proof.
  induction l as [|e l IH]; [constructor|]. simpl.
  destruct (is_upload e) eqn:He; [done|]. intros Hl.
  constructor; [by destruct e | by apply IH].
Qed.

Lemma carries_uploads folder st n d idxs evs :
  Forall2 (upload_of folder st n d) idxs (List.filter is_upload evs) →
  Forall (carries d) evs.
Proof.
  remember (List.filter is_upload evs) as ups eqn:Hups. intros Hu.
  revert evs Hups. induction Hu as [|i e idxs ups He _ IH]; intros evs Hups.
  - by apply carries_quiet.
  - induction evs as [|e' evs IHevs]; [done|]. simpl in Hups.
    destruct (is_upload e') eqn:He'.
    + injection Hups as <- Hups. constructor; [|by apply IH].
      by destruct He as (clip & ok & ->).
    + constructor; [by destruct e' | by apply IHevs].
Qed.

Lemma prepare_description E p folder w st segs w1 :
  prepare_post E p folder w = (Returns (st, segs), w1) →
  ∃ t, stored_description (fs w1) folder st
       = match openai E t (Describe (title p) (selftext p)) with
         | Some answer => answer
         | None => stored_description (fs w) folder st
         end.
Proof.
  unfold prepare_post, bind at 1.
  destruct (correctText_step E (title p ++ js "

" ++ selftext p) w) as [t ->].
  unfold bind at 1.
  match goal with |- context [getShortTitle E (title p) ?w0] =>
    destruct (getShortTitle_step E (title p) w0) as (st' & w' & evs' & -> & Hf & _)
  end.
  simpl in Hf. unfold bind, generateDescription, bind. rewrite complete_step.
  intros Hrun. exists (clock w'). unfold stored_description. revert Hrun.
  destruct (openai _ _ _) as [answer|]; simpl; intros [= <- _ <-]; simpl.
  - by rewrite lookup_insert_eq.
  - by rewrite Hf.
Qed.

(** X19.  When the describer fails, the description file is left as it is, and
    the uploads of the run go out with the description that an earlier run
    left in the store for the post, or with an empty one. *)
Theorem failed_description_leaves_old E p folder w :
  (∀ t, openai E t (Describe (title p) (selftext p)) = None) →
  ∃ st,
    (post_gate p = Accept →
       ∃ segs, (prepare_post E p folder w).1 = Returns (st, segs))
    ∧ Forall (carries (stored_description (fs w) folder st))
        (drop (length (trace w)) (trace (processPost E p folder w).2)).
Proof.
  intros Hd. destruct (post_gate p) eqn:Hgate.
  1,2: exists []; split; [done|];
       rewrite gate_precedes_assets by (by rewrite Hgate); simpl;
       by rewrite drop_all.
  destruct (post_uploads E p folder w Hgate)
    as (st & segs & w1 & r & w2 & evs0 & evs & idxs
        & Hprep & -> & Ht0 & Hq0 & Ht & _ & _ & Hu).
  exists st. split; [intros _; exists segs; by rewrite Hprep|].
  simpl. rewrite Ht, Ht0, <- app_assoc, drop_app_length.
  destruct (prepare_description E p folder w st segs w1 Hprep) as [t Hstored].
  rewrite Hd in Hstored. rewrite Hstored in Hu.
  apply Forall_app. split; [by apply carries_quiet | by eapply carries_uploads].
Qed.

Lemma failed_description_leaves_old_witness :
  ∃ st,
    (post_gate short_story = Accept →
       ∃ segs, (prepare_post (studio (SpeechStream [10%Q] true) true true None)
                  short_story (js "AmItheAsshole") fresh).1 = Returns (st, segs))
    ∧ Forall (carries (stored_description (fs fresh) (js "AmItheAsshole") st))
        (drop (length (trace fresh))
           (trace (processPost (studio (SpeechStream [10%Q] true) true true None)
                     short_story (js "AmItheAsshole") fresh).2)).
Proof.
  apply (failed_description_leaves_old
           (studio (SpeechStream [10%Q] true) true true None)
           short_story (js "AmItheAsshole") fresh).
  reflexivity.
Defined.

(** ** What a run leaves alone *)

Lemma kept_refl w : kept w w.
Proof. by intros q f. Qed.

Lemma kept_trans w1 w2 w3 : kept w1 w2 → kept w2 w3 → kept w1 w3.
Proof. intros H12 H23 q f Hq Hc Hd. apply H23; [by apply H12 | done..]. Qed.

Lemma bind_kept {A B} (m : M A) (k : A → M B) w :
  kept w (m w).2 → (∀ a w1, kept w1 (k a w1).2) → kept w (bind m k w).2.
Proof.
  intros Hm Hk. unfold bind. destruct (m w) as [[a|e] w1]; [|done].
  eapply kept_trans; [exact Hm | apply Hk].
Qed.

Lemma for_each_kept {A} (f : A → M unit) l :
  (∀ a w, kept w (f a w).2) → ∀ w, kept w (for_each f l w).2.
Proof.
  intros Hf. induction l as [|a l IH]; intros w; [apply kept_refl|].
  simpl. apply bind_kept; [apply Hf | by intros _ w1].
Qed.

Lemma processPost_kept E p folder w : kept w (processPost E p folder w).2.
Proof.
  unfold processPost. destruct (post_gate p); try apply kept_refl.
  unfold bind.
  destruct (prepare_spec E p folder w) as (st & segs & w1 & evs0 & -> & _ & _ & Hf0).
  destruct (loop_spec E p folder st (length segs) segs 0 w1)
    as (r & w2 & evs & -> & _ & Hsub & _).
  intros q f Hq _ Hd. simpl.
  eapply lookup_weaken; [|exact Hsub]. by rewrite Hf0.
Qed.

(** X20.  A run never removes or rewrites a file it finds in the store, except
    the description files and the file of the title cache: narrations,
    caption images and videos that are there are used as they are, and the
    background video stays as it is. *)
Theorem run_keeps_existing_files E w q f :
  fs w !! q = Some f →
  q ≠ cacheFilePath →
  (∀ folder st, q ≠ descriptionPath folder st) →
  fs (processSubreddits E w).2 !! q = Some f.
Proof.
  revert q f. change (kept w (processSubreddits E w).2).
  unfold processSubreddits. apply for_each_kept.
  intros [folder sort] w0. apply bind_kept.
  - unfold fetchRedditPosts, bind, get, emit. simpl.
    by destruct (reddit E _ _ _); intros q f.
  - intros posts w1. apply for_each_kept. intros p w2. apply processPost_kept.
Qed.

Lemma run_keeps_existing_files_witness :
  fs (processSubreddits (studio (SpeechStream [10%Q] true) true true None) fresh).2
    !! backgroundVideoPath = Some (Media 600).
Proof.
  apply (run_keeps_existing_files
           (studio (SpeechStream [10%Q] true) true true None) fresh
           backgroundVideoPath (Media 600)).
  - reflexivity.
  - discriminate.
  - intros folder st H. pose proof (description_last folder st) as Hd.
    rewrite <- H in Hd. discriminate.
Defined.

(** X21.  A narration whose stream broke off leaves the part that arrived in the
    store, and from then on that file counts as the segment's narration:
    the next call for the segment returns it and asks for nothing. *)
Theorem broken_narration_is_kept E E' seg seg' st folder i w chunk chunks :
  fs w !! audioPath folder st i = None →
  playht E (clock w) seg = SpeechStream (chunk :: chunks) false →
  ∃ w', generateSegmentSpeech E seg st folder i w = (Rejects SpeechStreamError, w')
    ∧ fs w' !! audioPath folder st i = Some (Media (fold_left Qplus chunks chunk))
    ∧ generateSegmentSpeech E' seg' st folder i w'
      = (Returns (Some (audioPath folder st i)), w').
Proof.
  intros Hnone Hstream.
  unfold generateSegmentSpeech. remember (audioPath folder st i) as path.
  assert (∀ l d w0, fs w0 !! path = Some (Media d) →
            ∃ w1, for_each (appendFileSync path) l w0 = (Returns (), w1)
                  ∧ fs w1 !! path = Some (Media (fold_left Qplus l d))) as Happend.
  { induction l as [|c l IH]; intros d w0 Hd; [by exists w0|].
    simpl. unfold bind, appendFileSync at 1. rewrite Hd. simpl.
    apply IH. simpl. by rewrite lookup_insert_eq. }
  unfold bind at 1, existsSync at 1, get at 1.
  rewrite Hnone, bool_decide_false by (by intros [??]).
  unfold bind at 1, get at 1. unfold bind at 1, emit at 1.
  rewrite Hstream. cbn [for_each]. unfold bind at 1. unfold bind at 1.
  unfold appendFileSync at 1. cbn [fs]. rewrite Hnone. unfold writeFile at 1.
  match goal with |- context [for_each _ chunks ?w0] =>
    destruct (Happend chunks chunk w0) as (w1 & -> & Hw1);
      [simpl; by rewrite lookup_insert_eq|]
  end.
  exists w1. split; [done|]. split; [done|].
  unfold bind, existsSync, get.
  by rewrite Hw1, bool_decide_true by (by eexists).
Qed.

Lemma broken_narration_is_kept_witness :
  ∃ w', generateSegmentSpeech (studio (SpeechStream [10; 5]%Q false) true true None)
          (js "Was I wrong?") (js "A question") (js "AmItheAsshole") 1 fresh
        = (Rejects SpeechStreamError, w')
    ∧ fs w' !! audioPath (js "AmItheAsshole") (js "A question") 1
      = Some (Media (fold_left Qplus [5%Q] 10%Q))
    ∧ generateSegmentSpeech broken_renderer (js "Tell me.") (js "A question")
        (js "AmItheAsshole") 1 w'
      = (Returns (Some (audioPath (js "AmItheAsshole") (js "A question") 1)), w').
Proof.
  apply (broken_narration_is_kept
           (studio (SpeechStream [10; 5]%Q false) true true None) broken_renderer
           (js "Was I wrong?") (js "Tell me.") (js "A question")
           (js "AmItheAsshole") 1 fresh 10%Q [5%Q]); reflexivity.
Defined.

(** X22.  A failed fetch counts as a subreddit without posts: when every fetch
    fails, the run asks each of the three subreddits once, in the order of
    the list, does nothing else and ends normally. *)
Theorem failed_fetches_end_quietly E w :
  (∀ t subreddit sort, reddit E t subreddit sort = None) →
  processSubreddits E w =
    (Returns (),
     {| fs := fs w; shortTitleCache := shortTitleCache w;
        trace := trace w
          ++ [Fetch (js "AmItheAsshole") (js "top.json?t=all");
              Fetch (js "relationshipadvice") (js "top.json?t=all");
              Fetch (js "relationship_advice") (js "top.json?t=month")] |}).
Proof.
  intros Hfail. unfold processSubreddits, subreddits. simpl.
  unfold bind, fetchRedditPosts, bind, get, emit, ret. simpl.
  repeat (rewrite Hfail; simpl). by rewrite <- !app_assoc.
Qed.

Lemma failed_fetches_end_quietly_witness :
  processSubreddits broken_renderer fresh =
    (Returns (),
     {| fs := fs fresh; shortTitleCache := shortTitleCache fresh;
        trace := trace fresh
          ++ [Fetch (js "AmItheAsshole") (js "top.json?t=all");
              Fetch (js "relationshipadvice") (js "top.json?t=all");
              Fetch (js "relationship_advice") (js "top.json?t=month")] |}).
Proof. apply (failed_fetches_end_quietly broken_renderer fresh). reflexivity. Defined.

(** ** The gate on the word "update", and the segments of a post *)

Lemma starts_with_app p s : starts_with p (p ++ s) = true.
Proof. induction p as [|c p IH]; [done|]. simpl. by rewrite N.eqb_refl. Qed.

Lemma starts_with_inv p s : starts_with p s = true → ∃ post, s = p ++ post.
Proof.
  revert s. induction p as [|c p IH]; intros s H; [by exists s|].
  destruct s as [|c' s]; [done|]. simpl in H.
  apply andb_prop in H as [Hc H]. apply N.eqb_eq in Hc as ->.
  destruct (IH s H) as [post ->]. by exists post.
Qed.

Lemma includes_spec s p :
  includes s p = true ↔ ∃ pre post, s = pre ++ p ++ post.
Proof.
  split.
  - induction s as [|c s IH]; simpl; intros H.
    + rewrite orb_false_r in H. destruct (starts_with_inv _ _ H) as [post ->].
      by exists [], post.
    + apply orb_prop in H as [H|H].
      * destruct (starts_with_inv _ _ H) as [post ->]. by exists [], post.
      * destruct (IH H) as (pre & post & ->). by exists (c :: pre), post.
  - intros (pre & post & ->). induction pre as [|c pre IH]; simpl.
    + assert (∀ t, includes t p
                   = starts_with p t
                     || match t with [] => false | _ :: t' => includes t' p end)
        as -> by (by intros []).
      by rewrite starts_with_app.
    + by rewrite IH, orb_true_r.
Qed.

Lemma includes_lower s p :
  includes (toLowerCase s) p = true
  ↔ ∃ pre u post, toLowerCase u = p ∧ s = pre ++ u ++ post.
Proof.
  rewrite includes_spec. unfold toLowerCase. split.
  - intros (pre & post & H).
    apply fmap_app_inv in H as (pre' & rest & _ & H & ->). symmetry in H.
    apply fmap_app_inv in H as (u & post' & Hu & _ & ->).
    by exists pre', u, post'.
  - intros (pre & u & post & <- & ->). rewrite !fmap_app. by eexists _, _.
Qed.

(** X23.  The gate skips a post for the word "update" exactly when its title or
    its body holds the six letters in a row, each in either case; such a
    post is left without a call and without a change to the store. *)
Theorem update_gate (p : post) :
  (post_gate p = SkipUpdate
   ↔ ∃ pre u post,
       toLowerCase u = js "update"
       ∧ (title p = pre ++ u ++ post ∨ selftext p = pre ++ u ++ post))
  ∧ (post_gate p = SkipUpdate →
     ∀ E folder w, processPost E p folder w = (Returns (), w)).
Proof.
  split; [|by intros H E folder w; apply gate_precedes_assets; rewrite H].
  unfold post_gate.
  destruct (includes (toLowerCase (title p)) (js "update")) eqn:Ht.
  { split; [intros _|done].
    apply includes_lower in Ht as (pre & u & post & Hu & Hp).
    exists pre, u, post. by split; [|left]. }
  destruct (includes (toLowerCase (selftext p)) (js "update")) eqn:Hb.
  { split; [intros _|done].
    apply includes_lower in Hb as (pre & u & post & Hu & Hp).
    exists pre, u, post. by split; [|right]. }
  simpl. split; [by destruct (_ <? _)|].
  intros (pre & u & post & Hu & [Hp|Hp]).
  - assert (includes (toLowerCase (title p)) (js "update") = true) as H
      by (apply includes_lower; by exists pre, u, post).
    congruence.
  - assert (includes (toLowerCase (selftext p)) (js "update") = true) as H
      by (apply includes_lower; by exists pre, u, post).
    congruence.
Qed.

(** X24.  The segments [processPost] works on: never none; each has at least 150
    words, or all the words of the text when the text has fewer; and put
    together with single spaces they are the text, white space apart. *)
Theorem segments_of_text (correctedText : jsstring) :
  segments_of correctedText ≠ []
  ∧ Forall (λ s, Nat.min 150 (word_count correctedText) ≤ word_count s)
      (segments_of correctedText)
  ∧ normalize_ws (join sp (segments_of correctedText))
    = normalize_ws correctedText.
Proof.
  unfold segments_of. fold (word_count correctedText).
  destruct (Nat.ltb_spec 400 (word_count correctedText)) as [Hlong|Hshort].
  - split; [apply segments_nonempty|]. split.
    + assert (150 ≤ Z.of_nat (word_count correctedText))%Z as Hm by lia.
      pose proof (chunks_of_all_min 150 (split_ws correctedText) Hm) as Hmin.
      pose proof (segments_words correctedText 150) as H2.
      induction H2 as [|s k segs chunks Hsk _ IH]; [constructor|].
      apply Forall_cons in Hmin as [Hk Hmin].
      constructor; [lia | by apply IH].
    + by rewrite segments_join, normalize_ws_idem.
  - split; [done|]. split; [|done]. constructor; [lia | constructor].
Qed.

(** ** The splitter: what it hands to the rebalancer, and a failed merge *)

Lemma segment_files_spec files x :
  x ∈ segment_files files
  ↔ is_Some (files !! x)
    ∧ negb (includes x (js "/")) && starts_with (js "segment_") x
      && ends_with x (js ".mp4") = true.
Proof.
  unfold segment_files. rewrite list_elem_of_In, filter_In, <- list_elem_of_In.
  rewrite list_elem_of_fmap. split.
  - intros [([y f] & -> & Hy) Hx]. apply elem_of_map_to_list in Hy.
    split; [by eexists | done].
  - intros [[f Hf] Hx]. split; [|done]. exists (x, f).
    split; [done | by apply elem_of_map_to_list].
Qed.

Lemma segment_files_NoDup files : NoDup (segment_files files).
Proof.
  unfold segment_files. generalize (NoDup_fst_map_to_list files).
  induction 1 as [|x l Hx _ IH]; simpl; [constructor|].
  destruct (_ && _); [|done]. constructor; [|done].
  rewrite list_elem_of_In, filter_In, <- list_elem_of_In. by intros [? _].
Qed.

Lemma segment_name_kept k :
  negb (includes (segment_name k) (js "/"))
  && starts_with (js "segment_") (segment_name k)
  && ends_with (segment_name k) (js ".mp4") = true.
Proof.
  assert (includes (segment_name k) (js "/") = false) as ->.
  { destruct (includes _ _) eqn:H; [|done].
    apply includes_spec in H as (pre & post & H).
    assert (Forall (λ c, c ≠ 47%N) (segment_name k)) as Hno.
    { unfold segment_name. repeat apply Forall_app_2.
      - by apply literal_no_slash.
      - apply digits_no_slash, decimal_digits.
      - by apply literal_no_slash. }
    rewrite H in Hno. apply Forall_app in Hno as [_ Hno].
    by apply Forall_app in Hno as [Hno%Forall_cons_1 _]; destruct Hno. }
  unfold segment_name at 1. rewrite starts_with_app.
  unfold ends_with, segment_name.
  by rewrite !reverse_app, <- !app_assoc, starts_with_app.
Qed.

Lemma segment_name_inj i j : segment_name i = segment_name j → i = j.
Proof.
  unfold segment_name. intros H. apply app_inv_head, app_inv_tail in H.
  by apply decimal_inj.
Qed.

Lemma write_chunks_files n ds w :
  ∃ w', write_chunks n ds w = (Returns (), w')
    ∧ ∀ x, is_Some (fs w' !! x)
           ↔ is_Some (fs w !! x) ∨ ∃ k, n ≤ k < n + length ds ∧ x = segment_name k.
Proof.
  revert n w. induction ds as [|d ds IH]; intros n w.
  - exists w. split; [done|]. intros x. split; [by left|].
    intros [?|(k & ? & _)]; [done | simpl in *; lia].
  - simpl. unfold bind, writeFile at 1.
    match goal with |- context [write_chunks (S n) ds ?w0] =>
      destruct (IH (S n) w0) as (w' & -> & Hw')
    end.
    exists w'. split; [done|]. intros x. rewrite Hw'. simpl.
    destruct (decide (x = segment_name n)) as [->|Hne].
    + rewrite lookup_insert_eq. split; [|by intros; left; eexists].
      intros _. right. exists n. split; [lia | done].
    + rewrite lookup_insert_ne by done. split.
      * intros [?|(k & ? & ->)]; [by left|]. right. exists k. split; [lia | done].
      * intros [?|(k & ? & ->)]; [by left|]. right. exists k. split; [|done].
        destruct (decide (k = n)) as [->|?]; [done | lia].
Qed.

Lemma numbers_of_names (ks : list nat) : omap segment_number (segment_name <$> ks) = ks.
Proof.
  induction ks as [|k ks IH]; [done|].
  rewrite fmap_cons. cbn [omap list_omap]. by rewrite segment_number_name, IH.
Qed.

Lemma names_of_numbers (names : list jsstring) :
  Forall (λ x, ∃ k, x = segment_name k) names →
  names = segment_name <$> omap segment_number names.
Proof.
  induction 1 as [|x names [k ->] _ IH]; [done|].
  cbn [omap list_omap]. rewrite segment_number_name, fmap_cons. by f_equal.
Qed.

Lemma sorted_chunk_names n (names sorted : list jsstring) :
  names ≡ₚ segment_name <$> seq 0 n →
  sort_segments names = Some sorted →
  sorted = segment_name <$> seq 0 n.
Proof.
  intros Hnames Hsort.
  destruct (sort_segments_sorted names sorted Hsort) as [Hp Hs].
  rewrite Hnames in Hp.
  assert (Forall (λ x, ∃ k, x = segment_name k) sorted) as Hall.
  { apply Forall_forall. intros x Hx. rewrite Hp in Hx.
    apply list_elem_of_fmap in Hx as (k & -> & _). by exists k. }
  rewrite (names_of_numbers sorted Hall). f_equal.
  apply (StronglySorted_unique le).
  - clear -Hs Hall. induction Hs as [|x sorted _ IH Hx]; [constructor|].
    apply Forall_cons in Hall as [[k ->] Hall].
    cbn [omap list_omap]. rewrite segment_number_name. constructor; [by apply IH|].
    clear IH. induction Hall as [|y sorted [j ->] _ IH]; [constructor|].
    apply Forall_cons in Hx as [(m & n & Hm & Hn & Hmn) Hx].
    rewrite segment_number_name in Hm, Hn. injection Hm as <-. injection Hn as <-.
    cbn [omap list_omap]. rewrite segment_number_name.
    constructor; [done | by apply IH].
  - assert (∀ i m, StronglySorted le (seq i m)) as Hseq.
    { intros i m. revert i. induction m as [|m IH]; intros i; [constructor|].
      simpl. constructor; [apply IH|]. apply Forall_forall. intros j Hj.
      apply elem_of_seq in Hj. lia. }
    apply Hseq.
  - by rewrite Hp, numbers_of_names.
Qed.

(** X25.  In a working directory that holds no chunk files of an earlier cut,
    the list [splitVideo] goes on to rebalance is the chunks of this cut in
    the order they were written, in whatever order the directory lists
    them. *)
Theorem splitVideo_orders_chunks E input sd w d durations :
  segment_files (fs w) = [] →
  fs w !! input = Some (Media d) →
  ffmpeg_segment E (clock w) input sd = Some durations →
  splitVideo E input sd w
  = rebalance E (segment_name <$> seq 0 (length durations))
      (write_chunks 0 durations
         {| fs := fs w; shortTitleCache := shortTitleCache w;
            trace := trace w ++ [Segmenter input sd] |}).2.
Proof.
  intros Hclean Hinput Hcut.
  unfold splitVideo, bind, get, emit. simpl. rewrite Hinput, Hcut.
  set (w0 := {| fs := fs w; shortTitleCache := shortTitleCache w;
                trace := trace w ++ [Segmenter input sd] |}).
  destruct (write_chunks_files 0 durations w0) as (w1 & Hrun & Hfiles).
  rewrite Hrun. simpl.
  assert (segment_files (fs w1) ≡ₚ segment_name <$> seq 0 (length durations))
    as Hperm.
  { apply NoDup_Permutation.
    - apply segment_files_NoDup.
    - apply (NoDup_fmap_2_strong segment_name); [|apply NoDup_seq].
      intros i j _ _. apply segment_name_inj.
    - intros x. rewrite segment_files_spec, Hfiles, list_elem_of_fmap. split.
      + intros [[Hold|(k & Hk & ->)] Hx].
        * assert (x ∈ segment_files (fs w)) as Hin
            by (by apply segment_files_spec).
          rewrite Hclean in Hin. by apply elem_of_nil in Hin.
        * exists k. split; [done|]. apply elem_of_seq. lia.
      + intros (k & -> & Hk%elem_of_seq).
        split; [|apply segment_name_kept]. right. exists k. split; [lia | done]. }
  destruct (sort_segments (segment_files (fs w1))) as [sorted|] eqn:Hsort.
  - by rewrite (sorted_chunk_names _ _ _ Hperm Hsort).
  - exfalso. revert Hsort. unfold sort_segments.
    destruct (segment_files (fs w1)) as [|a [|b names]]; [done..|].
    set (l := a :: b :: names) in *. clearbody l.
    destruct (mapM _ l) as [numbered|] eqn:Hm; [done|]. intros _.
    apply mapM_None in Hm. apply Exists_exists in Hm as (x & Hx & Hnone).
    rewrite Hperm in Hx. apply list_elem_of_fmap in Hx as (k & -> & _).
    by rewrite segment_number_name in Hnone.
Qed.

Lemma splitVideo_orders_chunks_witness :
  splitVideo (studio SpeechRejects true true (Some [60; 60; 45]%Q))
    (js "long.mp4") 60 fresh
  = rebalance (studio SpeechRejects true true (Some [60; 60; 45]%Q))
      (segment_name <$> seq 0 (length [60; 60; 45]%Q))
      (write_chunks 0 [60; 60; 45]%Q
         {| fs := fs fresh; shortTitleCache := shortTitleCache fresh;
            trace := trace fresh ++ [Segmenter (js "long.mp4") 60] |}).2.
Proof.
  apply (splitVideo_orders_chunks (studio SpeechRejects true true (Some [60; 60; 45]%Q))
           (js "long.mp4") 60 fresh 205%Q [60; 60; 45]%Q); reflexivity.
Defined.

(** X26.  When the merge command fails, the rebalancer returns the list as it
    was, with the short chunk still in it; both chunks stay in the store,
    and so does the list file written for the command. *)
Theorem failed_merge_leaves_list E w init prev lst dl :
  chunk_name prev → chunk_name lst →
  fs w !! lst = Some (Media dl) →
  Qltb dl 30 = true ∨ ffprobe E (clock w) lst = false →
  ffmpeg_concat E (S (clock w)) (concat_list_of prev lst) = false →
  ∃ w', rebalance E (init ++ [prev; lst]) w = (Returns (init ++ [prev; lst]), w')
    ∧ fs w' !! js "concat_list.txt" = Some (Text (concat_list_of prev lst))
    ∧ fs w' !! prev = fs w !! prev
    ∧ fs w' !! lst = fs w !! lst.
Proof.
  intros Hcp Hcl Hl Hshort Hconcat.
  destruct (chunk_name_not_transient _ Hcp) as [Hp1 _].
  destruct (chunk_name_not_transient _ Hcl) as [Hl1 _].
  destruct (last_two init prev lst) as (Hlast & Hprev & Hpop & Hlen).
  unfold rebalance. rewrite Hlen, Hlast, Hprev. unfold bind at 1.
  destruct (probe_or_zero E lst w) as (d & -> & Hd).
  assert (Qltb (match d with Some d => d | None => 0%Q end) 30 = true) as ->.
  { destruct d as [d|]; [|done]. destruct Hd as [Hd Hok].
    rewrite Hl in Hd. injection Hd as <-. destruct Hshort; congruence. }
  unfold bind, catch, concat_last, bind, get, emit, writeFile, clock. simpl.
  rewrite length_app, Nat.add_1_r. simpl.
  unfold clock in Hconcat. rewrite Hconcat.
  rewrite !lookup_insert_ne by done. rewrite Hl.
  destruct (fs w !! prev) as [[]|] eqn:Hp; simpl;
    (eexists; split; [reflexivity|]; simpl).
  all: by rewrite lookup_insert_eq, !lookup_insert_ne, Hp, Hl by done.
Qed.

Lemma failed_merge_leaves_list_witness :
  ∃ w', rebalance (studio SpeechRejects true false None)
          ([segment_name 0] ++ [segment_name 1; segment_name 2])
          (chunked [60; 60; 25]%Q)
        = (Returns ([segment_name 0] ++ [segment_name 1; segment_name 2]), w')
    ∧ fs w' !! js "concat_list.txt"
      = Some (Text (concat_list_of (segment_name 1) (segment_name 2)))
    ∧ fs w' !! segment_name 1 = fs (chunked [60; 60; 25]%Q) !! segment_name 1
    ∧ fs w' !! segment_name 2 = fs (chunked [60; 60; 25]%Q) !! segment_name 2.
Proof.
  apply (failed_merge_leaves_list (studio SpeechRejects true false None)
           (chunked [60; 60; 25]%Q) [segment_name 0] (segment_name 1)
           (segment_name 2) 25%Q);
    [reflexivity | reflexivity | reflexivity | by left | reflexivity].
Defined.

(** ** The part number in the titles of [uploadAllVideos] *)

Lemma last_dot_none (s : jsstring) : Forall (λ c, c ≠ 46%N) s → last_dot s = None.
Proof.
  induction 1 as [|c s Hc _ IH]; [done|]. simpl. rewrite IH.
  by destruct (N.eqb_spec c 46).
Qed.

Lemma last_dot_mp4 (a : jsstring) :
  Forall (λ c, c ≠ 46%N) a → last_dot (a ++ js ".mp4") = Some (length a).
Proof. induction 1 as [|c a Hc _ IH]; [done|]. simpl. by rewrite IH. Qed.

Lemma after_digits (d : jsstring) :
  Forall (λ c, is_digit c = true) d → after_dot_star_part d = None.
Proof.
  induction 1 as [|c d Hc _ IH]; [done|]. cbn [after_dot_star_part].
  rewrite IH. assert (starts_with (js "part") (c :: d) = false) as ->.
  { change (js "part") with (112%N :: js "art"). cbn [starts_with].
    destruct (N.eqb_spec 112 c) as [<-|]; done. }
  by destruct (is_line_terminator c).
Qed.

Lemma after_part (b d : jsstring) :
  Forall (λ c, is_line_terminator c = false) b →
  Forall (λ c, is_digit c = true) d →
  after_dot_star_part (b ++ js "part" ++ d) = Some d.
Proof.
  intros Hb Hd. induction Hb as [|c b Hc _ IH].
  - pose proof (after_digits d Hd) as Hnone.
    change (js "part") with [112%N; 97%N; 114%N; 116%N]. simpl.
    rewrite Hnone. by destruct d as [|c d]; [|destruct (N.eqb_spec 112 c)].
  - cbn [app after_dot_star_part]. by rewrite Hc, IH.
Qed.

Lemma remove_found (s r : jsstring) :
  after_dot_star_part s = Some r → remove_dot_star_part s = r.
Proof. intros H. destruct s; [done|]. unfold remove_dot_star_part. by rewrite H. Qed.

Lemma slug_no_terminator (s : jsstring) :
  Forall (λ c, is_slug_unit c = true) s →
  Forall (λ c, is_line_terminator c = false) s.
Proof.
  intros H. eapply Forall_impl; [exact H|]. intros c Hc.
  unfold is_slug_unit, is_line_terminator, underscore in *.
  repeat match goal with
         | |- context [(?a =? ?b)%N] => destruct (N.eqb_spec a b); [subst; done|]
         end.
  done.
Qed.

(** X27.  From the name [processPost] gives the video of a segment,
    [uploadAllVideos] reads back the number of the segment for its title,
    whatever the short title of the post. *)
Theorem video_title_part (subredditFolder shortTitle ttl : jsstring) (i : nat) :
  videoPath subredditFolder shortTitle i
  = artifact_dir subredditFolder shortTitle ++ js "/ogVid/" ++ video_file shortTitle i
  ∧ video_title subredditFolder ttl (video_file shortTitle i)
    = js "r/" ++ subredditFolder ++ js " - " ++ ttl ++ js " - Part " ++ decimal i.
Proof.
  split; [reflexivity|].
  unfold video_title.
  set (stem := js "video_" ++ sanitizeTitle shortTitle ++ js "_part" ++ decimal i).
  assert (parse_name (video_file shortTitle i) = stem) as ->.
  { assert (video_file shortTitle i = stem ++ js ".mp4") as ->
      by (unfold video_file, stem; by rewrite <- !app_assoc).
    unfold parse_name. rewrite last_dot_mp4.
    - assert (∃ n, length stem = S n) as [n Hn] by (by eexists).
      rewrite Hn, <- Hn, bool_decide_false by done.
      by rewrite take_app_length.
    - unfold stem. repeat apply Forall_app_2.
      + apply Forall_forall. intros c Hc ->. vm_compute in Hc.
        by repeat (apply elem_of_cons in Hc as [Hc|Hc]; [done|]);
          apply elem_of_nil in Hc.
      + eapply Forall_impl; [apply sanitizeTitle_slug|]. by intros c Hc ->.
      + apply Forall_forall. intros c Hc ->. vm_compute in Hc.
        by repeat (apply elem_of_cons in Hc as [Hc|Hc]; [done|]);
          apply elem_of_nil in Hc.
      + eapply Forall_impl; [apply decimal_digits|]. by intros c Hc ->. }
  assert (remove_dot_star_part stem = decimal i) as ->.
  { assert (after_dot_star_part stem = Some (decimal i)) as Hafter.
    { unfold stem. change (js "_part") with (js "_" ++ js "part").
      rewrite <- (app_assoc (js "_")), !(app_assoc _ _ (js "part" ++ decimal i)).
      apply after_part; [|apply decimal_digits].
      rewrite <- ?app_assoc. apply Forall_app_2; [|apply Forall_app_2].
      - by repeat constructor.
      - apply slug_no_terminator, sanitizeTitle_slug.
      - by repeat constructor. }
    by rewrite (remove_found _ _ Hafter). }
  assert (List.filter (λ c, negb (c =? underscore)%N) (decimal i) = decimal i)
    as ->; [|done].
  pose proof (decimal_digits i) as Hd.
  induction Hd as [|c d Hc _ IH]; [done|]. simpl.
  assert ((c =? underscore)%N = false) as ->.
  { destruct (N.eqb_spec c underscore) as [->|]; done. }
  simpl. by rewrite IH.
Qed.
